(** * benchmark_sampler.py: stratified benchmark sampling

    A shallow embedding of [benchmark_sampler.py] and the properties of its
    metadata derivation, duration filter, segment-to-stratum join, stratified
    sampler and output assembly.

    Modelling conventions.
    - A Python [str] is the [string] of its UTF-8 bytes.  A character is a
      byte that is not a continuation byte together with the continuation
      bytes after it; [int], [float] and the class [\d] of the regular
      expression read decimal digits and whitespace of all of Unicode
      (version 14.0, as CPython 3.11 has it).  [str.lower] changes the ASCII
      letters, which is all that the searched keywords can meet.
    - A Python exception is the [Raise] case of [result].
    - A Python float is modelled by the rational it denotes (every finite
      double is a rational, and comparisons agree), plus the infinities and
      NaN; [float] of a string rounds to the nearest double.
    - A table is given by the rows of its CSV file.  A field of
      [audio_duration], [Filename] or [Original Full Audio Duration] is a
      [cell]: [Text s] in a column that pandas keeps as text, [Number x] in a
      column whose fields pandas converts (all of them numbers, or all of them
      booleans), or a missing value; [read_csv] turns the text that pandas
      takes for a missing value (the empty field, [NA], [n/a], ...: the
      default list of pandas 2) into a missing value.  The columns
      [file_name], [url] and [ID] are taken to hold text in every row, and
      [AGE] and [inference_transcript] text or a missing value.
    - A DataFrame is a list of rows carrying their index label; a [dict] is an
      association list in insertion order.
    - numpy's global generator is an explicit state threaded through the
      sampler, behind the interface [RandomState].
    - CPython's limit on the number of digits of an integer literal is a
      setting of the interpreter and is left out. *)

From Stdlib Require Import String Ascii List ZArith QArith Lia Bool Arith Permutation.
From Stdlib Require Import Sorted NArith.
Import ListNotations.

Set Implicit Arguments.

(** ** Python exceptions and results *)

Inductive exn : Set :=
| ValueError
| KeyError
| TypeError
| AttributeError.

Inductive result (A : Type) : Type :=
| Ok (a : A)
| Raise (e : exn).

Arguments Ok {A} a.
Arguments Raise {A} e.

Definition bind {A B : Type} (r : result A) (k : A -> result B) : result B :=
  match r with
  | Ok a => k a
  | Raise e => Raise e
  end.

Notation "x <- r ;; k" := (bind r (fun x => k))
  (at level 61, r at next level, right associativity).

Definition is_ok {A : Type} (r : result A) : bool :=
  match r with Ok _ => true | Raise _ => false end.

(** [[f(x) for x in l]], stopping at the first exception. *)
Fixpoint mapM {A B : Type} (f : A -> result B) (l : list A) : result (list B) :=
  match l with
  | [] => Ok []
  | x :: t => y <- f x ;; ys <- mapM f t ;; Ok (y :: ys)
  end.

(** ** Floats *)

Inductive float : Set :=
| Finite (q : Q)
| PosInf
| NegInf
| NaN.

(** [a <= b] on floats: every comparison with NaN is false. *)
Definition float_le (a b : float) : bool :=
  match a, b with
  | NaN, _ => false
  | _, NaN => false
  | NegInf, _ => true
  | _, PosInf => true
  | Finite x, Finite y => Qle_bool x y
  | _, _ => false
  end.

Definition float_ge (a b : float) : bool := float_le b a.

(** ** Python strings *)

Module PyStr.

Open Scope string_scope.

Definition code (c : ascii) : nat := nat_of_ascii c.

Definition is_upper (c : ascii) : bool := (65 <=? code c)%nat && (code c <=? 90)%nat.

Definition lower_char (c : ascii) : ascii :=
  if is_upper c then ascii_of_nat (code c + 32) else c.

(** [s.lower()] *)
Fixpoint lower (s : string) : string :=
  match s with
  | EmptyString => EmptyString
  | String c t => String (lower_char c) (lower t)
  end.

(** [needle in hay] *)
Fixpoint contains (needle hay : string) : bool :=
  prefix needle hay
  || match hay with
     | EmptyString => false
     | String _ t => contains needle t
     end.

(** [s.split(sep)] for a one-character separator. *)
Fixpoint split (sep : ascii) (s : string) : list string :=
  match s with
  | EmptyString => [EmptyString]
  | String c t =>
      if Ascii.eqb c sep then EmptyString :: split sep t
      else match split sep t with
           | f :: fs => String c f :: fs
           | [] => [String c EmptyString]
           end
  end.

Fixpoint take (n : nat) (s : string) : string :=
  match n, s with
  | S n', String c t => String c (take n' t)
  | _, _ => EmptyString
  end.

Fixpoint drop (n : nat) (s : string) : string :=
  match n, s with
  | S n', String _ t => drop n' t
  | _, _ => s
  end.

(** The remainder of [s] after the literal [p], when [s] starts with [p]. *)
Fixpoint after_literal (p s : string) : option string :=
  match p, s with
  | EmptyString, _ => Some s
  | String a p', String b s' => if Ascii.eqb a b then after_literal p' s' else None
  | String _ _, EmptyString => None
  end.

(** ["".join(l)] *)
Definition join (l : list string) : string := fold_right append EmptyString l.

(** *** Characters *)

(** A continuation byte of UTF-8, 10xxxxxx. *)
Definition is_continuation (c : ascii) : bool :=
  (128 <=? code c)%nat && (code c <=? 191)%nat.

Definition starts_with_continuation (s : string) : bool :=
  match s with
  | String b _ => is_continuation b
  | EmptyString => false
  end.

(** The characters of a [str]: each one is a byte that is not a continuation
    byte, with the continuation bytes that follow it. *)
Fixpoint chars (s : string) : list string :=
  match s with
  | EmptyString => []
  | String a t =>
      match chars t with
      | ch :: rest =>
          if starts_with_continuation t then String a ch :: rest
          else String a EmptyString :: ch :: rest
      | [] => [String a EmptyString]
      end
  end.

(** The bits that continuation bytes add to [acc], six for each byte. *)
Fixpoint continuation (acc : N) (s : string) : option N :=
  match s with
  | EmptyString => Some acc
  | String b t =>
      if is_continuation b
      then continuation (acc * 64 + (N.of_nat (code b) - 128)) t
      else None
  end.

(** [ord(ch)]: the code point that the bytes of one character encode. *)
Definition code_point (ch : string) : option N :=
  match ch with
  | EmptyString => None
  | String a t =>
      let a := N.of_nat (code a) in
      let n := String.length t in
      let within (lo hi : N) (r : option N) :=
        match r with
        | Some cp => if (lo <=? cp)%N && (cp <=? hi)%N then Some cp else None
        | None => None
        end in
      if (a <? 128)%N then (if (n =? 0)%nat then Some a else None)
      else if (a <? 192)%N then None
      else if (a <? 224)%N
        then (if (n =? 1)%nat then within 128%N 2047%N (continuation (a - 192) t) else None)
      else if (a <? 240)%N
        then (if (n =? 2)%nat
              then match within 2048%N 65535%N (continuation (a - 224) t) with
                   | Some cp => if (55296 <=? cp)%N && (cp <=? 57343)%N then None else Some cp
                   | None => None
                   end
              else None)
      else if (a <? 248)%N
        then (if (n =? 3)%nat then within 65536%N 1114111%N (continuation (a - 240) t) else None)
      else None
  end.

(** The code points of the digit zero of every run of decimal digits
    (category Nd, Unicode 14.0); the ten digits of a run are consecutive. *)
Definition decimal_zeros : list N :=
  [48; 1632; 1776; 1984; 2406; 2534; 2662; 2790; 2918; 3046; 3174; 3302; 3430;
   3558; 3664; 3792; 3872; 4160; 4240; 6112; 6160; 6470; 6608; 6784; 6800; 6992;
   7088; 7232; 7248; 42528; 43216; 43264; 43472; 43504; 43600; 44016; 65296;
   66720; 68912; 69734; 69872; 69942; 70096; 70384; 70736; 70864; 71248; 71360;
   71472; 71904; 72016; 72784; 73040; 73120; 92768; 92864; 93008; 120782;
   120792; 120802; 120812; 120822; 123200; 123632; 125264; 130032]%N.

(** [unicodedata.decimal]: the value of a decimal digit. *)
Definition decimal_of (cp : N) : option Z :=
  match find (fun z => (z <=? cp)%N && (cp <? z + 10)%N) decimal_zeros with
  | Some z => Some (Z.of_N (cp - z))
  | None => None
  end.

Definition decimal_value (ch : string) : option Z :=
  match code_point ch with
  | Some cp => decimal_of cp
  | None => None
  end.

(** The class [\d] of a [str] pattern, and [ch.isdecimal()]. *)
Definition is_decimal (ch : string) : bool :=
  match decimal_value ch with Some _ => true | None => false end.

(** The whitespace code points from 127 on. *)
Definition unicode_spaces : list N :=
  [133; 160; 5760; 8192; 8193; 8194; 8195; 8196; 8197; 8198; 8199; 8200; 8201;
   8202; 8232; 8233; 8239; 8287; 12288]%N.

Definition is_unicode_space (cp : N) : bool := existsb (N.eqb cp) unicode_spaces.

(** *** Numbers from strings *)

(** What [int] and [float] first make of a character: below 127 it is kept,
    whitespace becomes a space, a decimal digit becomes the ASCII digit of its
    value, and any other character becomes a question mark. *)
Definition ascii_of_char (ch : string) : ascii :=
  match code_point ch with
  | Some cp =>
      if (cp <? 127)%N then ascii_of_N cp
      else if is_unicode_space cp then " "%char
      else match decimal_of cp with
           | Some d => ascii_of_nat (48 + Z.to_nat d)
           | None => "?"%char
           end
  | None => "?"%char
  end.

Definition to_ascii (s : string) : string :=
  string_of_list_ascii (map ascii_of_char (chars s)).

(** The whitespace that the parsers of numbers skip: tab to carriage return,
    and the space. *)
Definition is_space (c : ascii) : bool :=
  ((9 <=? code c)%nat && (code c <=? 13)%nat) || (code c =? 32)%nat.

Definition is_ascii_digit (c : ascii) : bool :=
  (48 <=? code c)%nat && (code c <=? 57)%nat.

Fixpoint lstrip (s : string) : string :=
  match s with
  | EmptyString => EmptyString
  | String c t => if is_space c then lstrip t else s
  end.

Fixpoint rstrip (s : string) : string :=
  match s with
  | EmptyString => EmptyString
  | String c t =>
      let t' := rstrip t in
      if is_space c && String.eqb t' EmptyString then EmptyString else String c t'
  end.

Definition strip (s : string) : string := rstrip (lstrip s).

Definition digit_val (c : ascii) : Z := Z.of_nat (code c - 48).

(** The digits of an integer literal: decimal digits, where a single
    underscore may stand between two digits. *)
Inductive lit_state : Set := NeedDigit | AfterDigit.

Fixpoint int_digits (st : lit_state) (acc : Z) (s : string) : option Z :=
  match s with
  | EmptyString => match st with AfterDigit => Some acc | NeedDigit => None end
  | String c t =>
      if is_ascii_digit c then int_digits AfterDigit (10 * acc + digit_val c) t
      else if Ascii.eqb c "_" then
        match st with
        | AfterDigit => int_digits NeedDigit acc t
        | NeedDigit => None
        end
      else None
  end.

(** [int(s)]: surrounding whitespace is ignored, then an optional sign and
    the digits; anything else is a [ValueError]. *)
Definition int (s : string) : result Z :=
  let s' := strip (to_ascii s) in
  let '(neg, body) :=
    match s' with
    | String c t =>
        if Ascii.eqb c "-" then (true, t)
        else if Ascii.eqb c "+" then (false, t)
        else (false, s')
    | EmptyString => (false, s')
    end in
  match int_digits NeedDigit 0 body with
  | Some n => Ok (if neg then - n else n)%Z
  | None => Raise ValueError
  end.

(** The longest run of ASCII digits at the head of [s], and what follows. *)
Fixpoint span_ascii_digits (s : string) : string * string :=
  match s with
  | EmptyString => (EmptyString, EmptyString)
  | String c t =>
      if is_ascii_digit c
      then let '(ds, rest) := span_ascii_digits t in (String c ds, rest)
      else (EmptyString, s)
  end.

Fixpoint decimal_from (acc : Z) (s : string) : Z :=
  match s with
  | EmptyString => acc
  | String c t => decimal_from (10 * acc + digit_val c) t
  end.

(** An underscore of a float literal stands between two digits; [prev] is
    the character before [s].  The result is [s] without its underscores. *)
Fixpoint drop_underscores (prev : ascii) (s : string) : option string :=
  match s with
  | EmptyString => if Ascii.eqb prev "_" then None else Some EmptyString
  | String c t =>
      if Ascii.eqb c "_"
      then (if is_ascii_digit prev then drop_underscores c t else None)
      else if Ascii.eqb prev "_" && negb (is_ascii_digit c) then None
      else match drop_underscores c t with
           | Some t' => Some (String c t')
           | None => None
           end
  end.

(** The double nearest to a positive rational [n / d], ties to even. *)
Definition nearest_double (n d : Z) : float :=
  let e0 := (Z.log2 n - Z.log2 d)%Z in
  let above :=
    if (0 <=? e0)%Z then (d * 2 ^ e0 <=? n)%Z else (d <=? n * 2 ^ (- e0))%Z in
  let e := if above then e0 else (e0 - 1)%Z in
  if (1024 <=? e)%Z then PosInf
  else
    let p := Z.max (e - 52) (-1074) in
    let num := if (0 <=? p)%Z then n else (n * 2 ^ (- p))%Z in
    let den := if (0 <=? p)%Z then (d * 2 ^ p)%Z else d in
    let q := (num / den)%Z in
    let r := (num mod den)%Z in
    let m :=
      match (2 * r ?= den)%Z with
      | Lt => q
      | Gt => (q + 1)%Z
      | Eq => if Z.even q then q else (q + 1)%Z
      end in
    if (0 <=? p)%Z
    then (if (2 ^ 1024 <=? m * 2 ^ p)%Z then PosInf else Finite (inject_Z (m * 2 ^ p)))
    else Finite (Qred (Qmake m (Z.to_pos (2 ^ (- p))))).

(** The double of the decimal [mantissa * 10 ^ exponent], where [mantissa]
    is a string of [digits] digits. *)
Definition double_of_decimal (mantissa : string) (exponent : Z) : float :=
  let m := decimal_from 0 mantissa in
  let digits := Z.of_nat (String.length mantissa) in
  if (m =? 0)%Z then Finite 0
  else if (309 <? exponent)%Z then PosInf
  else if (digits + exponent <? -324)%Z then Finite 0
  else if (0 <=? exponent)%Z then nearest_double (m * 10 ^ exponent) 1
  else nearest_double m (10 ^ (- exponent)).

Definition negate (x : float) : float :=
  match x with
  | Finite q => Finite (Qred (- q))
  | PosInf => NegInf
  | NegInf => PosInf
  | NaN => NaN
  end.

(** The exponent part of a float literal, empty or "e", a sign, digits. *)
Definition float_exponent (s : string) : option Z :=
  match s with
  | EmptyString => Some 0%Z
  | String c t =>
      if Ascii.eqb c "e" || Ascii.eqb c "E" then
        let '(neg, t') :=
          match t with
          | String c' t' =>
              if Ascii.eqb c' "-" then (true, t')
              else if Ascii.eqb c' "+" then (false, t')
              else (false, t)
          | EmptyString => (false, t)
          end in
        let '(ds, rest) := span_ascii_digits t' in
        if String.eqb ds EmptyString || negb (String.eqb rest EmptyString) then None
        else Some (if neg then - decimal_from 0 ds else decimal_from 0 ds)%Z
      else None
  end.

(** A float literal without its sign: digits with an optional point, and
    an optional exponent; or "inf", "infinity", "nan" in any letter case. *)
Definition float_magnitude (s : string) : option float :=
  let '(ip, r1) := span_ascii_digits s in
  let '(fp, r2) :=
    match r1 with
    | String c t => if Ascii.eqb c "." then span_ascii_digits t else (EmptyString, r1)
    | EmptyString => (EmptyString, r1)
    end in
  if String.eqb (ip ++ fp) EmptyString then
    let l := lower s in
    if String.eqb l "inf" || String.eqb l "infinity" then Some PosInf
    else if String.eqb l "nan" then Some NaN
    else None
  else
    match float_exponent r2 with
    | Some e => Some (double_of_decimal (ip ++ fp) (e - Z.of_nat (String.length fp)))
    | None => None
    end.

(** [float(s)] *)
Definition float (s : string) : result float :=
  match drop_underscores " " (to_ascii s) with
  | None => Raise ValueError
  | Some s1 =>
      let s2 := strip s1 in
      let '(neg, body) :=
        match s2 with
        | String c t =>
            if Ascii.eqb c "-" then (true, t)
            else if Ascii.eqb c "+" then (false, t)
            else (false, s2)
        | EmptyString => (false, s2)
        end in
      match float_magnitude body with
      | Some x => Ok (if neg then negate x else x)
      | None => Raise ValueError
      end
  end.

End PyStr.

(** ** Table cells *)

(** A cell of a table: [Number x] in a column of numbers, [Missing] for a
    missing value (NaN), and [Text s] for a [str]. *)
Inductive cell : Set :=
| Number (x : float)
| Missing
| Text (s : string).

(** [pd.isna(x)] *)
Definition isna (c : cell) : bool :=
  match c with
  | Number NaN => true
  | Number _ => false
  | Missing => true
  | Text _ => false
  end.

(** A method of [str] called on a cell: a float or an integer has no such
    attribute. *)
Definition str_method {A : Type} (f : string -> A) (c : cell) : result A :=
  match c with
  | Text s => Ok (f s)
  | _ => Raise AttributeError
  end.

(** A value of an output table or of the JSON list. *)
Inductive value : Set :=
| VStr (s : string)
| VFloat (x : float)
| VInt (z : Z).

(** ** Metadata derivation *)

Open Scope string_scope.
Open Scope Z_scope.

Definition parse_duration (time_str : cell) : result Z :=
  if isna time_str then Ok 0
  else
    fields <- str_method (PyStr.split ":") time_str ;;
    match fields with
    | [fh; fm; fs] =>
        h <- PyStr.int fh ;;
        m <- PyStr.int fm ;;
        s <- PyStr.int fs ;;
        Ok (h * 3600 + m * 60 + s)
    | _ => Raise ValueError
    end.

Definition duration_category (seconds : Z) : string :=
  if seconds <? 300 then "short"
  else if seconds <? 900 then "medium"
  else "long".

Definition extract_content_type (filename : string) : string :=
  let lower_name := PyStr.lower filename in
  if PyStr.contains "qa" lower_name then "Q&A"
  else if PyStr.contains "practice" lower_name then "Practice"
  else if PyStr.contains "dedication" lower_name || PyStr.contains "prayer" lower_name
       then "Prayer"
  else "Teaching".

(** The longest run of decimal digits at the head of a list of characters,
    and the characters after it. *)
Fixpoint span_digits (cs : list string) : list string * list string :=
  match cs with
  | [] => ([], [])
  | ch :: t =>
      if PyStr.is_decimal ch
      then let '(ds, rest) := span_digits t in (ch :: ds, rest)
      else ([], cs)
  end.

(** [re.match(r'(STT_GR_\d+)_', segment_id)], returning group 1.  After the
    literal, [\d+] is greedy: it first takes the whole run of digits and then
    gives digits back one at a time, down to one digit, until the rest of the
    input starts with the underscore. *)
Fixpoint re_digits_underscore (k : nat) (ds rest : list string) : option string :=
  match k with
  | O => None
  | S k' =>
      if prefix "_" (PyStr.join (skipn k ds ++ rest))
      then Some (PyStr.join (firstn k ds))
      else re_digits_underscore k' ds rest
  end.

Definition re_match_original_id (segment_id : string) : option string :=
  match PyStr.after_literal "STT_GR_" segment_id with
  | None => None
  | Some s =>
      let '(ds, rest) := span_digits (PyStr.chars s) in
      match re_digits_underscore (length ds) ds rest with
      | Some g => Some ("STT_GR_" ++ g)
      | None => None
      end
  end.

Definition extract_original_id (segment_id : string) : string :=
  match re_match_original_id segment_id with
  | Some group1 => group1
  | None => segment_id
  end.

(** ** Dictionaries (insertion ordered) *)

Section Dict.
Variable V : Type.

Definition dict := list (string * V).

Fixpoint dict_get (k : string) (d : dict) : option V :=
  match d with
  | [] => None
  | (k', v) :: t => if String.eqb k k' then Some v else dict_get k t
  end.

(** [d[k] = v]: an existing key keeps its place, a new key goes last. *)
Fixpoint dict_set (k : string) (v : V) (d : dict) : dict :=
  match d with
  | [] => [(k, v)]
  | (k', v') :: t =>
      if String.eqb k k' then (k', v) :: t else (k', v') :: dict_set k v t
  end.

(** [dict(pairs)]: later pairs overwrite earlier ones. *)
Definition dict_of (pairs : list (string * V)) : dict :=
  fold_left (fun d kv => dict_set (fst kv) (snd kv) d) pairs [].

Definition keys (d : dict) : list string := map fst d.
End Dict.

Arguments dict_get {V} k d.
Arguments dict_set {V} k v d.
Arguments dict_of {V} pairs.
Arguments keys {V} d.

(** [collections.Counter(l)] *)
Definition Counter (l : list string) : dict nat :=
  fold_left
    (fun d k => dict_set k (S (match dict_get k d with Some n => n | None => O end)) d)
    l [].

(** [Index.is_unique] *)
Fixpoint is_unique (l : list string) : bool :=
  match l with
  | [] => true
  | x :: t => negb (existsb (String.eqb x) t) && is_unique t
  end.

(** ** Input tables *)

(** A row of [GR.csv]; [D] is the type of the duration column, [cell] as read
    and [float] after [astype(float)]. *)
Record segment (D : Type) : Type := {
  file_name : string;
  url : string;
  audio_duration : D;
  inference_transcript : option string
}.

(** [GR.csv]: the transcript column is optional. *)
Record segments_csv : Type := {
  has_inference_transcript : bool;
  segment_rows : list (segment cell)
}.

(** A row of [gr_catalog.csv]. *)
Record catalog_entry : Type := {
  ID : string;
  Filename : cell;
  Original_Full_Audio_Duration : cell;
  AGE : option string
}.

(** A catalog row with its derived columns. *)
Record catalog_row : Type := {
  entry : catalog_entry;
  split_duration_seconds : Z;
  c_duration_category : string;
  c_content_type : string;
  c_strata : string
}.

Record metadata : Type := {
  m_AGE : option string;
  m_duration_category : string;
  m_content_type : string
}.

(** A DataFrame: rows with their index labels. *)
Definition frame (R : Type) := list (nat * R).

(** The fields that [read_csv] reads as a missing value (its default
    [na_values]). *)
Definition na_values : list string :=
  [""; "#N/A"; "#N/A N/A"; "#NA"; "-1.#IND"; "-1.#QNAN"; "-NaN"; "-nan";
   "1.#IND"; "1.#QNAN"; "<NA>"; "N/A"; "NA"; "NULL"; "NaN"; "None"; "n/a";
   "nan"; "null"]%string.

Definition is_na (s : string) : bool := existsb (String.eqb s) na_values.

(** What [read_csv] makes of a field of the file: a missing value when the
    text is one of [na_values], the field itself otherwise. *)
Definition read_field (c : cell) : cell :=
  match c with
  | Text s => if is_na s then Missing else Text s
  | _ => c
  end.

Definition read_segment (s : segment cell) : segment cell :=
  {| file_name := file_name s;
     url := url s;
     audio_duration := read_field (audio_duration s);
     inference_transcript := inference_transcript s |}.

Definition read_entry (e : catalog_entry) : catalog_entry :=
  {| ID := ID e;
     Filename := read_field (Filename e);
     Original_Full_Audio_Duration := read_field (Original_Full_Audio_Duration e);
     AGE := AGE e |}.

(** The default index of a table: its rows labelled 0, 1, 2, ... *)
Definition range_index {R : Type} (rows : list R) : frame R :=
  combine (seq 0 (length rows)) rows.

(** [pd.read_csv]: the rows of the file as [read_row] reads their fields,
    under the default index. *)
Definition read_csv {R : Type} (read_row : R -> R) (rows : list R) : frame R :=
  range_index (map read_row rows).

(** A row of [valid_segments] once joined to its stratum. *)
Record valid_segment : Type := {
  v_index : nat;
  v_segment : segment float;
  original_id : string;
  strata : string
}.

(** A row of [benchmark_df]. *)
Record benchmark_row : Type := {
  b_valid : valid_segment;
  age_group : option string;
  b_duration_category : string;
  b_content_type : string
}.

Record json_metadata : Type := {
  j_original_file_id : string;
  j_age_group : option string;
  j_content_type : string;
  j_duration_category : string;
  j_strata : string
}.

Record json_entry : Type := {
  j_id : string;
  j_url : string;
  j_duration : float;
  j_metadata : json_metadata;
  j_transcript : value
}.

Record mapping_row : Type := {
  mp_index : nat;
  mp_file_name : string;
  mp_original_id : string;
  mp_strata : string;
  mp_audio_duration : float
}.

(** ** Configuration *)

Definition SEGMENTS_PER_STRATUM : nat := 130.
Definition MIN_SEGMENT_DURATION : float := Finite (1 # 2).
Definition MAX_SEGMENT_DURATION : float := Finite (30 # 1).
Definition RANDOM_SEED : Z := 42.
Definition GROUP_ID : Z := 33.
Definition STATE : string := "transcribing".
Definition BASE_ID : Z := 2159570.

(** ** Duration filter *)

(** [astype(float)] on one cell: a number is kept, a missing value is NaN,
    and a [str] goes through [float]. *)
Definition to_float (c : cell) : result float :=
  match c with
  | Number x => Ok x
  | Missing => Ok NaN
  | Text s => PyStr.float s
  end.

(** The row [s] with its duration replaced by [d]. *)
Definition with_duration {D E : Type} (s : segment D) (d : E) : segment E :=
  {| file_name := file_name s;
     url := url s;
     audio_duration := d;
     inference_transcript := inference_transcript s |}.

Definition astype_float (r : nat * segment cell) : result (nat * segment float) :=
  d <- to_float (audio_duration (snd r)) ;;
  Ok (fst r, with_duration (snd r) d).

Definition in_duration_range (d : float) : bool :=
  float_ge d MIN_SEGMENT_DURATION && float_le d MAX_SEGMENT_DURATION.

Definition duration_filter (segments_df : frame (segment cell))
  : result (frame (segment float)) :=
  converted <- mapM astype_float segments_df ;;
  Ok (filter (fun r => in_duration_range (audio_duration (snd r))) converted).

(** ** Catalog enrichment and the stratum key *)

(** [str(x)] of an [AGE] cell inside the f-string. *)
Definition str_of_cell (c : option string) : string :=
  match c with
  | Some s => s
  | None => "nan"
  end.

Definition strata_key (age : option string) (dc ct : string) : string :=
  str_of_cell age ++ "__" ++ dc ++ "__" ++ ct.

(** A catalog row with its derived columns, from the parsed seconds and the
    content type. *)
Definition derived_row (e : catalog_entry) (secs : Z) (ct : string) : catalog_row :=
  let dc := duration_category secs in
  {| entry := e;
     split_duration_seconds := secs;
     c_duration_category := dc;
     c_content_type := ct;
     c_strata := strata_key (AGE e) dc ct |}.

(** The derived columns of one catalog row. *)
Definition enrich (e : catalog_entry) : result catalog_row :=
  secs <- parse_duration (Original_Full_Audio_Duration e) ;;
  ct <- str_method extract_content_type (Filename e) ;;
  Ok (derived_row e secs ct).

(** The derived columns of the catalog.  Each column is computed for the
    whole table before the next one: every duration is parsed before the
    first content type is derived. *)
Definition enrich_catalog (catalog : list catalog_entry) : result (list catalog_row) :=
  seconds <-
    mapM (fun e => parse_duration (Original_Full_Audio_Duration e)) catalog ;;
  types <- mapM (fun e => str_method extract_content_type (Filename e)) catalog ;;
  Ok (map (fun r => derived_row (fst r) (fst (snd r)) (snd (snd r)))
        (combine catalog (combine seconds types))).

Definition id_to_strata_of (catalog_df : list catalog_row) : dict string :=
  dict_of (combine (map (fun c => ID (entry c)) catalog_df) (map c_strata catalog_df)).

Definition metadata_of (c : catalog_row) : metadata :=
  {| m_AGE := AGE (entry c);
     m_duration_category := c_duration_category c;
     m_content_type := c_content_type c |}.

(** [set_index('ID')[...].to_dict('index')] refuses an index with
    duplicates. *)
Definition id_to_metadata_of (catalog_df : list catalog_row) : result (dict metadata) :=
  if is_unique (map (fun c => ID (entry c)) catalog_df)
  then Ok (dict_of (map (fun c => (ID (entry c), metadata_of c)) catalog_df))
  else Raise ValueError.

(** ** Segment-to-stratum join *)

(** The [original_id] and [strata] columns, then [dropna(subset=['strata'])]. *)
Definition join_row (id_to_strata : dict string) (r : nat * segment float)
  : option valid_segment :=
  let oid := extract_original_id (file_name (snd r)) in
  match dict_get oid id_to_strata with
  | Some s => Some {| v_index := fst r; v_segment := snd r;
                      original_id := oid; strata := s |}
  | None => None
  end.

Fixpoint dropna {A : Type} (l : list (option A)) : list A :=
  match l with
  | [] => []
  | Some a :: t => a :: dropna t
  | None :: t => dropna t
  end.

Definition join (id_to_strata : dict string) (valid_segments : frame (segment float))
  : list valid_segment :=
  dropna (map (join_row id_to_strata) valid_segments).

(** ** The random generator *)

(** numpy's [RandomState]: [seed s] is the state that [np.random.seed(s)]
    installs, and [random_interval g max] draws an integer of [[0, max]]. *)
Class RandomState : Type := {
  rng : Type;
  seed : Z -> rng;
  random_interval : rng -> nat -> nat * rng;
  random_interval_le : forall g max, (fst (random_interval g max) <= max)%nat
}.

Fixpoint set_nth {A : Type} (i : nat) (v : A) (l : list A) : list A :=
  match l, i with
  | [], _ => []
  | _ :: t, O => v :: t
  | x :: t, S i' => x :: set_nth i' v t
  end.

(** [x[i], x[j] = x[j], x[i]]; the sampler only swaps positions of [x]. *)
Definition swap {A : Type} (i j : nat) (x : list A) : list A :=
  match nth_error x i, nth_error x j with
  | Some xi, Some xj => set_nth j xi (set_nth i xj x)
  | _, _ => x
  end.

(** [df.take(positions)] *)
Definition take_rows {R : Type} (positions : list nat) (df : list R) : list R :=
  dropna (map (nth_error df) positions).

Section Sampling.
Context {RS : RandomState}.

(** [for i in reversed(range(1, n)): j = random_interval(i); swap] *)
Fixpoint shuffle_from (i : nat) (x : list nat) (g : rng) : list nat * rng :=
  match i with
  | O => (x, g)
  | S i' =>
      let '(j, g') := random_interval g i in
      shuffle_from i' (swap i j x) g'
  end.

Definition shuffle (x : list nat) (g : rng) : list nat * rng :=
  shuffle_from (length x - 1) x g.

(** [permutation(n)]: a shuffled [arange(n)]. *)
Definition permutation (n : nat) (g : rng) : list nat * rng :=
  shuffle (seq 0 n) g.

(** [choice(n, size, replace=False)] *)
Definition choice (n size : nat) (g : rng) : list nat * rng :=
  let '(p, g') := permutation n g in (firstn size p, g').

(** [df.sample(n)] *)
Definition sample {R : Type} (n : nat) (df : list R) (g : rng) : list R * rng :=
  let '(positions, g') := choice (length df) n g in
  (take_rows positions df, g').

(** [valid_segments[valid_segments['strata'] == stratum]] *)
Definition stratum_rows (stratum : string) (valid_segments : list valid_segment)
  : list valid_segment :=
  filter (fun r => String.eqb (strata r) stratum) valid_segments.

(** The body of the sampling loop for one stratum. *)
Definition select_stratum (T : nat) (stratum_segments : list valid_segment) (g : rng)
  : list valid_segment * rng :=
  let target_count := Nat.min T (length stratum_segments) in
  if (length stratum_segments <=? target_count)%nat
  then (stratum_segments, g)
  else sample target_count stratum_segments g.

(** [for stratum, count in strata_counts.items(): ...], building
    [benchmark_segments]. *)
Fixpoint sampling_loop (T : nat) (items : dict nat)
  (valid_segments : list valid_segment) (g : rng)
  : list (list valid_segment) * rng :=
  match items with
  | [] => ([], g)
  | (stratum, _) :: rest =>
      let '(selected, g1) :=
        select_stratum T (stratum_rows stratum valid_segments) g in
      let '(more, g2) := sampling_loop T rest valid_segments g1 in
      (selected :: more, g2)
  end.

(** The sampler for a seed [s]: [np.random.seed(s)] replaces the global
    generator state [g0], then the loop runs over the strata. *)
Definition stratified_sample_seeded (s : Z) (T : nat)
  (valid_segments : list valid_segment) (g0 : rng)
  : list (list valid_segment) * rng :=
  let strata_counts := Counter (map strata valid_segments) in
  let g := seed s in
  sampling_loop T strata_counts valid_segments g.

(** The sampler as [main] runs it, with [np.random.seed(RANDOM_SEED)]. *)
Definition stratified_sample (T : nat) (valid_segments : list valid_segment) (g0 : rng)
  : list (list valid_segment) * rng :=
  stratified_sample_seeded RANDOM_SEED T valid_segments g0.

End Sampling.

(** [pd.concat(frames)] refuses an empty list of frames. *)
Definition pd_concat {R : Type} (frames : list (list R)) : result (list R) :=
  match frames with
  | [] => Raise ValueError
  | _ => Ok (concat frames)
  end.

(** ** Output assembly *)

(** [id_to_metadata.get(x, {}).get(field, 'Unknown')] *)
Definition get_label {A : Type} (id_to_metadata : dict metadata) (x : string)
  (field : metadata -> A) (unknown : A) : A :=
  match dict_get x id_to_metadata with
  | Some m => field m
  | None => unknown
  end.

Definition add_metadata (id_to_metadata : dict metadata) (r : valid_segment)
  : benchmark_row :=
  {| b_valid := r;
     age_group := get_label id_to_metadata (original_id r) m_AGE (Some "Unknown");
     b_duration_category :=
       get_label id_to_metadata (original_id r) m_duration_category "Unknown";
     b_content_type :=
       get_label id_to_metadata (original_id r) m_content_type "Unknown" |}.

Definition value_of_cell (c : option string) : value :=
  match c with
  | Some s => VStr s
  | None => VFloat NaN
  end.

(** The columns of one row of [benchmark_df], as [formatted_df] copies them. *)
Definition columns_of (has_transcript : bool) (b : benchmark_row) : dict value :=
  let s := v_segment (b_valid b) in
  ([("file_name", VStr (file_name s)); ("url", VStr (url s))]
   ++ (if has_transcript
       then [("inference_transcript", value_of_cell (inference_transcript s))]
       else [])
   ++ [("audio_duration", VFloat (audio_duration s));
       ("original_id", VStr (original_id (b_valid b)));
       ("strata", VStr (strata (b_valid b)));
       ("age_group", value_of_cell (age_group b));
       ("duration_category", VStr (b_duration_category b));
       ("content_type", VStr (b_content_type b))])%list.

(** [df[c] = v] *)
Definition add_column (c : string) (v : value) (df : list (dict value))
  : list (dict value) :=
  map (dict_set c v) df.

(** [df[c] = values], row by row. *)
Definition add_column_values (c : string) (values : list value) (df : list (dict value))
  : list (dict value) :=
  map (fun rv => dict_set c (snd rv) (fst rv)) (combine df values).

(** [range(start, start + n)] *)
Definition range_from (start : Z) (n : nat) : list Z :=
  map (fun i => start + Z.of_nat i) (seq 0 n).

Definition columns_order : list string :=
  ["file_name"; "url"; "inference_transcript"; "audio_duration";
   "group_id"; "state"; "id"].

(** [row[cols]]: a column that is not there is a [KeyError]. *)
Definition select_columns (cols : list string) (row : dict value) : result (dict value) :=
  mapM (fun c => match dict_get c row with
                 | Some v => Ok (c, v)
                 | None => Raise KeyError
                 end) cols.

Definition format_for_upload (has_transcript : bool) (benchmark_df : list benchmark_row)
  : result (list (dict value)) :=
  let formatted_df := map (columns_of has_transcript) benchmark_df in
  let formatted_df := add_column "group_id" (VInt GROUP_ID) formatted_df in
  let formatted_df := add_column "state" (VStr STATE) formatted_df in
  let formatted_df :=
    add_column_values "id"
      (map VInt (range_from BASE_ID (length formatted_df))) formatted_df in
  let formatted_df :=
    if negb has_transcript
    then add_column "inference_transcript" (VStr "") formatted_df
    else formatted_df in
  mapM (select_columns columns_order) formatted_df.

Definition mapping_of (r : valid_segment) : mapping_row :=
  {| mp_index := v_index r;
     mp_file_name := file_name (v_segment r);
     mp_original_id := original_id r;
     mp_strata := strata r;
     mp_audio_duration := audio_duration (v_segment r) |}.

Definition json_of (has_transcript : bool) (row : benchmark_row) : json_entry :=
  let s := v_segment (b_valid row) in
  {| j_id := file_name s;
     j_url := url s;
     j_duration := audio_duration s;
     j_metadata :=
       {| j_original_file_id := original_id (b_valid row);
          j_age_group := age_group row;
          j_content_type := b_content_type row;
          j_duration_category := b_duration_category row;
          j_strata := strata (b_valid row) |};
     j_transcript :=
       if has_transcript then value_of_cell (inference_transcript s) else VStr "" |}.

Record outputs : Type := {
  benchmark_df : list benchmark_row;
  formatted_output : list (dict value);
  strata_mapping_df : list mapping_row;
  full_audio_strata_df : list catalog_row;
  benchmark_json : list json_entry
}.

Section Main.
Context {RS : RandomState}.

(** [main], from the two tables and the state [g0] of the global generator
    on entry, to the tables and the list it saves. *)
Definition main (catalog : list catalog_entry) (segments : segments_csv) (g0 : rng)
  : result outputs :=
  let catalog_df := map snd (read_csv read_entry catalog) in
  let segments_df := read_csv read_segment (segment_rows segments) in
  in_range <- duration_filter segments_df ;;
  catalog_df <- enrich_catalog catalog_df ;;
  let id_to_strata := id_to_strata_of catalog_df in
  id_to_metadata <- id_to_metadata_of catalog_df ;;
  let valid_segments := join id_to_strata in_range in
  let benchmark_segments :=
    fst (stratified_sample SEGMENTS_PER_STRATUM valid_segments g0) in
  selected <- pd_concat benchmark_segments ;;
  let benchmark_df := map (add_metadata id_to_metadata) selected in
  formatted <- format_for_upload (has_inference_transcript segments) benchmark_df ;;
  Ok {| benchmark_df := benchmark_df;
        formatted_output := formatted;
        strata_mapping_df := map mapping_of valid_segments;
        full_audio_strata_df := catalog_df;
        benchmark_json :=
          map (json_of (has_inference_transcript segments)) benchmark_df |}.

End Main.

(** ** A concrete generator, for running the sampler *)

Definition lcg_step (g : Z) : Z := (g * 1103515245 + 12345) mod 2147483648.

Definition lcg_interval (g : Z) (max : nat) : nat * Z :=
  (Z.to_nat (g mod Z.of_nat (S max)), lcg_step g).

#[export] Instance lcg : RandomState := {|
  rng := Z;
  seed := fun s => lcg_step s;
  random_interval := lcg_interval;
  random_interval_le := fun g max =>
    ltac:(unfold lcg_interval; simpl fst;
          pose proof (Z.mod_pos_bound g (Z.of_nat (S max)) ltac:(lia)); lia)
|}.

(** ** Specification-side notions for strings *)

(** [kw] occurs in [name] up to letter case. *)
Definition occurs_ci (kw name : string) : Prop :=
  exists pre mid post, name = pre ++ mid ++ post /\ PyStr.lower mid = kw.


(** The number that a string of decimal digits denotes. *)
Fixpoint decimal_from (acc : Z) (s : string) : Z :=
  match s with
  | EmptyString => acc
  | String c t => decimal_from (10 * acc + PyStr.digit_val c) t
  end.


(** [s] is made of decimal digits, of any script. *)
Definition decimal_digits (s : string) : bool :=
  forallb PyStr.is_decimal (PyStr.chars s).

(** The shape of a file name that the pattern matches. *)
Definition segment_id_shape (s ds rest : string) : Prop :=
  decimal_digits ds = true /\ ds <> "" /\ s = "STT_GR_" ++ ds ++ "_" ++ rest.

(** *** Integer literals *)

(** A character that [int] skips around a literal. *)
Definition literal_space (ch : string) : bool :=
  match PyStr.code_point ch with
  | Some cp =>
      ((9 <=? cp)%N && (cp <=? 13)%N) || (cp =? 32)%N
      || ((127 <=? cp)%N && PyStr.is_unicode_space cp)
  | None => false
  end.

(** A string of such characters. *)
Inductive whitespace : string -> Prop :=
| whitespace_nil : whitespace ""
| whitespace_cons (ch w : string) :
    literal_space ch = true -> whitespace w -> whitespace (ch ++ w).

(** The digits of an integer literal and the number they denote: one digit
    or more, where one underscore may stand before each digit but the
    first. *)
Inductive literal_digits : string -> Z -> Prop :=
| literal_digit (d : string) (v : Z) :
    PyStr.decimal_value d = Some v -> literal_digits d v
| literal_more (b d : string) (n v : Z) :
    literal_digits b n -> PyStr.decimal_value d = Some v ->
    literal_digits (b ++ d) (10 * n + v)
| literal_underscore (b d : string) (n v : Z) :
    literal_digits b n -> PyStr.decimal_value d = Some v ->
    literal_digits (b ++ "_" ++ d) (10 * n + v).

(** [s] is an integer literal that denotes [n]: whitespace, an optional
    sign, the digits, whitespace. *)
Definition integer_literal (s : string) (n : Z) : Prop :=
  exists w1 sign body w2 m,
    s = w1 ++ sign ++ body ++ w2
    /\ whitespace w1 /\ whitespace w2
    /\ literal_digits body m
    /\ ((sign = "" /\ n = m) \/ (sign = "+" /\ n = m) \/ (sign = "-" /\ n = - m)).

(** The float of a cell that converts. *)
Definition cell_float (c : cell) : float :=
  match to_float c with
  | Ok x => x
  | Raise _ => NaN
  end.

(** A dictionary filled by a loop of assignments [d[key x] = val d x]. *)
Definition fill {V X : Type} (key : X -> string) (val : dict V -> X -> V)
  (l : list X) (d : dict V) : dict V :=
  fold_left (fun d x => dict_set (key x) (val d x) d) l d.

(** What one stratum contributes. *)
Definition contribution (T : nat) (group selected : list valid_segment) : Prop :=
  ((length group <= T)%nat -> selected = group)
  /\ ((T < length group)%nat ->
      length selected = T
      /\ exists others, Permutation group (selected ++ others)%list).

(** The row of the ingestion table for [b] with identifier [id]. *)
Definition upload_row (has_transcript : bool) (b : benchmark_row) (id : Z) : dict value :=
  let s := v_segment (b_valid b) in
  [("file_name", VStr (file_name s));
   ("url", VStr (url s));
   ("inference_transcript",
     if has_transcript then value_of_cell (inference_transcript s) else VStr "");
   ("audio_duration", VFloat (audio_duration s));
   ("group_id", VInt 33);
   ("state", VStr "transcribing");
   ("id", VInt id)].

Definition catalog_ids (catalog_df : list catalog_row) : list string :=
  map (fun c => ID (entry c)) catalog_df.

(** ** Example inputs *)

Definition example_catalog : list catalog_entry :=
  [{| ID := "STT_GR_0001"; Filename := Text "QA with students";
      Original_Full_Audio_Duration := Text "00:06:00"; AGE := Some "Adult" |};
   {| ID := "STT_GR_0002"; Filename := Text "Evening prayer";
      Original_Full_Audio_Duration := Missing; AGE := None |};
   {| ID := "STT_GR_0003"; Filename := Text "Mind training";
      Original_Full_Audio_Duration := Text "00:20:00"; AGE := Some "Unknown" |}].

Definition example_row (name : string) (d : cell) : segment cell :=
  {| file_name := name; url := "https://example.org/" ++ name;
     audio_duration := d; inference_transcript := None |}.

Definition example_rows : list (segment cell) :=
  [example_row "STT_GR_0001_0003_22300_to_27800" (Number (Finite (11 # 2)));
   example_row "STT_GR_0002_0001_0_to_500" (Number (Finite (1 # 2)));
   example_row "intro.wav" (Number (Finite (3 # 1)));
   example_row "STT_GR_0003_0001_0_to_30000" (Number (Finite (30 # 1)));
   example_row "STT_GR_0001_0004_0_to_100" Missing].

Definition example_segments : segments_csv :=
  {| has_inference_transcript := false; segment_rows := example_rows |}.

Definition no_outputs : outputs :=
  {| benchmark_df := []; formatted_output := []; strata_mapping_df := [];
     full_audio_strata_df := []; benchmark_json := [] |}.

(** What [main] saves on the example tables. *)
Definition example_out : outputs :=
  Eval vm_compute in
    match @main lcg example_catalog example_segments 0 with
    | Ok out => out
    | Raise _ => no_outputs
    end.

(** The same rows in a table that has the transcript column, every cell of it
    empty. *)
Definition example_segments_with_column : segments_csv :=
  {| has_inference_transcript := true; segment_rows := example_rows |}.

Definition example_out_with_column : outputs :=
  Eval vm_compute in
    match @main lcg example_catalog example_segments_with_column 0 with
    | Ok out => out
    | Raise _ => no_outputs
    end.

Definition example_valid_row (i : nat) (stratum : string) : valid_segment :=
  {| v_index := i;
     v_segment := {| file_name := "STT_GR_0001_0001"; url := "";
                     audio_duration := Finite (1 # 1);
                     inference_transcript := None |};
     original_id := "STT_GR_0001";
     strata := stratum |}.

Definition example_valid : list valid_segment :=
  [example_valid_row 0 "Adult__short__Teaching";
   example_valid_row 1 "Adult__short__Teaching";
   example_valid_row 2 "Adult__long__Q&A"].

(** ** Notions for the proofs *)

Fixpoint all_continuation (s : string) : bool :=
  match s with
  | EmptyString => true
  | String b t => PyStr.is_continuation b && all_continuation t
  end.

Fixpoint all_space (s : string) : bool :=
  match s with
  | EmptyString => true
  | String c t => PyStr.is_space c && all_space t
  end.


(** What [int] and [float] make of a list of characters. *)
Definition img (cs : list string) : string :=
  string_of_list_ascii (map PyStr.ascii_of_char cs).

(** ** Notions for the further properties *)

(** [a] is a suffix of [b]. *)
Definition is_suffix (a b : string) : bool :=
  (String.length a <=? String.length b)%nat
  && String.eqb (PyStr.drop (String.length b - String.length a) b) a.

(** No string of [cands] is a proper suffix of another one. *)
Definition suffix_free (cands : list string) : bool :=
  forallb (fun a => forallb (fun b => String.eqb a b || negb (is_suffix a b)) cands)
    cands.

(** The columns of a segment that the selection reads. *)
Definition selection_columns {D : Type} (s : segment D) : string * D :=
  (file_name s, audio_duration s).

(** * Properties *)

Unset Implicit Arguments.

Example parse_duration_ex : parse_duration (Text "00:06:00") = Ok 360.
Proof. reflexivity. Qed.

Example duration_category_ex : duration_category 360 = "medium".
Proof. reflexivity. Qed.

Example extract_original_id_ex :
  extract_original_id "STT_GR_0001_0003_22300_to_27800" = "STT_GR_0001".
Proof. reflexivity. Qed.

(** ** Facts about strings *)

Lemma append_nil_r (s : string) : s ++ "" = s.
Proof. induction s as [|c s IH]; simpl; [reflexivity | now rewrite IH]. Qed.

Lemma append_assoc (a b c : string) : (a ++ b) ++ c = a ++ b ++ c.
Proof. induction a as [|x a IH]; simpl; [reflexivity | now rewrite IH]. Qed.

Lemma prefix_append (p t : string) : prefix p (p ++ t) = true.
Proof.
  induction p as [|c p IH]; simpl.
  - now destruct t.
  - destruct (ascii_dec c c) as [_|n]; [exact IH | now elim n].
Qed.

Lemma prefix_inv (p s : string) : prefix p s = true -> exists t, s = p ++ t.
Proof.
  revert s; induction p as [|c p IH]; intros s H.
  - now exists s.
  - destruct s as [|d s]; simpl in H; [discriminate|].
    destruct (ascii_dec c d) as [->|]; [|discriminate].
    destruct (IH _ H) as [t ->]. now exists t.
Qed.

Lemma contains_cons (needle : string) (c : ascii) (hay : string) :
  PyStr.contains needle (String c hay)
  = prefix needle (String c hay) || PyStr.contains needle hay.
Proof. reflexivity. Qed.

Lemma contains_iff (needle hay : string) :
  PyStr.contains needle hay = true <-> exists pre post, hay = pre ++ needle ++ post.
Proof.
  split.
  - induction hay as [|c hay IH]; intros H.
    + destruct needle; [now exists "", "" | discriminate].
    + rewrite contains_cons in H. apply orb_true_iff in H. destruct H as [H|H].
      * destruct (prefix_inv _ _ H) as [t ->]. now exists "", t.
      * destruct (IH H) as (pre & post & ->). now exists (String c pre), post.
  - intros (pre & post & ->). induction pre as [|c pre IH].
    + change ("" ++ needle ++ post) with (needle ++ post).
      destruct (needle ++ post) as [|d r] eqn:E.
      * destruct needle; [reflexivity | discriminate].
      * rewrite contains_cons, <- E, prefix_append. reflexivity.
    + change (String c pre ++ needle ++ post) with (String c (pre ++ needle ++ post)).
      rewrite contains_cons, IH. apply orb_true_r.
Qed.

Lemma lower_append (a b : string) :
  PyStr.lower (a ++ b) = PyStr.lower a ++ PyStr.lower b.
Proof. induction a as [|c a IH]; simpl; [reflexivity | now rewrite IH]. Qed.

Lemma lower_split (s a b : string) :
  PyStr.lower s = a ++ b ->
  exists sa sb, s = sa ++ sb /\ PyStr.lower sa = a /\ PyStr.lower sb = b.
Proof.
  revert s; induction a as [|c a IH]; intros s H.
  - exists "", s. auto.
  - destruct s as [|d s]; simpl in H; [discriminate|].
    injection H as Hc Hs. destruct (IH _ Hs) as (sa & sb & -> & Ha & Hb).
    exists (String d sa), sb. simpl. now rewrite Ha, Hc.
Qed.

(** The test [kw in name.lower()] is the case-insensitive occurrence. *)
Lemma contains_lower_iff (kw name : string) :
  PyStr.contains kw (PyStr.lower name) = true <-> occurs_ci kw name.
Proof.
  rewrite contains_iff. split.
  - intros (pre & post & H).
    destruct (lower_split _ _ _ H) as (sa & sb & -> & _ & Hb).
    destruct (lower_split _ _ _ Hb) as (sm & sp & -> & Hm & _).
    now exists sa, sm, sp.
  - intros (pre & mid & post & -> & <-).
    exists (PyStr.lower pre), (PyStr.lower post).
    now rewrite !lower_append.
Qed.

Lemma contains_lower_false (kw name : string) :
  ~ occurs_ci kw name -> PyStr.contains kw (PyStr.lower name) = false.
Proof.
  intros H. destruct (PyStr.contains kw (PyStr.lower name)) eqn:E; [|reflexivity].
  now apply contains_lower_iff in E.
Qed.

Lemma not_occurs_ci (kw name : string) :
  PyStr.contains kw (PyStr.lower name) = false -> ~ occurs_ci kw name.
Proof.
  intros H Ho. apply contains_lower_iff in Ho. congruence.
Qed.

(** C6: the content type of a display name follows a case-insensitive
    substring match in fixed priority order.  A name in which "qa" occurs is
    "Q&A"; otherwise one in which "practice" occurs is "Practice"; otherwise
    one in which "dedication" or "prayer" occurs is "Prayer"; otherwise the
    name is "Teaching".  The first rule that matches wins. *)
Theorem extract_content_type_priority (name : string) :
  (occurs_ci "qa" name -> extract_content_type name = "Q&A")
  /\ (~ occurs_ci "qa" name -> occurs_ci "practice" name ->
      extract_content_type name = "Practice")
  /\ (~ occurs_ci "qa" name -> ~ occurs_ci "practice" name ->
      occurs_ci "dedication" name \/ occurs_ci "prayer" name ->
      extract_content_type name = "Prayer")
  /\ (~ occurs_ci "qa" name -> ~ occurs_ci "practice" name ->
      ~ occurs_ci "dedication" name -> ~ occurs_ci "prayer" name ->
      extract_content_type name = "Teaching").
Proof.
  unfold extract_content_type.
  repeat split.
  - intros H. apply contains_lower_iff in H. now rewrite H.
  - intros Hq Hp. apply contains_lower_false in Hq. apply contains_lower_iff in Hp.
    now rewrite Hq, Hp.
  - intros Hq Hp Hd. apply contains_lower_false in Hq, Hp. rewrite Hq, Hp.
    destruct Hd as [Hd|Hd]; apply contains_lower_iff in Hd; rewrite Hd;
      [reflexivity | now rewrite orb_true_r].
  - intros Hq Hp Hd Hy. apply contains_lower_false in Hq, Hp, Hd, Hy.
    now rewrite Hq, Hp, Hd, Hy.
Qed.

Lemma extract_content_type_priority_witness :
  extract_content_type "QA practice and prayer" = "Q&A"
  /\ extract_content_type "Daily Practice, Dedication" = "Practice"
  /\ extract_content_type "Long Life PRAYER" = "Prayer"
  /\ extract_content_type "Q&A Session 1" = "Teaching".
Proof.
  split; [|split; [|split]].
  - apply (proj1 (extract_content_type_priority "QA practice and prayer")).
    exists "", "QA", " practice and prayer". split; reflexivity.
  - apply (proj1 (proj2 (extract_content_type_priority "Daily Practice, Dedication"))).
    + apply not_occurs_ci. reflexivity.
    + exists "Daily ", "Practice", ", Dedication". split; reflexivity.
  - apply (proj1 (proj2 (proj2 (extract_content_type_priority "Long Life PRAYER")))).
    + apply not_occurs_ci. reflexivity.
    + apply not_occurs_ci. reflexivity.
    + right. exists "Long Life ", "PRAYER", "". split; reflexivity.
  - apply (proj2 (proj2 (proj2 (extract_content_type_priority "Q&A Session 1"))));
      apply not_occurs_ci; reflexivity.
Defined.

(** ** Characters *)

Lemma str_join_app (l1 l2 : list string) :
  PyStr.join (l1 ++ l2) = PyStr.join l1 ++ PyStr.join l2.
Proof.
  induction l1 as [|x l1 IH]; simpl; [reflexivity|].
  now rewrite IH, append_assoc.
Qed.

Lemma chars_nonempty (a : ascii) (t : string) : PyStr.chars (String a t) <> [].
Proof.
  cbn [PyStr.chars]. destruct (PyStr.chars t) as [|ch rest]; [discriminate|].
  destruct (PyStr.starts_with_continuation t); discriminate.
Qed.

Lemma chars_head (a : ascii) (t : string) :
  exists t' l, PyStr.chars (String a t) = String a t' :: l.
Proof.
  cbn [PyStr.chars]. destruct (PyStr.chars t) as [|ch rest].
  - now exists "", [].
  - destruct (PyStr.starts_with_continuation t).
    + now exists ch, rest.
    + now exists "", (ch :: rest).
Qed.

Lemma join_chars (s : string) : PyStr.join (PyStr.chars s) = s.
Proof.
  induction s as [|a t IH]; [reflexivity|].
  cbn [PyStr.chars]. destruct (PyStr.chars t) as [|ch rest].
  - simpl in IH. now subst t.
  - destruct (PyStr.starts_with_continuation t); simpl in *; now rewrite IH.
Qed.

Lemma starts_with_continuation_app (x y : string) :
  x <> "" ->
  PyStr.starts_with_continuation (x ++ y) = PyStr.starts_with_continuation x.
Proof. destruct x as [|a x]; [intros H; now elim H | reflexivity]. Qed.

(** Characters do not straddle a point where a character starts. *)
Lemma chars_app (x y : string) :
  PyStr.starts_with_continuation y = false ->
  PyStr.chars (x ++ y) = (PyStr.chars x ++ PyStr.chars y)%list.
Proof.
  intros Hy. induction x as [|a x IH]; [reflexivity|].
  change (String a x ++ y) with (String a (x ++ y)).
  cbn [PyStr.chars]. rewrite IH. destruct x as [|b x].
  - change ("" ++ y) with y. rewrite Hy. cbn [PyStr.chars app].
    now destruct (PyStr.chars y).
  - rewrite starts_with_continuation_app by discriminate.
    pose proof (chars_nonempty b x) as Hne.
    destruct (PyStr.chars (String b x)) as [|ch rest]; [now elim Hne|].
    cbn [app]. now destruct (PyStr.starts_with_continuation (String b x)).
Qed.

(** A byte with continuation bytes after it is one character. *)
Lemma chars_char (a : ascii) (t y : string) :
  all_continuation t = true -> PyStr.starts_with_continuation y = false ->
  PyStr.chars (String a t ++ y) = String a t :: PyStr.chars y.
Proof.
  intros Ht Hy. revert a. induction t as [|b t IH]; intros a.
  - change (String a "" ++ y) with (String a y). cbn [PyStr.chars].
    rewrite Hy. now destruct (PyStr.chars y).
  - simpl in Ht. apply andb_true_iff in Ht. destruct Ht as [Hb Ht].
    change (String a (String b t) ++ y) with (String a (String b t ++ y)).
    cbn [PyStr.chars]. fold (PyStr.chars (String b t ++ y)).
    rewrite (IH Ht b).
    change (String b t ++ y) with (String b (t ++ y)).
    cbn [PyStr.starts_with_continuation]. now rewrite Hb.
Qed.

Lemma continuation_all (t : string) (acc r : N) :
  PyStr.continuation acc t = Some r -> all_continuation t = true.
Proof.
  revert acc. induction t as [|b t IH]; intros acc H; [reflexivity|].
  simpl in *. destruct (PyStr.is_continuation b); [|discriminate].
  exact (IH _ H).
Qed.

(** The bytes of a code point: one ASCII byte, or a leading byte and
    continuation bytes. *)
Lemma code_point_cases (ch : string) (cp : N) :
  PyStr.code_point ch = Some cp ->
  (ch = String (ascii_of_N cp) "" /\ (cp < 128)%N)
  \/ ((128 <= cp)%N
      /\ exists a t, ch = String a t /\ (192 <= PyStr.code a)%nat
                     /\ all_continuation t = true).
Proof.
  destruct ch as [|a t]; [discriminate|]. intros H.
  unfold PyStr.code_point in H.
  assert (forall lo hi c r,
            match PyStr.continuation c t with
            | Some cp => if (lo <=? cp)%N && (cp <=? hi)%N then Some cp else None
            | None => None
            end = Some r -> all_continuation t = true /\ (lo <= r)%N) as Hw.
  { intros lo hi c r Hr.
    destruct (PyStr.continuation c t) as [x|] eqn:E; [|discriminate].
    split; [exact (continuation_all _ _ _ E)|].
    destruct (N.leb_spec lo x); [|discriminate].
    destruct (x <=? hi)%N; [|discriminate]. now injection Hr as <-. }
  destruct (N.ltb_spec (N.of_nat (PyStr.code a)) 128) as [H1|H1].
  { left. destruct (Nat.eqb_spec (String.length t) 0) as [E|E]; [|discriminate].
    destruct t; [|discriminate]. injection H as <-.
    split; [|exact H1]. f_equal. unfold PyStr.code, nat_of_ascii.
    rewrite N2Nat.id. symmetry. apply ascii_N_embedding. }
  destruct (N.ltb_spec (N.of_nat (PyStr.code a)) 192) as [H2|H2]; [discriminate|].
  right.
  assert (all_continuation t = true /\ (128 <= cp)%N) as [Ht Hcp].
  { destruct (N.ltb_spec (N.of_nat (PyStr.code a)) 224) as [H3|H3].
    { destruct (String.length t =? 1)%nat; [|discriminate]. eapply Hw, H. }
    destruct (N.ltb_spec (N.of_nat (PyStr.code a)) 240) as [H4|H4].
    { destruct (String.length t =? 2)%nat; [|discriminate].
      destruct (match PyStr.continuation (N.of_nat (PyStr.code a) - 224) t with
                | Some cp => if (2048 <=? cp)%N && (cp <=? 65535)%N then Some cp else None
                | None => None
                end) as [x|] eqn:E; [|discriminate].
      destruct (Hw _ _ _ _ E) as [Ht Hx]. split; [exact Ht|].
      destruct ((55296 <=? x)%N && (x <=? 57343)%N); [discriminate|].
      injection H as <-. lia. }
    destruct (N.ltb_spec (N.of_nat (PyStr.code a)) 248) as [H5|H5]; [|discriminate].
    destruct (String.length t =? 3)%nat; [|discriminate].
    destruct (Hw _ _ _ _ H) as [Ht Hx]. split; [exact Ht | lia]. }
  split; [exact Hcp|]. exists a, t. split; [reflexivity|]. split; [lia | exact Ht].
Qed.

Lemma code_point_char (ch : string) (cp : N) :
  PyStr.code_point ch = Some cp ->
  exists a t, ch = String a t /\ PyStr.is_continuation a = false
              /\ all_continuation t = true.
Proof.
  intros H. destruct (code_point_cases _ _ H) as [[-> Hs]|[_ (a & t & -> & Ha & Ht)]].
  - exists (ascii_of_N cp), "". repeat split.
    unfold PyStr.is_continuation.
    assert (PyStr.code (ascii_of_N cp) = N.to_nat cp) as ->.
    { unfold PyStr.code, nat_of_ascii. rewrite N_ascii_embedding by lia. reflexivity. }
    destruct (Nat.leb_spec 128 (N.to_nat cp)); [lia | reflexivity].
  - exists a, t. repeat split; [|exact Ht]. unfold PyStr.is_continuation.
    destruct (Nat.leb_spec (PyStr.code a) 191); [lia|]. apply andb_false_r.
Qed.

Lemma decimal_char (ch : string) :
  PyStr.is_decimal ch = true ->
  exists a t, ch = String a t /\ PyStr.is_continuation a = false
              /\ all_continuation t = true.
Proof.
  unfold PyStr.is_decimal, PyStr.decimal_value. intros H.
  destruct (PyStr.code_point ch) as [cp|] eqn:E; [|discriminate].
  exact (code_point_char _ _ E).
Qed.

(** A character that starts with an ASCII byte is that byte. *)
Lemma code_point_ascii (a : ascii) (t : string) (cp : N) :
  (PyStr.code a < 128)%nat -> PyStr.code_point (String a t) = Some cp ->
  t = "" /\ cp = N.of_nat (PyStr.code a).
Proof.
  intros Ha. unfold PyStr.code_point.
  destruct (N.ltb_spec (N.of_nat (PyStr.code a)) 128) as [H1|H1]; [|lia].
  destruct t as [|b t]; [|discriminate]. intros H. now injection H as <-.
Qed.

Lemma underscore_not_decimal (t : string) : PyStr.is_decimal (String "_" t) = false.
Proof.
  unfold PyStr.is_decimal, PyStr.decimal_value.
  destruct (PyStr.code_point (String "_" t)) as [cp|] eqn:E; [|reflexivity].
  apply code_point_ascii in E; [|vm_compute; lia].
  destruct E as [_ ->]. reflexivity.
Qed.

Lemma prefix_head (a b : ascii) (p s : string) :
  a <> b -> prefix (String a p) (String b s) = false.
Proof.
  intros H. cbn [prefix]. destruct (ascii_dec a b); [contradiction | reflexivity].
Qed.

Lemma decimal_no_underscore (ch : string) :
  PyStr.is_decimal ch = true -> prefix "_" ch = false.
Proof.
  intros H. destruct ch as [|a t]; [reflexivity|].
  destruct (Ascii.eqb_spec "_"%char a) as [<-|Hne].
  - now rewrite underscore_not_decimal in H.
  - now apply prefix_head.
Qed.

Lemma join_decimal_start (l : list string) :
  forallb PyStr.is_decimal l = true ->
  PyStr.starts_with_continuation (PyStr.join l) = false
  /\ prefix "_" (PyStr.join l) = false.
Proof.
  destruct l as [|ch l]; [now split|]. simpl. intros H.
  apply andb_true_iff in H. destruct H as [Hc _].
  pose proof (decimal_no_underscore _ Hc) as Hu.
  destruct (decimal_char _ Hc) as (a & t & -> & Ha & _). split.
  - exact Ha.
  - change (String a t ++ fold_right append "" l)
      with (String a (t ++ fold_right append "" l)).
    destruct (Ascii.eqb_spec "_"%char a) as [<-|Hne].
    + now rewrite underscore_not_decimal in Hc.
    + now apply prefix_head.
Qed.

(** A list of decimal digits is the list of characters of its string. *)
Lemma chars_join_decimal (l : list string) :
  forallb PyStr.is_decimal l = true -> PyStr.chars (PyStr.join l) = l.
Proof.
  induction l as [|ch l IH]; [reflexivity|]. intros H.
  pose proof H as H'. simpl in H'. apply andb_true_iff in H'.
  destruct H' as [Hc Hl]. cbn [PyStr.join fold_right].
  fold (PyStr.join l).
  destruct (decimal_char _ Hc) as (a & t & -> & _ & Ht).
  rewrite chars_char; [now rewrite (IH Hl) | exact Ht |].
  exact (proj1 (join_decimal_start l Hl)).
Qed.

Lemma join_nonempty (l : list string) :
  forallb PyStr.is_decimal l = true -> l <> [] -> PyStr.join l <> "".
Proof.
  destruct l as [|ch l]; [intros _ H; now elim H|]. intros H _.
  simpl in H. apply andb_true_iff in H. destruct H as [Hc _].
  destruct (decimal_char _ Hc) as (a & t & -> & _). discriminate.
Qed.

(** ** Parent-id extraction *)

Lemma after_literal_inv (p s x : string) :
  PyStr.after_literal p s = Some x -> s = p ++ x.
Proof.
  revert s; induction p as [|a p IH]; intros s H; simpl in H.
  - now injection H as ->.
  - destruct s as [|b s]; [discriminate|].
    destruct (Ascii.eqb a b) eqn:E; [|discriminate].
    apply Ascii.eqb_eq in E. subst b. simpl. now rewrite (IH _ H).
Qed.

Lemma after_literal_append (p x : string) : PyStr.after_literal p (p ++ x) = Some x.
Proof.
  induction p as [|a p IH]; simpl; [reflexivity|].
  now rewrite Ascii.eqb_refl.
Qed.

Lemma span_digits_inv (cs ds rest : list string) :
  span_digits cs = (ds, rest) ->
  cs = (ds ++ rest)%list /\ forallb PyStr.is_decimal ds = true.
Proof.
  revert ds rest; induction cs as [|c cs IH]; intros ds rest H; simpl in H.
  - injection H as <- <-. auto.
  - destruct (PyStr.is_decimal c) eqn:E.
    + destruct (span_digits cs) as [ds' rest'].
      injection H as <- <-. destruct (IH _ _ eq_refl) as [-> Hd].
      cbn [forallb app]. now rewrite E, Hd.
    + injection H as <- <-. auto.
Qed.

Lemma span_digits_app (ds rest : list string) :
  forallb PyStr.is_decimal ds = true ->
  match rest with
  | [] => True
  | ch :: _ => PyStr.is_decimal ch = false
  end ->
  span_digits (ds ++ rest) = (ds, rest).
Proof.
  intros Hd Hr. induction ds as [|c ds IH]; cbn [span_digits app forallb] in *.
  - destruct rest as [|ch rest]; [reflexivity|].
    cbn [span_digits]. now rewrite Hr.
  - apply andb_true_iff in Hd. destruct Hd as [Hc Hd].
    now rewrite Hc, (IH Hd).
Qed.

Lemma forallb_firstn {A : Type} (p : A -> bool) (k : nat) (l : list A) :
  forallb p l = true -> forallb p (firstn k l) = true.
Proof.
  revert l; induction k as [|k IH]; intros [|x l] H; simpl in *; try reflexivity.
  apply andb_true_iff in H. destruct H as [Hx Hl]. now rewrite Hx, IH.
Qed.

Lemma forallb_skipn {A : Type} (p : A -> bool) (k : nat) (l : list A) :
  forallb p l = true -> forallb p (skipn k l) = true.
Proof.
  revert l; induction k as [|k IH]; intros [|x l] H; simpl in *; try reflexivity.
  - exact H.
  - apply andb_true_iff in H. destruct H as [_ Hl]. now apply IH.
Qed.

Lemma re_digits_underscore_inv (k : nat) (ds rest : list string) (g : string) :
  re_digits_underscore k ds rest = Some g ->
  exists k', (S k' <= k)%nat /\ g = PyStr.join (firstn (S k') ds)
             /\ prefix "_" (PyStr.join (skipn (S k') ds ++ rest)) = true.
Proof.
  induction k as [|k IH]; intros H.
  - discriminate.
  - cbn [re_digits_underscore] in H.
    destruct (prefix "_" (PyStr.join (skipn (S k) ds ++ rest))) eqn:E.
    + injection H as <-. exists k. auto.
    + destruct (IH H) as (k' & Hk & Hg). exists k'. split; [lia | exact Hg].
Qed.

Lemma re_match_original_id_inv (s g : string) :
  re_match_original_id s = Some g ->
  exists ds rest, segment_id_shape s ds rest /\ g = "STT_GR_" ++ ds.
Proof.
  unfold re_match_original_id. intros H.
  destruct (PyStr.after_literal "STT_GR_" s) as [x|] eqn:E1; [|discriminate].
  apply after_literal_inv in E1.
  destruct (span_digits (PyStr.chars x)) as [ds rest] eqn:E2.
  apply span_digits_inv in E2. destruct E2 as [Hx Hd].
  destruct (re_digits_underscore (length ds) ds rest) as [g'|] eqn:E3;
    [|discriminate].
  injection H as <-.
  destruct (re_digits_underscore_inv _ _ _ _ E3) as (k & Hk & -> & Hp).
  destruct (prefix_inv _ _ Hp) as [y Hy].
  pose proof (forallb_firstn _ (S k) _ Hd) as Hf.
  exists (PyStr.join (firstn (S k) ds)), y. split; [|reflexivity].
  repeat split.
  - unfold decimal_digits. now rewrite (chars_join_decimal _ Hf).
  - apply join_nonempty; [exact Hf|].
    destruct ds as [|c ds]; [simpl in Hk; lia | discriminate].
  - rewrite E1. f_equal. rewrite <- (join_chars x), Hx.
    rewrite <- (firstn_skipn (S k) ds) at 1.
    rewrite <- app_assoc, str_join_app, Hy. reflexivity.
Qed.

Lemma re_match_original_id_shape (s ds rest : string) :
  segment_id_shape s ds rest -> re_match_original_id s = Some ("STT_GR_" ++ ds).
Proof.
  intros (Hd & Hne & ->). unfold re_match_original_id, decimal_digits in *.
  rewrite after_literal_append.
  rewrite (chars_app ds ("_" ++ rest) eq_refl).
  destruct (chars_head "_" rest) as (t' & l & Hc).
  change ("_" ++ rest) with (String "_" rest). rewrite Hc.
  rewrite (span_digits_app _ (String "_" t' :: l) Hd (underscore_not_decimal t')).
  destruct (length (PyStr.chars ds)) as [|k] eqn:El.
  - destruct ds as [|a ds]; [now elim Hne|].
    elim (chars_nonempty a ds). now apply length_zero_iff_nil.
  - cbn [re_digits_underscore]. rewrite <- El, skipn_all, firstn_all.
    cbn [app]. rewrite <- Hc, !join_chars.
    change (String "_" rest) with ("_" ++ rest).
    now rewrite (prefix_append "_" rest).
Qed.

(** C10: for every string [s], parent-id extraction returns a prefix of
    [s].  When [s] is "STT_GR_", then one or more decimal digits (of any
    script, as the class [\d] has them), then an underscore and anything, the
    result is the leading "STT_GR_<digits>" token; when [s] has no such shape
    the result is [s] itself.  The function is total, so it always terminates
    and never raises. *)
Theorem extract_original_id_prefix (s : string) :
  prefix (extract_original_id s) s = true
  /\ (forall ds rest, segment_id_shape s ds rest ->
      extract_original_id s = "STT_GR_" ++ ds)
  /\ ((forall ds rest, ~ segment_id_shape s ds rest) -> extract_original_id s = s).
Proof.
  unfold extract_original_id. repeat split.
  - destruct (re_match_original_id s) as [g|] eqn:E.
    + destruct (re_match_original_id_inv _ _ E) as (ds & rest & (_ & _ & Hs) & ->).
      rewrite Hs, <- append_assoc. apply prefix_append.
    + rewrite <- (append_nil_r s) at 2. apply prefix_append.
  - intros ds rest H. now rewrite (re_match_original_id_shape _ _ _ H).
  - intros H. destruct (re_match_original_id s) as [g|] eqn:E; [|reflexivity].
    destruct (re_match_original_id_inv _ _ E) as (ds & rest & Hs & _).
    now elim (H ds rest).
Qed.

Lemma extract_original_id_prefix_witness :
  extract_original_id "STT_GR_0001_0003_22300_to_27800" = "STT_GR_0001"
  /\ extract_original_id "STT_GR_༡༢_x" = "STT_GR_༡༢"
  /\ extract_original_id "intro.wav" = "intro.wav".
Proof.
  split; [|split].
  - apply (proj1 (proj2 (extract_original_id_prefix "STT_GR_0001_0003_22300_to_27800"))
             "0001" "0003_22300_to_27800").
    repeat split. discriminate.
  - apply (proj1 (proj2 (extract_original_id_prefix "STT_GR_༡༢_x")) "༡༢" "x").
    repeat split. discriminate.
  - apply (proj2 (proj2 (extract_original_id_prefix "intro.wav"))).
    intros ds rest (_ & _ & H). discriminate H.
Defined.

(** ** Results *)

Lemma bind_ok_inv {A B : Type} (r : result A) (k : A -> result B) (b : B) :
  bind r k = Ok b -> exists a, r = Ok a /\ k a = Ok b.
Proof. destruct r as [a|e]; simpl; intros H; [now exists a | discriminate]. Qed.

Lemma mapM_total {A B : Type} (f : A -> result B) (g : A -> B) (l : list A) :
  (forall x, In x l -> f x = Ok (g x)) -> mapM f l = Ok (map g l).
Proof.
  induction l as [|x l IH]; intros H; simpl; [reflexivity|].
  rewrite (H x (or_introl eq_refl)). simpl.
  rewrite IH; [reflexivity|]. intros y Hy. apply H. now right.
Qed.

Lemma mapM_raise {A B : Type} (f : A -> result B) (e : exn) (l : list A) :
  (forall x e', f x = Raise e' -> e' = e) ->
  (exists x, In x l /\ f x = Raise e) -> mapM f l = Raise e.
Proof.
  intros He (x & Hx & Hf). induction l as [|y l IH]; [contradiction|].
  simpl. destruct (f y) as [b|e'] eqn:E; simpl.
  - destruct Hx as [->|Hx]; [congruence|]. now rewrite (IH Hx).
  - now rewrite (He _ _ E).
Qed.

Lemma mapM_ok_inv {A B : Type} (f : A -> result B) (l : list A) (l' : list B) :
  mapM f l = Ok l' -> Forall2 (fun x y => f x = Ok y) l l'.
Proof.
  revert l'; induction l as [|x l IH]; intros l' H; simpl in H.
  - injection H as <-. constructor.
  - destruct (bind_ok_inv _ _ _ H) as (y & Hy & H1).
    destruct (bind_ok_inv _ _ _ H1) as (ys & Hys & H2).
    injection H2 as <-. constructor; auto.
Qed.

(** ** Integer literals *)


Lemma code_of_ascii (n : N) : (n < 256)%N -> PyStr.code (ascii_of_N n) = N.to_nat n.
Proof.
  unfold PyStr.code, nat_of_ascii. intros H. now rewrite N_ascii_embedding.
Qed.

Lemma code_of_nat (n : nat) : (n < 256)%nat -> PyStr.code (ascii_of_nat n) = n.
Proof. unfold PyStr.code. apply nat_ascii_embedding. Qed.

Lemma code_bound (a : ascii) : (PyStr.code a < 256)%nat.
Proof. unfold PyStr.code. apply nat_ascii_bounded. Qed.

Lemma decimal_of_range (cp : N) (d : Z) : PyStr.decimal_of cp = Some d -> 0 <= d < 10.
Proof.
  unfold PyStr.decimal_of.
  destruct (find (fun z => (z <=? cp)%N && (cp <? z + 10)%N) PyStr.decimal_zeros)
    as [z|] eqn:E; [|discriminate].
  intros H. injection H as <-. apply find_some in E. destruct E as [_ E].
  apply andb_true_iff in E. destruct E as [E1 E2].
  apply N.leb_le in E1. apply N.ltb_lt in E2. lia.
Qed.

Lemma decimal_of_ascii (cp : N) :
  (cp < 128)%N ->
  PyStr.decimal_of cp
  = if (48 <=? cp)%N && (cp <=? 57)%N then Some (Z.of_N (cp - 48)) else None.
Proof.
  intros H. unfold PyStr.decimal_of.
  destruct (find (fun z => (z <=? cp)%N && (cp <? z + 10)%N) PyStr.decimal_zeros)
    as [z|] eqn:E.
  - apply find_some in E. destruct E as [Hin E].
    apply andb_true_iff in E. destruct E as [E1 E2].
    apply N.leb_le in E1. apply N.ltb_lt in E2.
    assert (z = 48%N) as ->.
    { assert (forallb (fun z => (z =? 48)%N || (128 <=? z)%N) PyStr.decimal_zeros = true)
        as Hall by reflexivity.
      rewrite forallb_forall in Hall. specialize (Hall z Hin).
      apply orb_true_iff in Hall. destruct Hall as [Hz|Hz].
      - now apply N.eqb_eq in Hz.
      - apply N.leb_le in Hz. lia. }
    destruct (N.leb_spec 48 cp), (N.leb_spec cp 57); simpl; try reflexivity; lia.
  - destruct (N.leb_spec 48 cp), (N.leb_spec cp 57); simpl; try reflexivity.
    pose proof (find_none _ _ E 48%N (or_introl eq_refl)) as Hf. cbn beta in Hf.
    apply andb_false_iff in Hf.
    destruct Hf as [Hf|Hf]; [apply N.leb_gt in Hf | apply N.ltb_ge in Hf]; lia.
Qed.

Lemma space_not_decimal (cp : N) :
  PyStr.is_unicode_space cp = true -> PyStr.decimal_of cp = None.
Proof.
  unfold PyStr.is_unicode_space. intros H. apply existsb_exists in H.
  destruct H as (x & Hx & E). apply N.eqb_eq in E. subst x.
  assert (forallb (fun x => match PyStr.decimal_of x with
                            | None => true
                            | Some _ => false
                            end) PyStr.unicode_spaces = true) as Hall by reflexivity.
  rewrite forallb_forall in Hall. specialize (Hall cp Hx).
  now destruct (PyStr.decimal_of cp).
Qed.

Lemma unicode_space_large (cp : N) : PyStr.is_unicode_space cp = true -> (128 <= cp)%N.
Proof.
  unfold PyStr.is_unicode_space. intros H. apply existsb_exists in H.
  destruct H as (x & Hx & E). apply N.eqb_eq in E. subst x.
  assert (forallb (fun x => (128 <=? x)%N) PyStr.unicode_spaces = true) as Hall
    by reflexivity.
  rewrite forallb_forall in Hall. apply N.leb_le. exact (Hall cp Hx).
Qed.

(** What [int] makes of a character is a space exactly for the whitespace
    of literals. *)
Lemma ascii_of_char_space (ch : string) :
  PyStr.is_space (PyStr.ascii_of_char ch) = literal_space ch.
Proof.
  unfold PyStr.ascii_of_char, literal_space.
  destruct (PyStr.code_point ch) as [cp|]; [|reflexivity].
  destruct (N.ltb_spec cp 127) as [H|H].
  - unfold PyStr.is_space. rewrite code_of_ascii by lia.
    destruct (N.leb_spec 127 cp); [lia|]. rewrite andb_false_l, orb_false_r.
    destruct (N.leb_spec 9 cp), (N.leb_spec cp 13), (N.eqb_spec cp 32),
      (Nat.leb_spec 9 (N.to_nat cp)), (Nat.leb_spec (N.to_nat cp) 13),
      (Nat.eqb_spec (N.to_nat cp) 32); simpl; try reflexivity; lia.
  - destruct (N.leb_spec 127 cp); [|lia]. rewrite andb_true_l.
    destruct (N.leb_spec 9 cp), (N.leb_spec cp 13), (N.eqb_spec cp 32);
      try lia; simpl;
      (destruct (PyStr.is_unicode_space cp); [reflexivity|]);
      (destruct (PyStr.decimal_of cp) as [d|] eqn:E; [|reflexivity]);
      apply decimal_of_range in E; unfold PyStr.is_space;
      rewrite code_of_nat by lia;
      destruct (Nat.leb_spec 9 (48 + Z.to_nat d)), (Nat.leb_spec (48 + Z.to_nat d) 13),
        (Nat.eqb_spec (48 + Z.to_nat d) 32); simpl; try reflexivity; lia.
Qed.

(** It is an ASCII digit exactly for the decimal digits, and the digit of
    their value. *)
Lemma ascii_of_char_digit (ch : string) :
  PyStr.is_ascii_digit (PyStr.ascii_of_char ch) = true ->
  PyStr.decimal_value ch = Some (PyStr.digit_val (PyStr.ascii_of_char ch)).
Proof.
  unfold PyStr.ascii_of_char, PyStr.decimal_value.
  destruct (PyStr.code_point ch) as [cp|]; [|discriminate].
  destruct (N.ltb_spec cp 127) as [H|H].
  - unfold PyStr.is_ascii_digit, PyStr.digit_val. rewrite code_of_ascii by lia.
    intros Hd. apply andb_true_iff in Hd. destruct Hd as [H1 H2].
    apply Nat.leb_le in H1, H2. rewrite decimal_of_ascii by lia.
    destruct (N.leb_spec 48 cp), (N.leb_spec cp 57); simpl; try lia.
    f_equal. lia.
  - destruct (PyStr.is_unicode_space cp); [discriminate|].
    destruct (PyStr.decimal_of cp) as [d|] eqn:E; [|discriminate].
    intros _. apply decimal_of_range in E. unfold PyStr.digit_val.
    rewrite code_of_nat by lia. f_equal. lia.
Qed.

Lemma ascii_of_char_decimal (ch : string) (v : Z) :
  PyStr.decimal_value ch = Some v ->
  PyStr.is_ascii_digit (PyStr.ascii_of_char ch) = true
  /\ PyStr.digit_val (PyStr.ascii_of_char ch) = v.
Proof.
  unfold PyStr.ascii_of_char, PyStr.decimal_value.
  destruct (PyStr.code_point ch) as [cp|]; [|discriminate].
  intros Hv. destruct (N.ltb_spec cp 127) as [H|H].
  - rewrite decimal_of_ascii in Hv by lia.
    destruct (N.leb_spec 48 cp), (N.leb_spec cp 57); simpl in Hv; try discriminate.
    injection Hv as <-.
    unfold PyStr.is_ascii_digit, PyStr.digit_val. rewrite code_of_ascii by lia.
    split; [|lia]. apply andb_true_iff. split; apply Nat.leb_le; lia.
  - destruct (PyStr.is_unicode_space cp) eqn:Es.
    + rewrite (space_not_decimal _ Es) in Hv. discriminate.
    + rewrite Hv. apply decimal_of_range in Hv.
      unfold PyStr.is_ascii_digit, PyStr.digit_val. rewrite code_of_nat by lia.
      split; [|lia]. apply andb_true_iff. split; apply Nat.leb_le; lia.
Qed.

(** A sign or an underscore comes from itself only. *)
Lemma ascii_of_char_mark (ch : string) (c : ascii) :
  In c ["+"; "-"; "_"]%char -> PyStr.ascii_of_char ch = c -> ch = String c "".
Proof.
  intros Hc. unfold PyStr.ascii_of_char.
  destruct (PyStr.code_point ch) as [cp|] eqn:E.
  - destruct (N.ltb_spec cp 127) as [H|H].
    + intros <-. destruct (code_point_cases _ _ E) as [[Hch _]|[Hl _]]; [exact Hch | lia].
    + destruct (PyStr.is_unicode_space cp).
      * intros <-. simpl in Hc. decompose [or] Hc; try discriminate; contradiction.
      * destruct (PyStr.decimal_of cp) as [d|] eqn:Ed.
        -- apply decimal_of_range in Ed. intros Hf.
           apply (f_equal PyStr.code) in Hf. rewrite code_of_nat in Hf by lia.
           destruct Hc as [<-|[<-|[<-|[]]]];
             [change (PyStr.code "+") with 43%nat in Hf
             |change (PyStr.code "-") with 45%nat in Hf
             |change (PyStr.code "_") with 95%nat in Hf]; lia.
        -- intros <-. simpl in Hc. decompose [or] Hc; try discriminate; contradiction.
  - intros <-. simpl in Hc. decompose [or] Hc; try discriminate; contradiction.
Qed.

(** *** Lists of characters *)

Lemma img_app (c1 c2 : list string) : img (c1 ++ c2) = img c1 ++ img c2.
Proof.
  unfold img. rewrite map_app. induction (map PyStr.ascii_of_char c1) as [|a l IH];
    simpl; [reflexivity | now rewrite IH].
Qed.

Lemma img_split (c : list string) (X Y : string) :
  img c = X ++ Y -> exists c1 c2, c = (c1 ++ c2)%list /\ img c1 = X /\ img c2 = Y.
Proof.
  revert c. induction X as [|a X IH]; intros c H.
  - now exists [], c.
  - destruct c as [|ch c]; [discriminate|].
    change (String (PyStr.ascii_of_char ch) (img c) = String a (X ++ Y)) in H.
    injection H as Ha H. destruct (IH _ H) as (c1 & c2 & -> & H1 & H2).
    exists (ch :: c1), c2. repeat split; [|exact H2].
    change (String (PyStr.ascii_of_char ch) (img c1) = String a X). now rewrite Ha, H1.
Qed.

Lemma chars_join (l : list string) :
  Forall (fun ch => PyStr.code_point ch <> None) l -> PyStr.chars (PyStr.join l) = l.
Proof.
  induction 1 as [|ch l Hc Hl IH]; [reflexivity|].
  cbn [PyStr.join fold_right]. fold (PyStr.join l).
  destruct (PyStr.code_point ch) as [cp|] eqn:E; [|now elim Hc].
  destruct (code_point_char _ _ E) as (a & t & -> & _ & Ht).
  rewrite chars_char; [now rewrite IH | exact Ht |].
  destruct Hl as [|ch' l' Hc' _]; [reflexivity|].
  destruct (PyStr.code_point ch') as [cp'|] eqn:E'; [|now elim Hc'].
  destruct (code_point_char _ _ E') as (a' & t' & -> & Ha' & _). exact Ha'.
Qed.

Lemma to_ascii_join (l : list string) :
  Forall (fun ch => PyStr.code_point ch <> None) l -> PyStr.to_ascii (PyStr.join l) = img l.
Proof. intros H. unfold PyStr.to_ascii. now rewrite (chars_join l H). Qed.

(** *** Stripping *)

Lemma lstrip_split (a : string) :
  exists A, a = A ++ PyStr.lstrip a /\ all_space A = true.
Proof.
  induction a as [|c t IH]; [now exists ""|].
  cbn [PyStr.lstrip]. destruct (PyStr.is_space c) eqn:E.
  - destruct IH as (A & Ht & HA). exists (String c A). split.
    + change (String c t = String c (A ++ PyStr.lstrip t)). now rewrite <- Ht.
    + simpl. now rewrite E.
  - now exists "".
Qed.

Lemma rstrip_split (a : string) :
  exists A, a = PyStr.rstrip a ++ A /\ all_space A = true.
Proof.
  induction a as [|c t IH]; [now exists ""|].
  cbn [PyStr.rstrip]. destruct IH as (A & Ht & HA).
  destruct (PyStr.is_space c && String.eqb (PyStr.rstrip t) "") eqn:E.
  - apply andb_true_iff in E. destruct E as [Ec Et]. apply String.eqb_eq in Et.
    rewrite Et in Ht. exists (String c A). split.
    + change (String c t = String c A). now rewrite Ht.
    + simpl. now rewrite Ec.
  - exists A. split; [|exact HA].
    change (String c t = String c (PyStr.rstrip t ++ A)). now rewrite <- Ht.
Qed.

Lemma lstrip_spaces (A X : string) :
  all_space A = true -> PyStr.lstrip (A ++ X) = PyStr.lstrip X.
Proof.
  induction A as [|c A IH]; intros H; [reflexivity|].
  simpl in H. apply andb_true_iff in H. destruct H as [Hc HA].
  change (String c A ++ X) with (String c (A ++ X)). cbn [PyStr.lstrip].
  now rewrite Hc, IH.
Qed.

Lemma rstrip_all_space (A : string) : all_space A = true -> PyStr.rstrip A = "".
Proof.
  induction A as [|c A IH]; intros H; [reflexivity|].
  simpl in H. apply andb_true_iff in H. destruct H as [Hc HA].
  cbn [PyStr.rstrip]. now rewrite (IH HA), Hc.
Qed.

Lemma rstrip_spaces (X A : string) :
  all_space A = true -> PyStr.rstrip (X ++ A) = PyStr.rstrip X.
Proof.
  intros H. induction X as [|c X IH].
  - exact (rstrip_all_space A H).
  - change (String c X ++ A) with (String c (X ++ A)). cbn [PyStr.rstrip].
    now rewrite IH.
Qed.

Lemma rstrip_last (Y : string) (c : ascii) :
  PyStr.is_space c = false -> PyStr.rstrip (Y ++ String c "") = Y ++ String c "".
Proof.
  intros H. induction Y as [|d Y IH].
  - cbn [append PyStr.rstrip]. now rewrite H.
  - change (String d Y ++ String c "") with (String d (Y ++ String c "")).
    cbn [PyStr.rstrip]. rewrite IH.
    destruct Y; cbn [append]; now rewrite andb_false_r.
Qed.

Lemma digit_not_space (c : ascii) :
  PyStr.is_ascii_digit c = true -> PyStr.is_space c = false.
Proof.
  unfold PyStr.is_ascii_digit, PyStr.is_space. intros H.
  apply andb_true_iff in H. destruct H as [H1 H2]. apply Nat.leb_le in H1, H2.
  destruct (Nat.leb_spec 9 (PyStr.code c)), (Nat.leb_spec (PyStr.code c) 13),
    (Nat.eqb_spec (PyStr.code c) 32); simpl; try reflexivity; lia.
Qed.

Lemma digit_not_char (c d : ascii) :
  PyStr.is_ascii_digit c = true -> PyStr.is_ascii_digit d = false -> Ascii.eqb c d = false.
Proof.
  intros Hc Hd. destruct (Ascii.eqb c d) eqn:E; [|reflexivity].
  apply Ascii.eqb_eq in E. subst d. congruence.
Qed.

(** *** The digits of a literal *)

Lemma int_digits_app (x y : string) (st : PyStr.lit_state) (acc m : Z) :
  PyStr.int_digits st acc x = Some m ->
  PyStr.int_digits st acc (x ++ y) = PyStr.int_digits PyStr.AfterDigit m y.
Proof.
  revert st acc. induction x as [|c x IH]; intros st acc H.
  - destruct st; [discriminate|]. now injection H as ->.
  - change (String c x ++ y) with (String c (x ++ y)).
    cbn [PyStr.int_digits] in *.
    destruct (PyStr.is_ascii_digit c); [now apply IH|].
    destruct (Ascii.eqb c "_"); [|discriminate].
    destruct st; [discriminate | now apply IH].
Qed.

(** From the parser to the grammar. *)
Lemma int_digits_literal (c : list string) (st : PyStr.lit_state) (acc n : Z) (p : string) :
  PyStr.int_digits st acc (img c) = Some n -> literal_digits p acc ->
  match st with
  | PyStr.AfterDigit => literal_digits (p ++ PyStr.join c) n
  | PyStr.NeedDigit => literal_digits (p ++ "_" ++ PyStr.join c) n
  end.
Proof.
  revert st acc p. induction c as [|ch c IH]; intros st acc p H Hp.
  - destruct st; [discriminate|]. injection H as <-.
    cbn [PyStr.join fold_right]. now rewrite append_nil_r.
  - change (img (ch :: c)) with (String (PyStr.ascii_of_char ch) (img c)) in H.
    cbn [PyStr.int_digits] in H.
    cbn [PyStr.join fold_right]. fold (PyStr.join c).
    destruct (PyStr.is_ascii_digit (PyStr.ascii_of_char ch)) eqn:D.
    + apply ascii_of_char_digit in D.
      destruct st.
      * pose proof (IH PyStr.AfterDigit _ (p ++ "_" ++ ch) H
                      (@literal_underscore _ _ _ _ Hp D)) as Hr.
        cbn beta iota in Hr.
        now rewrite !append_assoc in Hr.
      * pose proof (IH PyStr.AfterDigit _ (p ++ ch) H (@literal_more _ _ _ _ Hp D)) as Hr.
        cbn beta iota in Hr. now rewrite append_assoc in Hr.
    + destruct (Ascii.eqb_spec (PyStr.ascii_of_char ch) "_") as [E|E]; [|discriminate].
      apply ascii_of_char_mark in E; [|simpl; tauto]. subst ch.
      destruct st; [discriminate|].
      exact (IH PyStr.NeedDigit _ p H Hp).
Qed.

Lemma int_digits_literal_start (c : list string) (m : Z) :
  PyStr.int_digits PyStr.NeedDigit 0 (img c) = Some m -> literal_digits (PyStr.join c) m.
Proof.
  destruct c as [|ch c]; [discriminate|]. intros H.
  change (img (ch :: c)) with (String (PyStr.ascii_of_char ch) (img c)) in H.
  cbn [PyStr.int_digits] in H.
  destruct (PyStr.is_ascii_digit (PyStr.ascii_of_char ch)) eqn:D.
  - apply ascii_of_char_digit in D. rewrite Z.mul_0_r, Z.add_0_l in H.
    exact (int_digits_literal c PyStr.AfterDigit _ _ ch H (@literal_digit _ _ D)).
  - destruct (Ascii.eqb (PyStr.ascii_of_char ch) "_"); discriminate.
Qed.

(** From the grammar to the parser: the digits are the string of a list of
    characters that the parser reads to the end, between two digits. *)
Lemma literal_digits_img (b : string) (m : Z) :
  literal_digits b m ->
  exists c,
    b = PyStr.join c
    /\ Forall (fun ch => PyStr.code_point ch <> None) c
    /\ (forall Z, PyStr.int_digits PyStr.NeedDigit 0 (img c ++ Z)
                  = PyStr.int_digits PyStr.AfterDigit m Z)
    /\ (exists d0 t0, img c = String d0 t0 /\ PyStr.is_ascii_digit d0 = true)
    /\ (exists B d1, img c = B ++ String d1 "" /\ PyStr.is_ascii_digit d1 = true).
Proof.
  assert (forall d v, PyStr.decimal_value d = Some v -> PyStr.code_point d <> None) as Hwf.
  { intros d v Hd E. unfold PyStr.decimal_value in Hd. rewrite E in Hd. discriminate. }
  induction 1 as [d v Hd | b d n v Hb IH Hd | b d n v Hb IH Hd].
  - destruct (ascii_of_char_decimal _ _ Hd) as [Hdig Hval].
    exists [d]. split; [cbn; now rewrite append_nil_r|].
    split; [constructor; [exact (Hwf _ _ Hd) | constructor]|].
    change (img [d]) with (String (PyStr.ascii_of_char d) "").
    split; [|split].
    + intros Z. cbn [append PyStr.int_digits]. rewrite Hdig, Hval. now rewrite Z.mul_0_r.
    + now exists (PyStr.ascii_of_char d), "".
    + now exists "", (PyStr.ascii_of_char d).
  - destruct IH as (c & -> & Hc & Hrun & (d0 & t0 & H0 & Hd0) & _).
    destruct (ascii_of_char_decimal _ _ Hd) as [Hdig Hval].
    exists (c ++ [d])%list. split.
    { rewrite str_join_app. cbn. now rewrite append_nil_r. }
    split.
    { apply Forall_app. split; [exact Hc|]. constructor; [exact (Hwf _ _ Hd) | constructor]. }
    rewrite img_app. change (img [d]) with (String (PyStr.ascii_of_char d) "").
    split; [|split].
    + intros Z. rewrite append_assoc, Hrun.
      cbn [append PyStr.int_digits]. now rewrite Hdig, Hval.
    + rewrite H0. now exists d0, (t0 ++ String (PyStr.ascii_of_char d) "").
    + now exists (img c), (PyStr.ascii_of_char d).
  - destruct IH as (c & -> & Hc & Hrun & (d0 & t0 & H0 & Hd0) & _).
    destruct (ascii_of_char_decimal _ _ Hd) as [Hdig Hval].
    exists (c ++ ["_"; d])%list. split.
    { rewrite str_join_app. cbn. now rewrite append_nil_r. }
    split.
    { apply Forall_app. split; [exact Hc|].
      constructor; [discriminate|]. constructor; [exact (Hwf _ _ Hd) | constructor]. }
    rewrite img_app.
    change (img ["_"; d]) with (String "_" (String (PyStr.ascii_of_char d) "")).
    split; [|split].
    + intros Z. rewrite append_assoc, Hrun.
      cbn [append PyStr.int_digits]. change (PyStr.is_ascii_digit "_") with false.
      cbn beta iota. change (Ascii.eqb "_" "_") with true. cbn beta iota.
      now rewrite Hdig, Hval.
    + rewrite H0.
      now exists d0, (t0 ++ String "_" (String (PyStr.ascii_of_char d) "")).
    + exists (img c ++ "_"), (PyStr.ascii_of_char d). split; [|exact Hdig].
      now rewrite append_assoc.
Qed.

Lemma whitespace_img (w : string) :
  whitespace w ->
  exists c, w = PyStr.join c
            /\ Forall (fun ch => PyStr.code_point ch <> None) c
            /\ all_space (img c) = true.
Proof.
  induction 1 as [|ch w Hch Hw IH]; [now exists []|].
  destruct IH as (c & -> & Hc & Hs). exists (ch :: c). split; [reflexivity|]. split.
  - constructor; [|exact Hc]. unfold literal_space in Hch.
    now destruct (PyStr.code_point ch).
  - change (img (ch :: c)) with (String (PyStr.ascii_of_char ch) (img c)).
    cbn [all_space]. now rewrite ascii_of_char_space, Hch, Hs.
Qed.

Lemma img_whitespace (c : list string) :
  all_space (img c) = true -> whitespace (PyStr.join c).
Proof.
  induction c as [|ch c IH]; intros H; [constructor|].
  change (img (ch :: c)) with (String (PyStr.ascii_of_char ch) (img c)) in H.
  cbn [all_space] in H. apply andb_true_iff in H. destruct H as [Hc Hs].
  rewrite ascii_of_char_space in Hc.
  cbn [PyStr.join fold_right]. constructor; [exact Hc | exact (IH Hs)].
Qed.

(** *** [int] and the grammar of integer literals *)


Lemma int_literal (s : string) (n : Z) : PyStr.int s = Ok n -> integer_literal s n.
Proof.
  unfold PyStr.int, PyStr.strip, PyStr.to_ascii. fold (img (PyStr.chars s)).
  destruct (lstrip_split (img (PyStr.chars s))) as (A1 & Ha & HA1).
  destruct (rstrip_split (PyStr.lstrip (img (PyStr.chars s)))) as (A2 & Hb & HA2).
  rewrite Hb in Ha.
  destruct (img_split _ _ _ Ha) as (c1 & c' & Hcs & H1 & H').
  destruct (img_split _ _ _ H') as (c2 & c4 & -> & H2 & H4).
  rewrite <- H2. subst A1 A2.
  assert (s = PyStr.join c1 ++ PyStr.join c2 ++ PyStr.join c4) as Hs.
  { rewrite <- (join_chars s), Hcs. now rewrite !str_join_app. }
  pose proof (img_whitespace _ HA1) as Hw1. pose proof (img_whitespace _ HA2) as Hw4.
  destruct c2 as [|ch c3].
  { change (img []) with "". cbv beta iota. cbn [PyStr.int_digits]. discriminate. }
  change (img (ch :: c3)) with (String (PyStr.ascii_of_char ch) (img c3)).
  cbv beta iota.
  destruct (Ascii.eqb_spec (PyStr.ascii_of_char ch) "-") as [E|E]; cbv beta iota.
  { apply ascii_of_char_mark in E; [|simpl; tauto]. subst ch.
    destruct (PyStr.int_digits PyStr.NeedDigit 0 (img c3)) as [m|] eqn:Hd; [|discriminate].
    intros H. injection H as <-. apply int_digits_literal_start in Hd.
    exists (PyStr.join c1), "-", (PyStr.join c3), (PyStr.join c4), m.
    split; [exact Hs|]. repeat split; auto. }
  destruct (Ascii.eqb_spec (PyStr.ascii_of_char ch) "+") as [E'|E']; cbv beta iota.
  { apply ascii_of_char_mark in E'; [|simpl; tauto]. subst ch.
    destruct (PyStr.int_digits PyStr.NeedDigit 0 (img c3)) as [m|] eqn:Hd; [|discriminate].
    intros H. injection H as <-. apply int_digits_literal_start in Hd.
    exists (PyStr.join c1), "+", (PyStr.join c3), (PyStr.join c4), m.
    split; [exact Hs|]. repeat split; auto. }
  change (String (PyStr.ascii_of_char ch) (img c3)) with (img (ch :: c3)).
  destruct (PyStr.int_digits PyStr.NeedDigit 0 (img (ch :: c3))) as [m|] eqn:Hd;
    [|discriminate].
  intros H. injection H as <-. apply int_digits_literal_start in Hd.
  exists (PyStr.join c1), "", (PyStr.join (ch :: c3)), (PyStr.join c4), m.
  split; [exact Hs|]. repeat split; auto.
Qed.

Lemma literal_int (s : string) (n : Z) : integer_literal s n -> PyStr.int s = Ok n.
Proof.
  intros (w1 & sign & body & w2 & m & -> & Hw1 & Hw2 & Hb & Hsign).
  destruct (whitespace_img _ Hw1) as (c1 & -> & Hc1 & HA1).
  destruct (whitespace_img _ Hw2) as (c4 & -> & Hc4 & HA4).
  destruct (literal_digits_img _ _ Hb)
    as (c3 & -> & Hc3 & Hrun & (d0 & t0 & H0 & Hd0) & (B & d1 & HB & Hd1)).
  assert (exists c2, sign = PyStr.join c2
                     /\ Forall (fun ch => PyStr.code_point ch <> None) c2
                     /\ img c2 = sign) as (c2 & Es & Hc2 & Hi2).
  { destruct Hsign as [[-> _]|[[-> _]|[-> _]]].
    - now exists [].
    - exists ["+"]. repeat split. constructor; [discriminate | constructor].
    - exists ["-"]. repeat split. constructor; [discriminate | constructor]. }
  rewrite Es, <- !str_join_app. unfold PyStr.int.
  rewrite to_ascii_join by (repeat (apply Forall_app; split); assumption).
  rewrite !img_app, Hi2. unfold PyStr.strip.
  rewrite (lstrip_spaces _ _ HA1).
  assert (PyStr.lstrip (sign ++ img c3 ++ img c4) = sign ++ img c3 ++ img c4) as ->.
  { destruct Hsign as [[-> _]|[[-> _]|[-> _]]].
    - rewrite H0. cbn [append PyStr.lstrip]. now rewrite (digit_not_space _ Hd0).
    - reflexivity.
    - reflexivity. }
  rewrite <- !append_assoc, (rstrip_spaces _ _ HA4), HB, <- append_assoc.
  rewrite (rstrip_last _ _ (digit_not_space _ Hd1)).
  rewrite append_assoc, <- HB.
  pose proof (Hrun "") as Hr. rewrite append_nil_r in Hr. cbn [PyStr.int_digits] in Hr.
  destruct Hsign as [[-> ->]|[[-> ->]|[-> ->]]].
  - cbn [append]. rewrite H0 at 1.
    rewrite (digit_not_char d0 "-" Hd0 eq_refl), (digit_not_char d0 "+" Hd0 eq_refl).
    now rewrite Hr.
  - cbn [append]. change (Ascii.eqb "+" "-") with false. cbn beta iota.
    change (Ascii.eqb "+" "+") with true. cbn beta iota. now rewrite Hr.
  - cbn [append]. change (Ascii.eqb "-" "-") with true. cbn beta iota. now rewrite Hr.
Qed.

(** [int] reads exactly the integer literals. *)
Lemma int_spec (s : string) (n : Z) : PyStr.int s = Ok n <-> integer_literal s n.
Proof. split; [apply int_literal | apply literal_int]. Qed.

(** *** Fields *)













(** ** Catalog durations *)













(** ** Row labels *)

Lemma in_combine_seq {R : Type} (rows : list R) (a i : nat) (r : R) :
  In (i, r) (combine (seq a (length rows)) rows)
  <-> (a <= i)%nat /\ nth_error rows (i - a) = Some r.
Proof.
  revert a; induction rows as [|x rows IH]; intros a; simpl.
  - split; [contradiction|]. intros [_ H]. now destruct (i - a)%nat.
  - rewrite IH. split.
    + intros [H|[Hle H]].
      * injection H as <- <-. split; [lia|]. now rewrite Nat.sub_diag.
      * split; [lia|]. replace (i - a)%nat with (S (i - S a)) by lia. exact H.
    + intros [Hle H]. destruct (i - a)%nat as [|k] eqn:E.
      * left. injection H as <-. f_equal. lia.
      * right. split; [lia|]. now replace (i - S a)%nat with k by lia.
Qed.

Lemma in_range_index {R : Type} (rows : list R) (i : nat) (r : R) :
  In (i, r) (range_index rows) <-> nth_error rows i = Some r.
Proof.
  unfold range_index. rewrite in_combine_seq, Nat.sub_0_r. split; [tauto|].
  intros H; split; [lia | exact H].
Qed.

Lemma range_index_labels {R : Type} (rows : list R) :
  map fst (range_index rows) = seq 0 (length rows).
Proof.
  unfold range_index. generalize 0%nat.
  induction rows as [|x rows IH]; intros a; simpl; [reflexivity|].
  now rewrite IH.
Qed.

Lemma range_index_rows {R : Type} (rows : list R) : map snd (range_index rows) = rows.
Proof.
  unfold range_index. generalize 0%nat.
  induction rows as [|x rows IH]; intros a; simpl; [reflexivity|].
  now rewrite IH.
Qed.

Lemma in_read_csv {R : Type} (rd : R -> R) (rows : list R) (i : nat) (r : R) :
  In (i, r) (read_csv rd rows) <-> exists raw, nth_error rows i = Some raw /\ r = rd raw.
Proof.
  unfold read_csv. rewrite in_range_index. split.
  - intros H. destruct (nth_error rows i) as [raw|] eqn:E.
    + rewrite (map_nth_error rd _ _ E) in H. injection H as <-. now exists raw.
    + apply nth_error_None in E. assert (nth_error (map rd rows) i = None) as E'
        by (apply nth_error_None; now rewrite length_map).
      rewrite E' in H. discriminate.
  - intros (raw & E & ->). now apply map_nth_error.
Qed.

Lemma read_csv_index {R : Type} (rd : R -> R) (rows : list R) :
  map fst (read_csv rd rows) = seq 0 (length rows).
Proof. unfold read_csv. now rewrite range_index_labels, length_map. Qed.

Lemma read_csv_rows {R : Type} (rd : R -> R) (rows : list R) :
  map snd (read_csv rd rows) = map rd rows.
Proof. unfold read_csv. apply range_index_rows. Qed.

(** ** Reading the fields *)

Lemma read_field_float (c : cell) (d : float) :
  to_float c = Ok d -> to_float (read_field c) = Ok d.
Proof.
  destruct c as [x| |s]; try exact (fun H => H). unfold read_field.
  destruct (is_na s) eqn:E; [|exact (fun H => H)].
  unfold is_na in E. apply existsb_exists in E. destruct E as (m & Hm & E).
  apply String.eqb_eq in E. subst m. revert Hm. unfold na_values.
  cbn [In]. intros H.
  repeat (destruct H as [<-|H];
          [vm_compute; intros H'; (discriminate H' || (injection H' as <-; reflexivity))|]).
  destruct H.
Qed.

Lemma read_field_finite (c : cell) (q : Q) :
  to_float (read_field c) = Ok (Finite q) <-> to_float c = Ok (Finite q).
Proof.
  split; [|apply read_field_float].
  destruct c as [x| |s]; try exact (fun H => H). unfold read_field.
  destruct (is_na s); [discriminate | exact (fun H => H)].
Qed.

Lemma read_field_text (c : cell) (s : string) : read_field c = Text s -> c = Text s.
Proof.
  destruct c as [x| |t]; try discriminate. unfold read_field.
  now destruct (is_na t).
Qed.

Lemma read_segment_duration (raw : segment cell) (d : float) :
  with_duration (read_segment raw) d = with_duration raw d.
Proof. reflexivity. Qed.

(** ** Duration filter *)

Lemma in_duration_range_iff (d : float) :
  in_duration_range d = true
  <-> exists q, d = Finite q /\ (1 # 2 <= q)%Q /\ (q <= 30 # 1)%Q.
Proof.
  unfold in_duration_range, float_ge, MIN_SEGMENT_DURATION, MAX_SEGMENT_DURATION.
  destruct d as [q| | |]; simpl.
  - rewrite andb_true_iff, !Qle_bool_iff. split.
    + intros [H1 H2]. now exists q.
    + intros (q' & E & H1 & H2). injection E as <-. auto.
  - split; [discriminate|]. intros (q & E & _). discriminate.
  - split; [discriminate|]. intros (q & E & _). discriminate.
  - split; [discriminate|]. intros (q & E & _). discriminate.
Qed.

Lemma float_error (s : string) (e : exn) : PyStr.float s = Raise e -> e = ValueError.
Proof.
  unfold PyStr.float.
  destruct (PyStr.drop_underscores " " (PyStr.to_ascii s)) as [s1|];
    [|intros H; now injection H].
  destruct (match PyStr.strip s1 with
            | "" => (false, PyStr.strip s1)
            | String c t =>
                if Ascii.eqb c "-" then (true, t)
                else if Ascii.eqb c "+" then (false, t)
                else (false, PyStr.strip s1)
            end) as [neg body].
  destruct (PyStr.float_magnitude body); intros H; [discriminate | now injection H].
Qed.

Lemma to_float_error (c : cell) (e : exn) : to_float c = Raise e -> e = ValueError.
Proof.
  destruct c as [x| |s]; simpl; try discriminate. apply float_error.
Qed.

Lemma astype_float_error (r : nat * segment cell) (e : exn) :
  astype_float r = Raise e -> e = ValueError.
Proof.
  unfold astype_float. destruct (to_float (audio_duration (snd r))) eqn:E; simpl;
    intros H; [discriminate|]. injection H as <-. exact (to_float_error _ _ E).
Qed.

Lemma astype_float_cell (r : nat * segment cell) :
  is_ok (to_float (audio_duration (snd r))) = true ->
  astype_float r = Ok (fst r, with_duration (snd r) (cell_float (audio_duration (snd r)))).
Proof.
  unfold astype_float, cell_float.
  now destruct (to_float (audio_duration (snd r))).
Qed.

(** C3, as amended: the duration filter keeps exactly the segments whose
    duration is a number [d] with MIN <= d <= MAX (0.5 and 30.0), both bounds
    included; a duration below MIN or above MAX, and a missing (NaN)
    duration, which is what an empty field or a field such as [n/a] is read
    as, are excluded without error.  A duration field that holds any other
    text is converted by [float]; if [float] does not read it as a number the
    conversion raises [ValueError]: such a segment is not excluded, the run
    ends. *)
Theorem duration_filter_spec (rows : list (segment cell)) :
  (forall d, in_duration_range d = true
             <-> exists q, d = Finite q /\ (1 # 2 <= q)%Q /\ (q <= 30 # 1)%Q)
  /\ (forall x, to_float (Number x) = Ok x)
  /\ to_float Missing = Ok NaN
  /\ (forall s, to_float (Text s) = PyStr.float s)
  /\ (forall s, is_na s = true -> read_field (Text s) = Missing)
  /\ (forall s, is_na s = false -> read_field (Text s) = Text s)
  /\ ((forall raw, In raw rows ->
                   is_ok (to_float (read_field (audio_duration raw))) = true) ->
      exists kept,
        duration_filter (read_csv read_segment rows) = Ok kept
        /\ forall i r,
            In (i, r) kept
            <-> exists raw q,
                nth_error rows i = Some raw
                /\ to_float (read_field (audio_duration raw)) = Ok (Finite q)
                /\ (1 # 2 <= q)%Q /\ (q <= 30 # 1)%Q
                /\ r = with_duration raw (Finite q))
  /\ ((exists raw e, In raw rows
                     /\ to_float (read_field (audio_duration raw)) = Raise e) ->
      duration_filter (read_csv read_segment rows) = Raise ValueError).
Proof.
  split; [exact in_duration_range_iff|]. split; [reflexivity|]. split; [reflexivity|].
  split; [reflexivity|].
  split; [intros s H; unfold read_field; now rewrite H|].
  split; [intros s H; unfold read_field; now rewrite H|]. split.
  - intros Hnum. unfold duration_filter.
    rewrite (mapM_total astype_float
               (fun r => (fst r, with_duration (snd r) (cell_float (audio_duration (snd r)))))).
    + simpl. eexists; split; [reflexivity|]. intros i r.
      rewrite filter_In, in_map_iff. simpl. split.
      * intros [([i' row] & E & Hin) Hr]. simpl in E. injection E as -> <-.
        apply in_read_csv in Hin. destruct Hin as (raw & Hin & ->). simpl in Hr.
        apply in_duration_range_iff in Hr. destruct Hr as (q & Hq & H1 & H2).
        exists raw, q. repeat split; auto.
        -- pose proof (Hnum raw (nth_error_In _ _ Hin)) as Hok.
           unfold cell_float in Hq.
           destruct (to_float (read_field (audio_duration raw))) as [x|e]; [|discriminate].
           now rewrite Hq.
        -- simpl. now rewrite Hq.
      * intros (raw & q & Hn & Hd & H1 & H2 & ->). split.
        -- exists (i, read_segment raw). split; [|apply in_read_csv; now exists raw].
           cbn [fst snd read_segment audio_duration]. unfold cell_float.
           now rewrite Hd.
        -- simpl. apply in_duration_range_iff. now exists q.
    + intros [i row] Hin. apply in_read_csv in Hin. destruct Hin as (raw & Hin & ->).
      apply nth_error_In in Hin.
      apply astype_float_cell. simpl. now apply Hnum.
  - intros (raw & e & Hin & Hd). unfold duration_filter.
    rewrite (mapM_raise astype_float ValueError); [reflexivity | | ].
    + intros x e'. apply astype_float_error.
    + destruct (In_nth_error _ _ Hin) as [i Hi]. exists (i, read_segment raw). split.
      * apply in_read_csv. now exists raw.
      * unfold astype_float. simpl. rewrite Hd. simpl.
        now rewrite (to_float_error _ _ Hd).
Qed.

Lemma duration_filter_spec_witness :
  in_duration_range (Finite (1 # 2)) = true
  /\ in_duration_range (Finite (30 # 1)) = true
  /\ (exists kept, duration_filter (read_csv read_segment example_rows) = Ok kept
                   /\ ~ In 4%nat (map fst kept))
  /\ (exists kept,
        duration_filter
          (read_csv read_segment
             [example_row "a.wav" (Text " 1_2.5e-1 "); example_row "b.wav" (Text "n/a");
              example_row "c.wav" (Text "")]) = Ok kept
        /\ map fst kept = [0%nat])
  /\ read_field (Text "n/a") = Missing
  /\ read_field (Text "5 seconds") = Text "5 seconds"
  /\ duration_filter (read_csv read_segment [example_row "a.wav" (Text "5 seconds")])
     = Raise ValueError.
Proof.
  split; [|split; [|split; [|split; [|split; [|split]]]]].
  - apply (proj1 (duration_filter_spec [])). exists (1 # 2).
    repeat split; discriminate.
  - apply (proj1 (duration_filter_spec [])). exists (30 # 1).
    repeat split; discriminate.
  - destruct (proj1 (proj2 (proj2 (proj2 (proj2 (proj2 (proj2
               (duration_filter_spec example_rows))))))))
      as (kept & Hk & Hin).
    + intros raw H. simpl in H.
      repeat (destruct H as [<-|H]; [reflexivity|]). contradiction.
    + exists kept. split; [exact Hk|]. intros H4.
      apply in_map_iff in H4. destruct H4 as ([i r] & Hi & Hr).
      simpl in Hi. subst i. apply Hin in Hr.
      destruct Hr as (raw & q & Hn & Hd & _). simpl in Hn.
      injection Hn as <-. discriminate Hd.
  - destruct (proj1 (proj2 (proj2 (proj2 (proj2 (proj2 (proj2
               (duration_filter_spec
                  [example_row "a.wav" (Text " 1_2.5e-1 ");
                   example_row "b.wav" (Text "n/a");
                   example_row "c.wav" (Text "")]))))))))
      as (kept & Hk & Hin).
    + intros raw [<-|[<-|[<-|[]]]]; reflexivity.
    + exists kept. split; [exact Hk|].
      vm_compute in Hk. injection Hk as <-. reflexivity.
  - apply (proj1 (proj2 (proj2 (proj2 (proj2 (duration_filter_spec []))))));
      reflexivity.
  - apply (proj1 (proj2 (proj2 (proj2 (proj2 (proj2 (duration_filter_spec [])))))));
      reflexivity.
  - apply (proj2 (proj2 (proj2 (proj2 (proj2 (proj2 (proj2
             (duration_filter_spec [example_row "a.wav" (Text "5 seconds")])))))))).
    exists (example_row "a.wav" (Text "5 seconds")), ValueError.
    split; [now left | reflexivity].
Defined.

(** Against C3 as stated: a segment whose duration is text that is not a
    number is not excluded; the conversion raises and the run ends. *)
Lemma duration_filter_text_raises :
  duration_filter (read_csv read_segment [example_row "a.wav" (Text "5 seconds")])
  = Raise ValueError
  /\ duration_filter (read_csv read_segment [example_row "a.wav" (Text "5 seconds")])
     <> Ok []
  /\ @main lcg example_catalog
       {| has_inference_transcript := false;
          segment_rows := example_rows ++ [example_row "a.wav" (Text "5 seconds")] |} 0
     = Raise ValueError.
Proof.
  split; [reflexivity|]. split; [discriminate | reflexivity].
Qed.

Open Scope nat_scope.
Open Scope list_scope.

(** ** Dictionaries *)

Section DictFacts.
Context {V : Type}.
Implicit Types (d : dict V) (k : string) (v : V).

Lemma dict_get_None d k : dict_get k d = None <-> ~ In k (keys d).
Proof.
  induction d as [|[k' v'] d IH]; simpl; [tauto|].
  destruct (String.eqb k k') eqn:E.
  - apply String.eqb_eq in E. subst k'. split; [discriminate | tauto].
  - apply String.eqb_neq in E. rewrite IH. split; [|tauto].
    intros H [H'|H']; [now elim E | now elim H].
Qed.

Lemma dict_get_In d k v : dict_get k d = Some v -> In (k, v) d.
Proof.
  induction d as [|[k' v'] d IH]; simpl; [discriminate|].
  destruct (String.eqb k k') eqn:E.
  - apply String.eqb_eq in E. subst k'. intros H. injection H as ->. now left.
  - intros H. right. now apply IH.
Qed.

Lemma keys_dict_set_in d k v : In k (keys d) -> keys (dict_set k v d) = keys d.
Proof.
  induction d as [|[k' v'] d IH]; simpl; [contradiction|].
  destruct (String.eqb k k') eqn:E; [reflexivity|].
  apply String.eqb_neq in E. intros [H|H]; [now elim E|].
  simpl. now rewrite (IH H).
Qed.

Lemma keys_dict_set_new d k v : ~ In k (keys d) -> keys (dict_set k v d) = keys d ++ [k].
Proof.
  induction d as [|[k' v'] d IH]; simpl; [reflexivity|].
  intros H. destruct (String.eqb k k') eqn:E.
  - apply String.eqb_eq in E. subst k'. tauto.
  - simpl. rewrite IH; tauto.
Qed.

Lemma in_keys_dict_set d k v k' :
  In k' (keys (dict_set k v d)) <-> k' = k \/ In k' (keys d).
Proof.
  destruct (in_dec string_dec k (keys d)) as [H|H].
  - rewrite (keys_dict_set_in d k v H). split; [tauto|].
    intros [->|H']; assumption.
  - rewrite (keys_dict_set_new d k v H), in_app_iff. simpl. split.
    + intros [H'|[H'|[]]]; auto.
    + intros [->|H']; auto.
Qed.

Lemma NoDup_keys_dict_set d k v : NoDup (keys d) -> NoDup (keys (dict_set k v d)).
Proof.
  intros Hd. destruct (in_dec string_dec k (keys d)) as [H|H].
  - now rewrite (keys_dict_set_in d k v H).
  - rewrite (keys_dict_set_new d k v H). apply NoDup_app; auto.
    + constructor; [intros [] | constructor].
    + intros a Ha [<-|[]]. now elim H.
Qed.

Lemma dict_get_set d k v k' :
  dict_get k' (dict_set k v d) = if String.eqb k' k then Some v else dict_get k' d.
Proof.
  induction d as [|[k0 v0] d IH]; simpl.
  - reflexivity.
  - destruct (String.eqb k k0) eqn:E; simpl.
    + apply String.eqb_eq in E. subst k0. now destruct (String.eqb k' k).
    + rewrite IH. destruct (String.eqb k' k0) eqn:E0; [|reflexivity].
      apply String.eqb_eq in E0. subst k0.
      now rewrite String.eqb_sym, E.
Qed.

Section Fill.
Context {X : Type} (key : X -> string) (val : dict V -> X -> V).
Implicit Types (l : list X).

Lemma fill_cons x l d : fill key val (x :: l) d = fill key val l (dict_set (key x) (val d x) d).
Proof. reflexivity. Qed.

Lemma NoDup_keys_fill l d : NoDup (keys d) -> NoDup (keys (fill key val l d)).
Proof.
  revert d; induction l as [|x l IH]; intros d H; [exact H|].
  rewrite fill_cons. apply IH. now apply NoDup_keys_dict_set.
Qed.

Lemma in_keys_fill l d k :
  In k (keys (fill key val l d)) <-> In k (keys d) \/ In k (map key l).
Proof.
  revert d; induction l as [|x l IH]; intros d.
  - simpl. tauto.
  - rewrite fill_cons, IH, in_keys_dict_set. simpl. intuition congruence.
Qed.

Lemma dict_get_fill_other l d k :
  ~ In k (map key l) -> dict_get k (fill key val l d) = dict_get k d.
Proof.
  revert d; induction l as [|x l IH]; intros d H; [reflexivity|].
  simpl in H. rewrite fill_cons, IH by tauto. rewrite dict_get_set.
  destruct (String.eqb k (key x)) eqn:E; [|reflexivity].
  apply String.eqb_eq in E. symmetry in E. tauto.
Qed.
End Fill.

Lemma dict_of_fill (pairs : list (string * V)) :
  dict_of pairs = fill fst (fun _ => snd) pairs [].
Proof. reflexivity. Qed.

Lemma in_keys_dict_of (pairs : list (string * V)) k :
  In k (keys (dict_of pairs)) <-> In k (map fst pairs).
Proof. rewrite dict_of_fill, in_keys_fill. simpl. tauto. Qed.

(** With distinct keys, every pair is found again. *)
Lemma dict_get_dict_of (pairs : list (string * V)) k v :
  NoDup (map fst pairs) -> In (k, v) pairs -> dict_get k (dict_of pairs) = Some v.
Proof.
  rewrite dict_of_fill. generalize (@nil (string * V)).
  induction pairs as [|[k0 v0] l IH]; intros d Hn Hin; [contradiction|].
  simpl in Hn. inversion Hn as [|? ? Hk Hl]; subst.
  rewrite fill_cons. simpl fst. simpl snd.
  destruct Hin as [E|Hin].
  - injection E as -> ->. rewrite dict_get_fill_other by exact Hk.
    now rewrite dict_get_set, String.eqb_refl.
  - now apply IH.
Qed.
End DictFacts.

Lemma Counter_fill (l : list string) :
  Counter l
  = fill (fun k => k)
      (fun d k => S (match dict_get k d with Some n => n | None => O end)) l [].
Proof. reflexivity. Qed.

Lemma NoDup_keys_Counter (l : list string) : NoDup (keys (Counter l)).
Proof. rewrite Counter_fill. apply NoDup_keys_fill. constructor. Qed.

Lemma in_keys_Counter (l : list string) (k : string) :
  In k (keys (Counter l)) <-> In k l.
Proof. rewrite Counter_fill, in_keys_fill, map_id. simpl. tauto. Qed.

Lemma is_unique_NoDup (l : list string) : is_unique l = true -> NoDup l.
Proof.
  induction l as [|x l IH]; simpl; intros H; [constructor|].
  apply andb_true_iff in H. destruct H as [Hx Hl].
  constructor; [|now apply IH].
  intros Hin. apply negb_true_iff in Hx.
  assert (existsb (String.eqb x) l = true) as E
    by (apply existsb_exists; exists x; split; [exact Hin | apply String.eqb_refl]).
  congruence.
Qed.

(** ** Lists *)

Lemma NoDup_map_eq {A B : Type} (f : A -> B) (l : list A) (a b : A) :
  NoDup (map f l) -> In a l -> In b l -> f a = f b -> a = b.
Proof.
  induction l as [|x l IH]; simpl; intros Hn Ha Hb E; [contradiction|].
  inversion Hn as [|? ? Hx Hl]; subst.
  destruct Ha as [->|Ha], Hb as [->|Hb]; auto.
  - elim Hx. rewrite E. now apply in_map.
  - elim Hx. rewrite <- E. now apply in_map.
Qed.

(** Filtering the rows of a frame keeps their labels distinct. *)
Lemma NoDup_map_filter {R L : Type} (label : R -> L) (keep : R -> bool)
  (rows : list R) (Hn : NoDup (map label rows)) :
  NoDup (map label (filter keep rows)).
Proof.
  induction rows as [|x l IH]; simpl; [constructor|].
  simpl in Hn. inversion Hn as [|? ? Hx Hl]; subst.
  specialize (IH Hl).
  destruct (keep x); simpl; auto.
  constructor; auto. intros Hin. apply Hx.
  apply in_map_iff in Hin. destruct Hin as (y & E & Hy).
  apply filter_In in Hy. rewrite <- E. apply in_map. tauto.
Qed.

Lemma dropna_app {A : Type} (l1 l2 : list (option A)) :
  dropna (l1 ++ l2) = dropna l1 ++ dropna l2.
Proof.
  induction l1 as [|[a|] l1 IH]; simpl; [reflexivity | now rewrite IH | exact IH].
Qed.

Lemma dropna_perm {A : Type} (l1 l2 : list (option A)) :
  Permutation l1 l2 -> Permutation (dropna l1) (dropna l2).
Proof.
  induction 1 as [|[a|] l1 l2 _ IH|[a|] [b|] l|l1 l2 l3 _ IH1 _ IH2]; simpl;
    try reflexivity; auto.
  - apply perm_swap.
  - now transitivity (dropna l2).
Qed.

Lemma in_dropna {A : Type} (l : list (option A)) (a : A) :
  In a (dropna l) <-> In (Some a) l.
Proof.
  induction l as [|[b|] l IH]; simpl; [tauto| |].
  - rewrite IH. split; intros [H|H]; auto; left; congruence.
  - rewrite IH. split; [auto|]. intros [H|H]; [discriminate | exact H].
Qed.

Lemma in_firstn {A : Type} (n : nat) (l : list A) (x : A) :
  In x (firstn n l) -> In x l.
Proof.
  intros H. rewrite <- (firstn_skipn n l). apply in_or_app. now left.
Qed.

(** ** Shuffling *)

Lemma nth_error_set_nth {A : Type} (l : list A) (i j : nat) (v : A) :
  i < length l ->
  nth_error (set_nth i v l) j = if i =? j then Some v else nth_error l j.
Proof.
  revert i j; induction l as [|x l IH]; intros i j H; simpl in H; [lia|].
  destruct i as [|i], j as [|j]; simpl; try reflexivity.
  apply IH. lia.
Qed.

Lemma set_nth_perm {A : Type} (l : list A) (i : nat) (v a : A) :
  nth_error l i = Some a -> Permutation (v :: l) (a :: set_nth i v l).
Proof.
  revert i; induction l as [|x l IH]; intros i H.
  - now destruct i.
  - destruct i as [|i]; simpl in *.
    + injection H as ->. apply perm_swap.
    + transitivity (x :: v :: l); [apply perm_swap|].
      transitivity (x :: a :: set_nth i v l); [|apply perm_swap].
      apply perm_skip. now apply IH.
Qed.

Lemma swap_perm {A : Type} (i j : nat) (x : list A) : Permutation x (swap i j x).
Proof.
  unfold swap.
  destruct (nth_error x i) as [xi|] eqn:Ei; [|reflexivity].
  destruct (nth_error x j) as [xj|] eqn:Ej; [|reflexivity].
  apply Permutation_cons_inv with (a := xj).
  transitivity (xi :: set_nth i xj x); [now apply set_nth_perm|].
  apply set_nth_perm.
  rewrite nth_error_set_nth by (apply nth_error_Some; congruence).
  now destruct (i =? j).
Qed.

Section SamplingFacts.
Context {RS : RandomState}.

Lemma shuffle_from_perm (i : nat) (x : list nat) (g : rng) :
  Permutation x (fst (shuffle_from i x g)).
Proof.
  revert x g; induction i as [|i IH]; intros x g; simpl; [reflexivity|].
  destruct (random_interval g (S i)) as [j g'].
  transitivity (swap (S i) j x); [apply swap_perm | apply IH].
Qed.

(** Every swap of the shuffle is between two positions of the list. *)
Lemma shuffle_swap_in_range (i : nat) (x : list nat) (g : rng) :
  S i < length x ->
  nth_error x (S i) <> None /\ nth_error x (fst (random_interval g (S i))) <> None.
Proof.
  intros H. pose proof (random_interval_le g (S i)).
  split; apply nth_error_Some; lia.
Qed.

Lemma permutation_perm (n : nat) (g : rng) :
  Permutation (seq 0 n) (fst (permutation n g)).
Proof. apply shuffle_from_perm. Qed.

Lemma take_rows_all {R : Type} (df : list R) :
  take_rows (seq 0 (length df)) df = df.
Proof.
  unfold take_rows. induction df as [|r df IH]; simpl; [reflexivity|].
  f_equal. rewrite <- seq_shift, map_map. exact IH.
Qed.

Lemma take_rows_length {R : Type} (positions : list nat) (df : list R) :
  (forall p, In p positions -> p < length df) ->
  length (take_rows positions df) = length positions.
Proof.
  unfold take_rows. induction positions as [|p ps IH]; intros H; simpl;
    [reflexivity|].
  destruct (nth_error df p) eqn:E.
  - simpl. rewrite IH; [reflexivity|]. intros q Hq. apply H. now right.
  - apply nth_error_None in E. specialize (H p (or_introl eq_refl)). lia.
Qed.

(** [df.sample(n)] splits [df] into the [n] sampled rows and the others. *)
Lemma sample_spec {R : Type} (n : nat) (df : list R) (g : rng) :
  n <= length df ->
  length (fst (sample n df g)) = n
  /\ exists others, Permutation df (fst (sample n df g) ++ others).
Proof.
  intros Hn. unfold sample, choice.
  pose proof (permutation_perm (length df) g) as Hp.
  destruct (permutation (length df) g) as [p g'] eqn:E. simpl in *.
  split.
  - rewrite take_rows_length.
    + rewrite length_firstn, <- (Permutation_length Hp), length_seq. lia.
    + intros q Hq. apply in_firstn in Hq.
      apply Permutation_sym in Hp. apply (Permutation_in _ Hp) in Hq.
      apply in_seq in Hq. lia.
  - exists (take_rows (skipn n p) df).
    unfold take_rows. rewrite <- dropna_app, <- map_app, firstn_skipn.
    rewrite <- (take_rows_all df) at 1. unfold take_rows.
    apply dropna_perm, Permutation_map, Hp.
Qed.

Lemma select_stratum_spec (T : nat) (group : list valid_segment) (g : rng) :
  contribution T group (fst (select_stratum T group g)).
Proof.
  unfold contribution, select_stratum.
  destruct (Nat.leb_spec (length group) (Nat.min T (length group))) as [H|H].
  - simpl. split; [reflexivity | lia].
  - split; [lia|]. intros _.
    replace (Nat.min T (length group)) with T by lia.
    apply sample_spec. lia.
Qed.

Lemma sampling_loop_spec (T : nat) (items : dict nat)
  (valid : list valid_segment) (g : rng) :
  Forall2 (fun k selected => contribution T (stratum_rows k valid) selected)
    (keys items) (fst (sampling_loop T items valid g)).
Proof.
  revert g; induction items as [|[k n] items IH]; intros g; simpl; [constructor|].
  pose proof (select_stratum_spec T (stratum_rows k valid) g) as Hs.
  destruct (select_stratum T (stratum_rows k valid) g) as [selected g1].
  specialize (IH g1).
  destruct (sampling_loop T items valid g1) as [more g2].
  simpl in *. now constructor.
Qed.

Lemma contribution_facts (T : nat) (valid group selected : list valid_segment)
  (k : string) :
  NoDup (map v_index valid) -> group = stratum_rows k valid ->
  contribution T group selected ->
  length selected = Nat.min T (length group)
  /\ NoDup (map v_index selected)
  /\ (forall r, In r selected -> In r valid /\ strata r = k).
Proof.
  intros Hn Hg [Hall Hsome].
  assert (NoDup (map v_index group)) as Hng
    by (subst group; now apply NoDup_map_filter).
  assert (forall r, In r group -> In r valid /\ strata r = k) as Hin.
  { intros r Hr. subst group. apply filter_In in Hr. destruct Hr as [Hr E].
    apply String.eqb_eq in E. auto. }
  destruct (Nat.le_gt_cases (length group) T) as [H|H].
  - rewrite (Hall H). repeat split; auto; try lia; now apply Hin.
  - destruct (Hsome H) as (Hl & others & Hp). repeat split; try lia.
    + apply (Permutation_map v_index) in Hp. rewrite map_app in Hp.
      apply (Permutation_NoDup Hp) in Hng. now apply NoDup_app_remove_r in Hng.
    + apply Hin. apply Permutation_sym in Hp. apply (Permutation_in _ Hp).
      apply in_or_app. now left.
    + apply Hin. apply Permutation_sym in Hp. apply (Permutation_in _ Hp).
      apply in_or_app. now left.
Qed.

Lemma selections_facts (T : nat) (valid : list valid_segment)
  (ks : list string) (selections : list (list valid_segment)) :
  NoDup (map v_index valid) -> NoDup ks ->
  Forall2 (fun k selected => contribution T (stratum_rows k valid) selected)
    ks selections ->
  length (concat selections)
  = list_sum (map (fun k => Nat.min T (length (stratum_rows k valid))) ks)
  /\ NoDup (map v_index (concat selections))
  /\ (forall r, In r (concat selections) -> In r valid /\ In (strata r) ks).
Proof.
  intros Hn Hks H. induction H as [|k selected ks sels Hc _ IH]; simpl.
  - repeat split; [constructor | contradiction | contradiction].
  - inversion Hks as [|? ? Hk Hks']; subst.
    destruct (IH Hks') as (Hlen & Hnd & Hin).
    destruct (contribution_facts T valid _ selected k Hn eq_refl Hc)
      as (Hl1 & Hn1 & Hi1).
    repeat split.
    + now rewrite length_app, Hl1, Hlen.
    + rewrite map_app. apply NoDup_app; auto.
      intros i H1 H2. apply in_map_iff in H1, H2.
      destruct H1 as (r1 & E1 & R1), H2 as (r2 & E2 & R2).
      destruct (Hi1 _ R1) as [V1 S1], (Hin _ R2) as [V2 S2].
      assert (r1 = r2) by (apply (NoDup_map_eq v_index valid); congruence).
      subst r2. congruence.
    + apply in_app_or in H. destruct H as [H|H]; [now apply Hi1 | now apply Hin].
    + apply in_app_or in H. destruct H as [H|H].
      * left. symmetry. now apply Hi1.
      * right. now apply Hin.
Qed.

(** C1: for every list of valid joined segments with distinct row labels
    and every target [T > 0], the strata keys partition the segments, and the
    sampler selects, stratum by stratum: the whole group when its size is at
    most [T], and otherwise exactly [T] rows of the group, pairwise distinct.
    The total selection size is the sum over the strata of
    [min T (group size)], and no segment appears twice in the selection. *)
Theorem stratified_sample_spec (T : nat) (valid : list valid_segment) (g0 : rng) :
  0 < T -> NoDup (map v_index valid) ->
  let strata_keys := keys (Counter (map strata valid)) in
  let selections := fst (stratified_sample T valid g0) in
  NoDup strata_keys
  /\ (forall r, In r valid -> In (strata r) strata_keys)
  /\ Forall2
       (fun k selected =>
          let group := stratum_rows k valid in
          (length group <= T -> selected = group)
          /\ (T < length group ->
              length selected = T
              /\ NoDup (map v_index selected)
              /\ incl selected group))
       strata_keys selections
  /\ length (concat selections)
     = list_sum (map (fun k => Nat.min T (length (stratum_rows k valid))) strata_keys)
  /\ NoDup (map v_index (concat selections)).
Proof.
  intros _ Hn strata_keys selections.
  pose proof (NoDup_keys_Counter (map strata valid)) as Hk.
  pose proof (sampling_loop_spec T (Counter (map strata valid)) valid
                (seed RANDOM_SEED)) as Hs.
  fold strata_keys in Hk, Hs.
  change (fst (sampling_loop T (Counter (map strata valid)) valid (seed RANDOM_SEED)))
    with selections in Hs.
  destruct (selections_facts T valid strata_keys selections Hn Hk Hs)
    as (Hlen & Hnd & _).
  split; [exact Hk|]. split.
  { intros r Hr. apply in_keys_Counter. now apply in_map. }
  split; [|split; assumption].
  eapply Forall2_impl; [|exact Hs].
  intros k selected Hc. cbv zeta. split; [apply Hc|].
  intros Hgt.
  destruct (contribution_facts T valid _ selected k Hn eq_refl Hc)
    as (Hl & Hnd' & _).
  destruct Hc as [_ Hc]. destruct (Hc Hgt) as (Hl' & others & Hp).
  repeat split; auto.
  intros r Hr. apply Permutation_sym in Hp. apply (Permutation_in _ Hp).
  apply in_or_app. now left.
Qed.

(** C2: the selection is a function of the input tables and the seed
    only.  For every seed, and whatever state the global generator is in when
    the sampler starts, the selections are the same lists (same members, same
    order, same multiplicity); in particular a second run, started from the
    state the first run left behind, repeats the first selection, and so do
    the outputs of [main]. *)
Theorem stratified_sample_deterministic (s : Z) (T : nat)
  (valid : list valid_segment)
  (catalog : list catalog_entry) (segments : segments_csv) (g0 g0' : rng) :
  stratified_sample_seeded s T valid g0 = stratified_sample_seeded s T valid g0'
  /\ fst (stratified_sample_seeded s T valid
            (snd (stratified_sample_seeded s T valid g0)))
     = fst (stratified_sample_seeded s T valid g0)
  /\ stratified_sample T valid g0 = stratified_sample T valid g0'
  /\ main catalog segments g0 = main catalog segments g0'.
Proof. repeat split; reflexivity. Qed.

End SamplingFacts.

Lemma stratified_sample_spec_witness :
  (0 < 1)%nat
  /\ NoDup (map v_index example_valid)
  /\ length (concat (fst (@stratified_sample lcg 1 example_valid 0%Z))) = 2
  /\ NoDup (map v_index (concat (fst (@stratified_sample lcg 1 example_valid 0%Z)))).
Proof.
  assert (0 < 1)%nat as HT by lia.
  assert (NoDup (map v_index example_valid)) as Hn.
  { repeat constructor; simpl; intuition discriminate. }
  split; [exact HT|]. split; [exact Hn|].
  destruct (@stratified_sample_spec lcg 1 example_valid 0%Z HT Hn)
    as (_ & _ & _ & Hlen & Hnd).
  split; [exact Hlen | exact Hnd].
Defined.

Open Scope Z_scope.

(** ** The ingestion table *)

Lemma select_upload_columns (b : benchmark_row) (id : Z) :
  select_columns columns_order
    (dict_set "id" (VInt id)
       (dict_set "state" (VStr STATE)
          (dict_set "group_id" (VInt GROUP_ID) (columns_of true b))))
  = Ok (upload_row true b id).
Proof. reflexivity. Qed.

Lemma select_upload_columns_added (b : benchmark_row) (id : Z) :
  select_columns columns_order
    (dict_set "inference_transcript" (VStr "")
       (dict_set "id" (VInt id)
          (dict_set "state" (VStr STATE)
             (dict_set "group_id" (VInt GROUP_ID) (columns_of false b)))))
  = Ok (upload_row false b id).
Proof. reflexivity. Qed.

Lemma format_for_upload_rows (has_transcript : bool) (benchmark_df : list benchmark_row) :
  format_for_upload has_transcript benchmark_df
  = Ok (map (fun ib => upload_row has_transcript (snd ib) (BASE_ID + Z.of_nat (fst ib)))
          (combine (seq 0 (length benchmark_df)) benchmark_df)).
Proof.
  unfold format_for_upload, add_column, add_column_values, range_from.
  rewrite !length_map. generalize 0%nat.
  destruct has_transcript; simpl negb; cbv iota;
    induction benchmark_df as [|b df IH]; intros a; try reflexivity;
    cbn [map combine seq length mapM fst snd].
  - rewrite select_upload_columns, IH. reflexivity.
  - rewrite select_upload_columns_added, IH. reflexivity.
Qed.

(** ** The catalog, column by column *)

Lemma mapM_columns {A B C D : Type} (f : A -> result B) (g : A -> result C)
  (h : A -> B -> C -> D) (l : list A) :
  match mapM f l, mapM g l with
  | Ok ys, Ok zs =>
      mapM (fun x => y <- f x ;; z <- g x ;; Ok (h x y z)) l
      = Ok (map (fun r => h (fst r) (fst (snd r)) (snd (snd r)))
              (combine l (combine ys zs)))
  | _, _ => exists e, mapM (fun x => y <- f x ;; z <- g x ;; Ok (h x y z)) l = Raise e
  end.
Proof.
  induction l as [|a l IH]; [reflexivity|]. cbn [mapM].
  destruct (f a) as [y|e1]; cbn [bind]; [|now exists e1].
  destruct (mapM f l) as [ys|e2]; cbn [bind].
  - destruct (g a) as [z|e3]; cbn [bind]; [|now exists e3].
    destruct (mapM g l) as [zs|e4]; cbn [bind].
    + now rewrite IH.
    + destruct IH as [e He]. rewrite He. now exists e.
  - assert (exists e, mapM (fun x => y <- f x ;; z <- g x ;; Ok (h x y z)) l = Raise e)
      as [e He] by (destruct (mapM g l); exact IH).
    destruct (g a) as [z|e3]; cbn [bind]; [|now exists e3].
    rewrite He. now exists e.
Qed.

(** The catalog is enriched when every row is, and to the same rows. *)
Lemma enrich_catalog_rows (catalog : list catalog_entry) (catalog_df : list catalog_row) :
  enrich_catalog catalog = Ok catalog_df <-> mapM enrich catalog = Ok catalog_df.
Proof.
  unfold enrich_catalog.
  pose proof (mapM_columns
                (fun e => parse_duration (Original_Full_Audio_Duration e))
                (fun e => str_method extract_content_type (Filename e))
                derived_row catalog) as H.
  unfold enrich.
  destruct (mapM (fun e => parse_duration (Original_Full_Audio_Duration e)) catalog)
    as [ys|e1]; cbn [bind].
  - destruct (mapM (fun e => str_method extract_content_type (Filename e)) catalog)
      as [zs|e2]; cbn [bind].
    + now rewrite H.
    + destruct H as [e ->]. split; discriminate.
  - destruct H as [e ->]. split; discriminate.
Qed.

(** ** The pipeline, step by step *)

Section MainFacts.
Context {RS : RandomState}.

Lemma main_inv (catalog : list catalog_entry) (segments : segments_csv)
  (g0 : rng) (out : outputs) :
  main catalog segments g0 = Ok out ->
  exists in_range catalog_df id_to_metadata selected,
    duration_filter (read_csv read_segment (segment_rows segments)) = Ok in_range
    /\ mapM enrich (map read_entry catalog) = Ok catalog_df
    /\ id_to_metadata_of catalog_df = Ok id_to_metadata
    /\ pd_concat
         (fst (stratified_sample SEGMENTS_PER_STRATUM
                 (join (id_to_strata_of catalog_df) in_range) g0))
       = Ok selected
    /\ benchmark_df out = map (add_metadata id_to_metadata) selected
    /\ format_for_upload (has_inference_transcript segments) (benchmark_df out)
       = Ok (formatted_output out)
    /\ strata_mapping_df out
       = map mapping_of (join (id_to_strata_of catalog_df) in_range)
    /\ full_audio_strata_df out = catalog_df
    /\ benchmark_json out
       = map (json_of (has_inference_transcript segments)) (benchmark_df out).
Proof.
  unfold main. rewrite read_csv_rows. intros H.
  destruct (bind_ok_inv _ _ _ H) as (in_range & H1 & H1').
  destruct (bind_ok_inv _ _ _ H1') as (catalog_df & H2 & H2').
  destruct (bind_ok_inv _ _ _ H2') as (id_to_metadata & H3 & H3').
  destruct (bind_ok_inv _ _ _ H3') as (selected & H4 & H4').
  destruct (bind_ok_inv _ _ _ H4') as (formatted & H5 & H5').
  injection H5' as <-. simpl.
  exists in_range, catalog_df, id_to_metadata, selected.
  apply enrich_catalog_rows in H2.
  repeat split; assumption.
Qed.
End MainFacts.

(** ** Catalog *)

Lemma enrich_inv (e : catalog_entry) (c : catalog_row) :
  enrich e = Ok c ->
  exists secs name,
    parse_duration (Original_Full_Audio_Duration e) = Ok secs
    /\ Filename e = Text name
    /\ c = {| entry := e;
              split_duration_seconds := secs;
              c_duration_category := duration_category secs;
              c_content_type := extract_content_type name;
              c_strata := strata_key (AGE e) (duration_category secs)
                            (extract_content_type name) |}.
Proof.
  unfold enrich, str_method. intros H.
  destruct (bind_ok_inv _ _ _ H) as (secs & H1 & H2).
  destruct (Filename e) as [x| |name]; try discriminate.
  cbn [bind] in H2. injection H2 as <-. now exists secs, name.
Qed.

Lemma Forall2_in_r {A B : Type} (R : A -> B -> Prop) (l : list A) (l' : list B) (y : B) :
  Forall2 R l l' -> In y l' -> exists x, In x l /\ R x y.
Proof.
  induction 1 as [|x y' l l' Hxy _ IH]; intros Hin; [contradiction|].
  destruct Hin as [->|Hin].
  - exists x. split; [now left | exact Hxy].
  - destruct (IH Hin) as (x' & Hx' & Hr). exists x'. split; [now right | exact Hr].
Qed.

Lemma Forall2_map_eq {A B C : Type} (R : A -> B -> Prop) (f : A -> C) (g : B -> C)
  (l : list A) (l' : list B) :
  (forall x y, R x y -> f x = g y) -> Forall2 R l l' -> map f l = map g l'.
Proof.
  intros H. induction 1 as [|x y l l' Hxy _ IH]; simpl; [reflexivity|].
  now rewrite (H _ _ Hxy), IH.
Qed.

Lemma enrich_entries (catalog : list catalog_entry) (catalog_df : list catalog_row) :
  mapM enrich catalog = Ok catalog_df -> map entry catalog_df = catalog.
Proof.
  intros H. apply mapM_ok_inv in H. symmetry. rewrite <- (map_id catalog) at 1.
  apply (Forall2_map_eq _ _ _ _ _ (fun e c (Hec : enrich e = Ok c) =>
    match enrich_inv e c Hec with
    | ex_intro _ secs (ex_intro _ name (conj _ (conj _ Hc))) =>
        eq_sym (f_equal entry Hc)
    end) H).
Qed.

Lemma combine_map {A B C : Type} (f : A -> B) (g : A -> C) (l : list A) :
  combine (map f l) (map g l) = map (fun x => (f x, g x)) l.
Proof. induction l as [|x l IH]; simpl; [reflexivity | now rewrite IH]. Qed.

Lemma id_to_strata_keys (catalog_df : list catalog_row) (k : string) :
  In k (keys (id_to_strata_of catalog_df)) <-> In k (catalog_ids catalog_df).
Proof.
  unfold id_to_strata_of. rewrite in_keys_dict_of, combine_map, map_map. reflexivity.
Qed.

Lemma id_to_strata_get (catalog_df : list catalog_row) (c : catalog_row) :
  NoDup (catalog_ids catalog_df) -> In c catalog_df ->
  dict_get (ID (entry c)) (id_to_strata_of catalog_df) = Some (c_strata c).
Proof.
  intros Hn Hc. unfold id_to_strata_of. rewrite combine_map.
  apply dict_get_dict_of.
  - now rewrite map_map.
  - apply in_map_iff. now exists c.
Qed.

Lemma id_to_metadata_inv (catalog_df : list catalog_row) (m : dict metadata) :
  id_to_metadata_of catalog_df = Ok m ->
  NoDup (catalog_ids catalog_df)
  /\ forall c, In c catalog_df -> dict_get (ID (entry c)) m = Some (metadata_of c).
Proof.
  unfold id_to_metadata_of. fold (catalog_ids catalog_df).
  destruct (is_unique (catalog_ids catalog_df)) eqn:E; [|discriminate].
  intros H. injection H as <-. apply is_unique_NoDup in E. split; [exact E|].
  intros c Hc. apply dict_get_dict_of.
  - now rewrite map_map.
  - apply in_map_iff. now exists c.
Qed.

Lemma filter_unique {A : Type} (f : A -> string) (l : list A) (a : A) :
  NoDup (map f l) -> In a l -> filter (fun x => String.eqb (f x) (f a)) l = [a].
Proof.
  induction l as [|x l IH]; simpl; intros Hn Hin; [contradiction|].
  inversion Hn as [|? ? Hx Hl]; subst.
  assert (forall y, ~ In (f y) (map f l) ->
                    filter (fun x => String.eqb (f x) (f y)) l = []) as Hnone.
  { intros y Hy. clear -Hy. induction l as [|z l IH]; simpl; [reflexivity|].
    simpl in Hy. destruct (String.eqb (f z) (f y)) eqn:E.
    - apply String.eqb_eq in E. tauto.
    - apply IH. tauto. }
  destruct Hin as [->|Hin].
  - rewrite String.eqb_refl. f_equal. now apply Hnone.
  - destruct (String.eqb (f x) (f a)) eqn:E.
    + apply String.eqb_eq in E. elim Hx. rewrite E. now apply in_map.
    + now apply IH.
Qed.

(** ** Join *)

Lemma join_cons (d : dict string) (r : nat * segment float)
  (rows : frame (segment float)) :
  join d (r :: rows)
  = match join_row d r with
    | Some v => v :: join d rows
    | None => join d rows
    end.
Proof. unfold join. simpl. now destruct (join_row d r). Qed.


Lemma join_row_inv (d : dict string) (r : nat * segment float) (v : valid_segment) :
  join_row d r = Some v ->
  v_index v = fst r /\ v_segment v = snd r
  /\ original_id v = extract_original_id (file_name (snd r))
  /\ dict_get (original_id v) d = Some (strata v).
Proof.
  unfold join_row.
  destruct (dict_get (extract_original_id (file_name (snd r))) d) as [s|] eqn:E;
    [|discriminate].
  intros H. injection H as <-. simpl. auto.
Qed.

Lemma in_join (d : dict string) (rows : frame (segment float)) (v : valid_segment) :
  In v (join d rows) <-> exists r, In r rows /\ join_row d r = Some v.
Proof.
  unfold join. rewrite in_dropna, in_map_iff. split.
  - intros (r & H & Hr). now exists r.
  - intros (r & Hr & H). now exists r.
Qed.

Lemma NoDup_join_index (d : dict string) (rows : frame (segment float)) :
  NoDup (map fst rows) -> NoDup (map v_index (join d rows)).
Proof.
  induction rows as [|r rows IH]; intros Hn; [constructor|].
  simpl in Hn. inversion Hn as [|? ? Hr Hrows]; subst.
  rewrite join_cons. destruct (join_row d r) as [v|] eqn:E; [|now apply IH].
  simpl. constructor; [|now apply IH].
  intros Hin. apply in_map_iff in Hin. destruct Hin as (v' & Ev & Hv').
  apply in_join in Hv'. destruct Hv' as (r' & Hr' & Ej).
  apply join_row_inv in E, Ej. elim Hr.
  replace (fst r) with (fst r') by (destruct E as [<- _], Ej as [<- _]; exact Ev).
  now apply in_map.
Qed.

(** ** Duration filter, row by row *)

Lemma astype_float_inv (r : nat * segment cell) (r' : nat * segment float) :
  astype_float r = Ok r' ->
  fst r' = fst r /\ file_name (snd r') = file_name (snd r)
  /\ to_float (audio_duration (snd r)) = Ok (audio_duration (snd r')).
Proof.
  unfold astype_float. intros H. destruct (bind_ok_inv _ _ _ H) as (x & Hx & H').
  injection H' as <-. simpl. auto.
Qed.

Lemma duration_filter_inv (df : frame (segment cell)) (kept : frame (segment float)) :
  duration_filter df = Ok kept ->
  (NoDup (map fst df) -> NoDup (map fst kept))
  /\ forall r', In r' kept ->
       exists r, In r df /\ astype_float r = Ok r'
                 /\ in_duration_range (audio_duration (snd r')) = true.
Proof.
  unfold duration_filter. intros H.
  destruct (bind_ok_inv _ _ _ H) as (converted & Hc & H'). injection H' as <-.
  apply mapM_ok_inv in Hc. split.
  - intros Hn. apply NoDup_map_filter.
    rewrite <- (Forall2_map_eq _ fst fst _ _
                  (fun r r' Hr => eq_sym (proj1 (astype_float_inv r r' Hr))) Hc).
    exact Hn.
  - intros r' Hr'. apply filter_In in Hr'. destruct Hr' as [Hin Hrange].
    destruct (Forall2_in_r _ _ _ _ Hc Hin) as (r & Hr & Ha).
    now exists r.
Qed.

Lemma NoDup_read_csv {R : Type} (rd : R -> R) (rows : list R) :
  NoDup (map fst (read_csv rd rows)).
Proof. rewrite read_csv_index. apply seq_NoDup. Qed.

Lemma read_entry_ids (catalog : list catalog_entry) :
  map ID (map read_entry catalog) = map ID catalog.
Proof. rewrite map_map. reflexivity. Qed.

Lemma nth_error_combine_seq {R : Type} (rows : list R) (a i : nat) (r : R) :
  nth_error rows i = Some r ->
  nth_error (combine (seq a (length rows)) rows) i = Some ((a + i)%nat, r).
Proof.
  revert a i; induction rows as [|x rows IH]; intros a i H.
  - now destruct i.
  - destruct i as [|i]; simpl in *.
    + injection H as ->. now rewrite Nat.add_0_r.
    + rewrite (IH (S a) i H). f_equal. f_equal. lia.
Qed.

Lemma range_index_app_one {R : Type} (rows : list R) (r : R) :
  range_index (rows ++ [r]) = range_index rows ++ [(length rows, r)].
Proof.
  assert (forall a, combine (seq a (length (rows ++ [r]))) (rows ++ [r])
                    = combine (seq a (length rows)) rows ++ [((a + length rows)%nat, r)]) as H.
  { induction rows as [|x rows IH]; intros a; simpl.
    - now rewrite Nat.add_0_r.
    - rewrite IH. now rewrite Nat.add_succ_r. }
  unfold range_index. now rewrite H.
Qed.

Lemma read_csv_app_one {R : Type} (rd : R -> R) (rows : list R) (r : R) :
  read_csv rd (rows ++ [r]) = read_csv rd rows ++ [(length rows, rd r)].
Proof.
  unfold read_csv. rewrite map_app. cbn [map].
  now rewrite range_index_app_one, length_map.
Qed.

Lemma mapM_app_one {A B : Type} (f : A -> result B) (l : list A) (x : A) (y : B) :
  f x = Ok y ->
  mapM f (l ++ [x]) = bind (mapM f l) (fun l' => Ok (l' ++ [y])).
Proof.
  intros H. induction l as [|a l IH]; simpl.
  - now rewrite H.
  - destruct (f a) as [b|e]; simpl; [|reflexivity].
    rewrite IH. now destruct (mapM f l).
Qed.

Lemma duration_filter_app_one (df : frame (segment cell)) (r : nat * segment cell)
  (r' : nat * segment float) :
  astype_float r = Ok r' ->
  duration_filter (df ++ [r])
  = bind (duration_filter df)
      (fun kept =>
         Ok (kept ++ filter (fun x => in_duration_range (audio_duration (snd x))) [r'])).
Proof.
  intros H. unfold duration_filter. rewrite (mapM_app_one _ _ _ _ H).
  destruct (mapM astype_float df) as [converted|e]; simpl; [|reflexivity].
  now rewrite filter_app.
Qed.

Lemma pd_concat_inv {R : Type} (frames : list (list R)) (rows : list R) :
  pd_concat frames = Ok rows -> rows = concat frames /\ frames <> [].
Proof.
  destruct frames; simpl; [discriminate|]. intros H. injection H as <-.
  split; [reflexivity | discriminate].
Qed.

Lemma dict_get_key {V : Type} (d : dict V) (k : string) (v : V) :
  dict_get k d = Some v -> In k (keys d).
Proof. intros H. apply dict_get_In in H. now apply (in_map fst) in H. Qed.

Section PipelineFacts.
Context {RS : RandomState}.

(** The sampler only returns rows of its input. *)
Lemma sampled_rows_valid (T : nat) (valid : list valid_segment) (g0 : rng)
  (r : valid_segment) :
  NoDup (map v_index valid) ->
  In r (concat (fst (stratified_sample T valid g0))) -> In r valid.
Proof.
  intros Hn Hr.
  pose proof (sampling_loop_spec T (Counter (map strata valid)) valid
                (seed RANDOM_SEED)) as Hs.
  destruct (selections_facts T valid _ _ Hn
              (NoDup_keys_Counter (map strata valid)) Hs) as (_ & _ & Hin).
  now apply Hin.
Qed.

(** Every joined row comes from an in-range input row whose parent id is a
    catalog identifier. *)
Lemma joined_row_resolved (catalog : list catalog_entry)
  (rows : list (segment cell)) (in_range : frame (segment float))
  (catalog_df : list catalog_row) (v : valid_segment) :
  duration_filter (read_csv read_segment rows) = Ok in_range ->
  mapM enrich (map read_entry catalog) = Ok catalog_df ->
  In v (join (id_to_strata_of catalog_df) in_range) ->
  exists raw,
    nth_error rows (v_index v) = Some raw
    /\ file_name (v_segment v) = file_name raw
    /\ original_id v = extract_original_id (file_name raw)
    /\ In (original_id v) (map ID catalog)
    /\ dict_get (original_id v) (id_to_strata_of catalog_df) = Some (strata v).
Proof.
  intros Hf Hc Hv. apply in_join in Hv. destruct Hv as (r' & Hr' & Hj).
  apply join_row_inv in Hj. destruct Hj as (Hi & Hs & Ho & Hg).
  destruct (duration_filter_inv _ _ Hf) as [_ Hk].
  destruct (Hk r' Hr') as ([i row] & Hin & Ha & _).
  apply astype_float_inv in Ha. simpl in Ha. destruct Ha as (Hfst & Hname & _).
  apply in_read_csv in Hin. destruct Hin as (raw & Hin & ->). exists raw.
  change (file_name (read_segment raw)) with (file_name raw) in Hname.
  rewrite Hi, Hfst, Hs, Ho, Hname. repeat split; auto.
  - rewrite <- (read_entry_ids catalog), <- (enrich_entries _ _ Hc), map_map.
    apply id_to_strata_keys. rewrite Ho, Hname in Hg.
    exact (dict_get_key _ _ _ Hg).
  - now rewrite Ho, Hname in Hg.
Qed.

Lemma valid_index_NoDup (rows : list (segment cell)) (in_range : frame (segment float))
  (d : dict string) :
  duration_filter (read_csv read_segment rows) = Ok in_range ->
  NoDup (map v_index (join d in_range)).
Proof.
  intros Hf. apply NoDup_join_index.
  destruct (duration_filter_inv _ _ Hf) as [Hn _]. apply Hn, NoDup_read_csv.
Qed.


End PipelineFacts.

Lemma example_main : @main lcg example_catalog example_segments 0 = Ok example_out.
Proof. vm_compute. reflexivity. Qed.


Lemma duration_category_values (secs : Z) :
  In (duration_category secs) ["short"; "medium"; "long"].
Proof.
  unfold duration_category.
  destruct (secs <? 300); [now left|].
  destruct (secs <? 900); [right; now left | right; right; now left].
Qed.

Lemma extract_content_type_values (name : string) :
  In (extract_content_type name) ["Q&A"; "Practice"; "Prayer"; "Teaching"].
Proof.
  unfold extract_content_type.
  destruct (PyStr.contains "qa" (PyStr.lower name)); [now left|].
  destruct (PyStr.contains "practice" (PyStr.lower name)); [right; now left|].
  destruct (PyStr.contains "dedication" (PyStr.lower name)
            || PyStr.contains "prayer" (PyStr.lower name));
    [right; right; now left | right; right; right; now left].
Qed.

Lemma Ok_inj {A : Type} (a b : A) : Ok a = Ok b -> a = b.
Proof. intros H. now injection H. Qed.

Lemma dict_get_id_upload_row (has_transcript : bool) (b : benchmark_row) (id : Z) :
  dict_get "id" (upload_row has_transcript b id) = Some (VInt id).
Proof. reflexivity. Qed.

Section OutputFacts.
Context {RS : RandomState}.

(** C7: in the ingestion table the identifiers are 2159570, 2159571, ...
    in row order, one per row of the selection, so they are contiguous and
    strictly increasing by 1 from the base value with no gap and no repeat;
    and every row has the columns file_name, url, inference_transcript,
    audio_duration, group_id, state, id in this order, with group_id 33 and
    state "transcribing". *)
Theorem formatted_output_sequential_ids (catalog : list catalog_entry)
  (segments : segments_csv) (g0 : rng) (out : outputs) :
  main catalog segments g0 = Ok out ->
  length (formatted_output out) = length (benchmark_df out)
  /\ map (dict_get "id") (formatted_output out)
     = map (fun i => Some (VInt (2159570 + Z.of_nat i)))
         (seq 0 (length (benchmark_df out)))
  /\ forall i b,
      nth_error (benchmark_df out) i = Some b ->
      nth_error (formatted_output out) i
      = Some [("file_name", VStr (file_name (v_segment (b_valid b))));
              ("url", VStr (url (v_segment (b_valid b))));
              ("inference_transcript",
                if has_inference_transcript segments
                then value_of_cell (inference_transcript (v_segment (b_valid b)))
                else VStr "");
              ("audio_duration", VFloat (audio_duration (v_segment (b_valid b))));
              ("group_id", VInt 33);
              ("state", VStr "transcribing");
              ("id", VInt (2159570 + Z.of_nat i))].
Proof.
  intros Hm.
  destruct (main_inv _ _ _ _ Hm) as (_ & _ & _ & _ & _ & _ & _ & _ & _ & Hf & _).
  rewrite format_for_upload_rows in Hf. apply Ok_inj in Hf. rewrite <- Hf. clear Hf.
  split; [|split].
  - rewrite length_map, length_combine, length_seq. apply Nat.min_id.
  - rewrite map_map. generalize 0%nat.
    induction (benchmark_df out) as [|b df IH]; intros a; [reflexivity|].
    cbn [length seq combine map fst snd]. rewrite IH.
    rewrite dict_get_id_upload_row. reflexivity.
  - intros i b Hi. rewrite nth_error_map, (nth_error_combine_seq _ 0%nat i b Hi).
    cbn [option_map fst snd Nat.add]. reflexivity.
Qed.

(** C8, as amended: for every row of the selected-segment table, and so
    for every entry of the nested list built from it, the parent id is the
    identifier of exactly one catalog entry; the stratum key and the three
    labels of the row are those of that entry, the default "Unknown" is never
    used; the duration bucket is one of short, medium, long and the content
    type is one of Q&A, Practice, Prayer, Teaching.  The age group is the
    catalog entry's own age label, whatever it is. *)
Theorem output_rows_resolved (catalog : list catalog_entry)
  (segments : segments_csv) (g0 : rng) (out : outputs) :
  main catalog segments g0 = Ok out ->
  benchmark_json out
  = map (json_of (has_inference_transcript segments)) (benchmark_df out)
  /\ forall b, In b (benchmark_df out) ->
       exists e secs name,
         filter (fun e' => String.eqb (ID e') (original_id (b_valid b))) catalog = [e]
         /\ parse_duration (read_field (Original_Full_Audio_Duration e)) = Ok secs
         /\ read_field (Filename e) = Text name
         /\ strata (b_valid b)
            = strata_key (AGE e) (duration_category secs)
                (extract_content_type name)
         /\ age_group b = AGE e
         /\ b_duration_category b = duration_category secs
         /\ b_content_type b = extract_content_type name
         /\ In (b_duration_category b) ["short"; "medium"; "long"]
         /\ In (b_content_type b) ["Q&A"; "Practice"; "Prayer"; "Teaching"].
Proof.
  intros Hm.
  destruct (main_inv _ _ _ _ Hm)
    as (in_range & catalog_df & m & selected & Hf & Hc & Hmeta & Hs & Hb & _ & _ & _ & Hj).
  split; [exact Hj|]. intros b Hin. rewrite Hb in Hin.
  apply in_map_iff in Hin. destruct Hin as (v & <- & Hv).
  apply pd_concat_inv in Hs. destruct Hs as [-> _].
  apply sampled_rows_valid in Hv;
    [|now apply valid_index_NoDup with (rows := segment_rows segments)].
  destruct (joined_row_resolved _ _ _ _ _ Hf Hc Hv) as (raw & _ & _ & _ & Hid & Hg).
  pose proof (enrich_entries _ _ Hc) as He.
  destruct (id_to_metadata_inv _ _ Hmeta) as [Hn Hget].
  rewrite <- read_entry_ids, <- He, map_map in Hid. apply in_map_iff in Hid.
  destruct Hid as (c & Eid & Hcin).
  pose proof (id_to_strata_get _ _ Hn Hcin) as Hst. rewrite Eid, Hg in Hst.
  injection Hst as Hst.
  pose proof (Hget c Hcin) as Hmd. rewrite Eid in Hmd.
  destruct (Forall2_in_r _ _ _ _ (mapM_ok_inv _ _ _ Hc) Hcin) as (e' & Hein & Hen).
  apply in_map_iff in Hein. destruct Hein as (e & <- & Hein).
  destruct (enrich_inv _ _ Hen) as (secs & name & Hp & Hname & Ec).
  subst c. cbn [entry read_entry ID Filename Original_Full_Audio_Duration AGE]
    in Eid, Hp, Hname |- *.
  exists e, secs, name.
  unfold add_metadata, get_label.
  cbn [b_valid age_group b_duration_category b_content_type].
  rewrite Hmd, Hst. unfold metadata_of.
  cbn [entry c_strata c_duration_category c_content_type
       m_AGE m_duration_category m_content_type].
  split.
  { rewrite <- Eid. apply filter_unique; [|exact Hein].
    unfold catalog_ids in Hn.
    now rewrite <- (map_map entry ID), He, read_entry_ids in Hn. }
  split; [exact Hp|]. split; [exact Hname|]. split; [reflexivity|].
  split; [reflexivity|]. split; [reflexivity|]. split; [reflexivity|].
  split; [apply duration_category_values | apply extract_content_type_values].
Qed.

(** C9, as amended: when the segments table has no transcript column, every
    row of the ingestion table and every entry of the nested list has the
    empty string as its transcript, and the missing column never makes the run
    fail: a run that succeeds with the column succeeds without it. *)
Theorem missing_transcript_empty_string (catalog : list catalog_entry)
  (rows : list (segment cell)) (g0 : rng) :
  let without := {| has_inference_transcript := false; segment_rows := rows |} in
  let with_column := {| has_inference_transcript := true; segment_rows := rows |} in
  (forall out,
      main catalog without g0 = Ok out ->
      Forall (fun row => dict_get "inference_transcript" row = Some (VStr ""))
        (formatted_output out)
      /\ Forall (fun j => j_transcript j = VStr "") (benchmark_json out))
  /\ (forall out',
      main catalog with_column g0 = Ok out' ->
      exists out, main catalog without g0 = Ok out).
Proof.
  intros without with_column. split.
  - intros out Hm.
    destruct (main_inv _ _ _ _ Hm) as (_ & _ & _ & _ & _ & _ & _ & _ & _ & Hf & _ & _ & Hj).
    rewrite format_for_upload_rows in Hf. apply Ok_inj in Hf.
    rewrite <- Hf, Hj. split; apply Forall_forall.
    + intros row Hin. apply in_map_iff in Hin. destruct Hin as (ib & <- & _).
      reflexivity.
    + intros j Hin. apply in_map_iff in Hin. destruct Hin as (b & <- & _).
      reflexivity.
  - intros out'. unfold main. simpl segment_rows. simpl has_inference_transcript.
    destruct (duration_filter (read_csv read_segment rows)) as [in_range|e];
      cbn [bind]; [|discriminate].
    destruct (enrich_catalog _) as [catalog_df|e]; cbn [bind]; [|discriminate].
    destruct (id_to_metadata_of catalog_df) as [m|e]; cbn [bind]; [|discriminate].
    destruct (pd_concat _) as [selected|e]; cbn [bind]; [|discriminate].
    rewrite !format_for_upload_rows. cbn [bind]. intros _. eexists; reflexivity.
Qed.

End OutputFacts.

Lemma formatted_output_sequential_ids_witness :
  length (formatted_output example_out) = 3%nat
  /\ map (dict_get "id") (formatted_output example_out)
     = [Some (VInt 2159570); Some (VInt 2159571); Some (VInt 2159572)].
Proof.
  destruct (@formatted_output_sequential_ids lcg example_catalog example_segments 0
              example_out example_main) as (Hlen & Hids & _).
  split; [exact Hlen | exact Hids].
Defined.

Lemma output_rows_resolved_witness :
  Forall
    (fun b =>
       exists e, filter (fun e' => String.eqb (ID e') (original_id (b_valid b)))
                   example_catalog = [e]
                 /\ age_group b = AGE e)
    (benchmark_df example_out).
Proof.
  apply Forall_forall. intros b Hb.
  destruct (proj2 (@output_rows_resolved lcg example_catalog example_segments 0
                     example_out example_main) b Hb)
    as (e & secs & name & Hone & _ & _ & _ & Hage & _).
  exists e. split; [exact Hone | exact Hage].
Defined.

(** Against C8 as stated: the age label of an output row is missing, or is
    "Unknown", when the catalog entry has it so. *)
Lemma output_row_age_unresolved :
  @main lcg example_catalog example_segments 0 = Ok example_out
  /\ map age_group (benchmark_df example_out)
     = [Some "Adult"; None; Some "Unknown"]
  /\ map (fun j => j_age_group (j_metadata j)) (benchmark_json example_out)
     = [Some "Adult"; None; Some "Unknown"].
Proof.
  split; [vm_compute; reflexivity|]. split; reflexivity.
Qed.

Lemma missing_transcript_empty_string_witness :
  Forall (fun row => dict_get "inference_transcript" row = Some (VStr ""))
    (formatted_output example_out)
  /\ Forall (fun j => j_transcript j = VStr "") (benchmark_json example_out)
  /\ exists out, @main lcg example_catalog example_segments 0 = Ok out.
Proof.
  destruct (@missing_transcript_empty_string lcg example_catalog example_rows 0)
    as [Hempty Hrun].
  destruct (Hempty example_out example_main) as [Hf Hj].
  split; [exact Hf|]. split; [exact Hj|].
  apply (Hrun example_out_with_column).
  vm_compute. reflexivity.
Defined.

(** Against C9 as stated: in a table that has the transcript column, a
    selected segment whose transcript cell is empty gets a missing value
    (NaN), not the empty string, in the nested list; the ingestion table
    holds the same missing value. *)
Lemma empty_transcript_cell_is_nan :
  @main lcg example_catalog example_segments_with_column 0
  = Ok example_out_with_column
  /\ map (fun b => inference_transcript (v_segment (b_valid b)))
       (benchmark_df example_out_with_column)
     = [None; None; None]
  /\ map j_transcript (benchmark_json example_out_with_column)
     = [VFloat NaN; VFloat NaN; VFloat NaN]
  /\ map (dict_get "inference_transcript") (formatted_output example_out_with_column)
     = [Some (VFloat NaN); Some (VFloat NaN); Some (VFloat NaN)].
Proof.
  split; [vm_compute; reflexivity|]. repeat split; reflexivity.
Qed.

(** A transcript cell that is empty, in a table that has the column, is not
    replaced: it stays a missing value in the ingestion table and in the
    nested list. *)
Lemma empty_transcript_cell_kept (b : benchmark_row) (id : Z) :
  inference_transcript (v_segment (b_valid b)) = None ->
  dict_get "inference_transcript" (upload_row true b id) = Some (VFloat NaN)
  /\ j_transcript (json_of true b) = VFloat NaN.
Proof.
  intros H. unfold upload_row, json_of. cbn [j_transcript].
  rewrite H. split; reflexivity.
Qed.

(** * Further properties *)

Open Scope string_scope.
Open Scope Z_scope.

(** ** Duration buckets *)




(** ** Parent ids of parent ids *)

Lemma re_digits_underscore_end (k : nat) (ds : list string) :
  forallb PyStr.is_decimal ds = true -> re_digits_underscore k ds [] = None.
Proof.
  intros H. induction k as [|k IH]; [reflexivity|].
  cbn [re_digits_underscore]. rewrite app_nil_r.
  now rewrite (proj2 (join_decimal_start _ (forallb_skipn _ (S k) _ H))).
Qed.

Lemma re_match_original_id_token (ds : string) :
  decimal_digits ds = true -> re_match_original_id ("STT_GR_" ++ ds) = None.
Proof.
  intros H. unfold re_match_original_id, decimal_digits in *.
  rewrite after_literal_append.
  rewrite <- (app_nil_r (PyStr.chars ds)) at 1.
  rewrite (span_digits_app (PyStr.chars ds) [] H I).
  now rewrite (re_digits_underscore_end _ _ H).
Qed.

(** X2: the parent id of a parent id is the parent id itself: the token
    "STT_GR_<digits>" has no underscore after its digits, so the pattern does
    not match it again. *)
Theorem extract_original_id_idempotent (segment_id : string) :
  extract_original_id (extract_original_id segment_id)
  = extract_original_id segment_id.
Proof.
  destruct (re_match_original_id segment_id) as [g|] eqn:E.
  - assert (extract_original_id segment_id = g) as ->
      by (unfold extract_original_id; now rewrite E).
    destruct (re_match_original_id_inv _ _ E) as (ds & rest & (Hd & _ & _) & ->).
    unfold extract_original_id. now rewrite (re_match_original_id_token ds Hd).
  - assert (extract_original_id segment_id = segment_id) as ->
      by (unfold extract_original_id; now rewrite E).
    unfold extract_original_id. now rewrite E.
Qed.

(** ** The stratum key as a string *)

Lemma length_append (a b : string) :
  String.length (a ++ b) = (String.length a + String.length b)%nat.
Proof. induction a as [|c a IH]; simpl; [reflexivity | now rewrite IH]. Qed.

Lemma drop_append (x s : string) (n : nat) :
  PyStr.drop (String.length x + n) (x ++ s) = PyStr.drop n s.
Proof. induction x as [|c x IH]; simpl; [reflexivity | exact IH]. Qed.

Lemma take_append (x s : string) : PyStr.take (String.length x) (x ++ s) = x.
Proof. induction x as [|c x IH]; simpl; [reflexivity | now rewrite IH]. Qed.

Lemma append_inv_tail (x y s : string) : x ++ s = y ++ s -> x = y.
Proof.
  intros H. pose proof (f_equal String.length H) as Hl.
  rewrite !length_append in Hl.
  rewrite <- (take_append x s), H.
  replace (String.length x) with (String.length y) by lia.
  apply take_append.
Qed.

Lemma append_eq_is_suffix (x y s1 s2 : string) :
  x ++ s1 = y ++ s2 -> (String.length s1 <= String.length s2)%nat ->
  is_suffix s1 s2 = true.
Proof.
  intros H Hle. unfold is_suffix. apply andb_true_iff. split.
  - now apply Nat.leb_le.
  - apply String.eqb_eq.
    pose proof (f_equal String.length H) as Hl. rewrite !length_append in Hl.
    pose proof (drop_append y s2 (String.length s2 - String.length s1)) as Hd.
    rewrite <- H in Hd.
    replace (String.length y + (String.length s2 - String.length s1))%nat
      with (String.length x + 0)%nat in Hd by lia.
    rewrite drop_append in Hd. change (PyStr.drop 0 s1) with s1 in Hd.
    now symmetry.
Qed.

(** With suffixes taken from a suffix-free list, a string splits in one way
    only. *)
Lemma append_suffix_free (cands : list string) (x y s1 s2 : string) :
  suffix_free cands = true -> In s1 cands -> In s2 cands ->
  x ++ s1 = y ++ s2 -> x = y /\ s1 = s2.
Proof.
  intros Hf H1 H2 H.
  assert (s1 = s2) as E.
  { unfold suffix_free in Hf. rewrite forallb_forall in Hf.
    destruct (Nat.le_ge_cases (String.length s1) (String.length s2)) as [Hle|Hle].
    - pose proof (Hf s1 H1) as Hs. rewrite forallb_forall in Hs.
      specialize (Hs s2 H2). rewrite (append_eq_is_suffix x y s1 s2 H Hle) in Hs.
      rewrite orb_false_r in Hs. now apply String.eqb_eq.
    - pose proof (Hf s2 H2) as Hs. rewrite forallb_forall in Hs.
      specialize (Hs s1 H1).
      rewrite (append_eq_is_suffix y x s2 s1 (eq_sym H) Hle) in Hs.
      rewrite orb_false_r in Hs. symmetry. now apply String.eqb_eq. }
  subst s2. split; [|reflexivity]. exact (append_inv_tail x y s1 H).
Qed.

Lemma strata_key_parts (a1 a2 : option string) (dc1 dc2 ct1 ct2 : string) :
  In dc1 ["short"; "medium"; "long"] -> In dc2 ["short"; "medium"; "long"] ->
  In ct1 ["Q&A"; "Practice"; "Prayer"; "Teaching"] ->
  In ct2 ["Q&A"; "Practice"; "Prayer"; "Teaching"] ->
  strata_key a1 dc1 ct1 = strata_key a2 dc2 ct2 ->
  str_of_cell a1 = str_of_cell a2 /\ dc1 = dc2 /\ ct1 = ct2.
Proof.
  intros Hd1 Hd2 Hc1 Hc2 H. unfold strata_key in H.
  rewrite <- !append_assoc in H.
  destruct (append_suffix_free ["Q&A"; "Practice"; "Prayer"; "Teaching"]
              _ _ ct1 ct2 eq_refl Hc1 Hc2 H) as [H' Ec].
  apply append_inv_tail in H'.
  destruct (append_suffix_free ["short"; "medium"; "long"]
              _ _ dc1 dc2 eq_refl Hd1 Hd2 H') as [H'' Ed].
  apply append_inv_tail in H''. auto.
Qed.

(** X3: two catalog rows have the same stratum key exactly when they agree
    on the text of the age label, on the duration bucket and on the content
    type: joining the three with "__" loses nothing of the bucket and the
    type.  A missing age and the age "nan" give the same text. *)
Theorem strata_key_injective (e1 e2 : catalog_entry) (c1 c2 : catalog_row) :
  enrich e1 = Ok c1 -> enrich e2 = Ok c2 ->
  (c_strata c1 = c_strata c2
   <-> str_of_cell (AGE e1) = str_of_cell (AGE e2)
       /\ c_duration_category c1 = c_duration_category c2
       /\ c_content_type c1 = c_content_type c2).
Proof.
  intros H1 H2.
  destruct (enrich_inv _ _ H1) as (s1 & n1 & _ & _ & ->).
  destruct (enrich_inv _ _ H2) as (s2 & n2 & _ & _ & ->).
  cbn [c_strata c_duration_category c_content_type]. split.
  - apply strata_key_parts;
      apply duration_category_values || apply extract_content_type_values.
  - intros (Ha & Hd & Hc). unfold strata_key. now rewrite Ha, Hd, Hc.
Qed.

Lemma strata_key_injective_witness :
  exists c1 c2,
    enrich {| ID := "A"; Filename := Text "Evening prayer";
              Original_Full_Audio_Duration := Missing; AGE := None |} = Ok c1
    /\ enrich {| ID := "B"; Filename := Text "Prayer flags";
                 Original_Full_Audio_Duration := Text "00:01:00";
                 AGE := Some "nan" |} = Ok c2
    /\ c_strata c1 = c_strata c2.
Proof.
  pose (e1 := {| ID := "A"; Filename := Text "Evening prayer";
                 Original_Full_Audio_Duration := Missing; AGE := None |}).
  pose (e2 := {| ID := "B"; Filename := Text "Prayer flags";
                 Original_Full_Audio_Duration := Text "00:01:00";
                 AGE := Some "nan" |}).
  fold e1 e2.
  destruct (enrich e1) as [c1|x] eqn:E1; [|discriminate E1].
  destruct (enrich e2) as [c2|x] eqn:E2; [|discriminate E2].
  exists c1, c2. split; [reflexivity|]. split; [reflexivity|].
  apply (proj2 (strata_key_injective e1 e2 c1 c2 E1 E2)).
  vm_compute in E1, E2. injection E1 as <-. injection E2 as <-.
  repeat split.
Defined.

Open Scope list_scope.

(** ** When the pipeline runs *)

(** When every cell converts, the conversion succeeds on every row. *)
Lemma duration_filter_numeric (df : frame (segment cell)) :
  (forall r, In r df -> is_ok (to_float (audio_duration (snd r))) = true) ->
  duration_filter df
  = Ok (filter (fun r => in_duration_range (audio_duration (snd r)))
          (map (fun r => (fst r,
                          with_duration (snd r) (cell_float (audio_duration (snd r)))))
             df)).
Proof.
  intros H. unfold duration_filter.
  rewrite (mapM_total astype_float
             (fun r => (fst r, with_duration (snd r) (cell_float (audio_duration (snd r)))))).
  - reflexivity.
  - intros r Hr. apply astype_float_cell. now apply H.
Qed.

Lemma duration_filter_ok_numeric (df : frame (segment cell))
  (kept : frame (segment float)) :
  duration_filter df = Ok kept ->
  forall r, In r df -> is_ok (to_float (audio_duration (snd r))) = true.
Proof.
  intros H r Hr.
  destruct (to_float (audio_duration (snd r))) as [x|e] eqn:E; [reflexivity|].
  assert (duration_filter df = Raise ValueError) as H'; [|congruence].
  unfold duration_filter.
  rewrite (mapM_raise astype_float ValueError); [reflexivity | | ].
  - intros x e'. apply astype_float_error.
  - exists r. split; [exact Hr|]. unfold astype_float. rewrite E. simpl.
    now rewrite (to_float_error _ _ E).
Qed.

(** The rows that pass the filter, by their position in the table. *)
Lemma in_duration_filter (rows : list (segment cell)) (kept : frame (segment float))
  (i : nat) (r : segment float) :
  duration_filter (read_csv read_segment rows) = Ok kept ->
  (In (i, r) kept
   <-> exists raw q,
       nth_error rows i = Some raw
       /\ to_float (audio_duration raw) = Ok (Finite q)
       /\ (1 # 2 <= q)%Q /\ (q <= 30 # 1)%Q
       /\ r = with_duration raw (Finite q)).
Proof.
  intros Hk. pose proof (duration_filter_ok_numeric _ _ Hk) as Hnum.
  rewrite (duration_filter_numeric _ Hnum) in Hk.
  apply Ok_inj in Hk. subst kept.
  rewrite filter_In, in_map_iff. simpl. split.
  - intros [([i' row] & E & Hin) Hr]. simpl in E. injection E as -> <-.
    pose proof (Hnum _ Hin) as Hok. simpl in Hok.
    apply in_read_csv in Hin. destruct Hin as (raw & Hin & ->).
    simpl in Hr.
    apply in_duration_range_iff in Hr. destruct Hr as (q & Hq & H1 & H2).
    exists raw, q. repeat split; auto.
    + apply read_field_finite. unfold cell_float in Hq.
      destruct (to_float (read_field (audio_duration raw))) as [x|e]; [|discriminate].
      now rewrite Hq.
    + simpl. now rewrite Hq.
  - intros (raw & q & Hn & Hd & H1 & H2 & ->). split.
    + exists (i, read_segment raw). split; [|apply in_read_csv; now exists raw].
      cbn [fst snd read_segment audio_duration]. unfold cell_float.
      now rewrite (proj2 (read_field_finite _ _) Hd).
    + simpl. apply in_duration_range_iff. now exists q.
Qed.

Section RunFacts.
Context {RS : RandomState}.

Lemma sampling_loop_length (T : nat) (items : dict nat)
  (valid : list valid_segment) (g : rng) :
  length (fst (sampling_loop T items valid g)) = length items.
Proof.
  revert g; induction items as [|[k n] items IH]; intros g; simpl; [reflexivity|].
  destruct (select_stratum T (stratum_rows k valid) g) as [selected g1].
  specialize (IH g1). destruct (sampling_loop T items valid g1) as [more g2].
  simpl in *. now rewrite IH.
Qed.

(** There is something to concatenate exactly when a segment is valid. *)
Lemma pd_concat_selections (T : nat) (valid : list valid_segment) (g0 : rng) :
  (valid <> [] ->
   pd_concat (fst (stratified_sample T valid g0))
   = Ok (concat (fst (stratified_sample T valid g0))))
  /\ (valid = [] ->
      pd_concat (fst (stratified_sample T valid g0)) = Raise ValueError).
Proof.
  split.
  - intros Hne.
    destruct (fst (stratified_sample T valid g0)) as [|s l] eqn:E; [|reflexivity].
    pose proof (sampling_loop_length T (Counter (map strata valid)) valid
                  (seed RANDOM_SEED)) as Hl.
    change (fst (sampling_loop T (Counter (map strata valid)) valid (seed RANDOM_SEED)))
      with (fst (stratified_sample T valid g0)) in Hl.
    rewrite E in Hl. simpl in Hl.
    destruct valid as [|r valid]; [now elim Hne|].
    assert (In (strata r) (keys (Counter (map strata (r :: valid))))) as Hin
      by (apply in_keys_Counter; now left).
    unfold keys in Hin.
    destruct (Counter (map strata (r :: valid))); [contradiction | discriminate].
  - intros ->. reflexivity.
Qed.

(** Every joined row, with the input row it comes from. *)
Lemma joined_row_origin (catalog : list catalog_entry)
  (rows : list (segment cell)) (in_range : frame (segment float))
  (catalog_df : list catalog_row) (v : valid_segment) :
  duration_filter (read_csv read_segment rows) = Ok in_range ->
  mapM enrich (map read_entry catalog) = Ok catalog_df ->
  (In v (join (id_to_strata_of catalog_df) in_range)
   <-> exists raw q s,
       nth_error rows (v_index v) = Some raw
       /\ to_float (audio_duration raw) = Ok (Finite q)
       /\ (1 # 2 <= q)%Q /\ (q <= 30 # 1)%Q
       /\ dict_get (extract_original_id (file_name raw)) (id_to_strata_of catalog_df)
          = Some s
       /\ v = {| v_index := v_index v;
                 v_segment := with_duration raw (Finite q);
                 original_id := extract_original_id (file_name raw);
                 strata := s |}).
Proof.
  intros Hf Hc. rewrite in_join. split.
  - intros ([i r] & Hin & Hj).
    apply (in_duration_filter rows in_range i r Hf) in Hin.
    destruct Hin as (raw & q & Hn & Hd & H1 & H2 & ->).
    unfold join_row in Hj. simpl in Hj.
    destruct (dict_get (extract_original_id (file_name raw))
                (id_to_strata_of catalog_df)) as [s|] eqn:E; [|discriminate].
    injection Hj as <-. simpl. exists raw, q, s. repeat split; auto.
  - intros (raw & q & s & Hn & Hd & H1 & H2 & Hg & Hv).
    exists (v_index v, with_duration raw (Finite q)). split.
    + apply (in_duration_filter rows in_range _ _ Hf). now exists raw, q.
    + unfold join_row. simpl. rewrite Hg. f_equal. symmetry. exact Hv.
Qed.

Lemma catalog_lookup (catalog : list catalog_entry) (catalog_df : list catalog_row)
  (k : string) :
  mapM enrich (map read_entry catalog) = Ok catalog_df ->
  (In k (map ID catalog) <-> exists s, dict_get k (id_to_strata_of catalog_df) = Some s).
Proof.
  intros Hc. rewrite <- (read_entry_ids catalog), <- (enrich_entries _ _ Hc), map_map.
  change (map (fun x => ID (entry x)) catalog_df) with (catalog_ids catalog_df).
  rewrite <- id_to_strata_keys. split.
  - intros Hin. destruct (dict_get k (id_to_strata_of catalog_df)) as [s|] eqn:E.
    + now exists s.
    + apply dict_get_None in E. contradiction.
  - intros [s Hs]. exact (dict_get_key _ _ _ Hs).
Qed.

End RunFacts.

Lemma Forall2_in_l {A B : Type} (R : A -> B -> Prop) (l : list A) (l' : list B) (x : A) :
  Forall2 R l l' -> In x l -> exists y, In y l' /\ R x y.
Proof.
  induction 1 as [|x' y l l' Hxy _ IH]; intros Hin; [contradiction|].
  destruct Hin as [->|Hin].
  - exists y. split; [now left | exact Hxy].
  - destruct (IH Hin) as (y' & Hy' & Hr). exists y'. split; [now right | exact Hr].
Qed.

Section RunTheorems.
Context {RS : RandomState}.

(** [main] from the results of its steps. *)
Lemma main_steps (catalog : list catalog_entry) (segments : segments_csv) (g0 : rng)
  (in_range : frame (segment float)) (catalog_df : list catalog_row)
  (m : dict metadata) (selected : list valid_segment) :
  duration_filter (read_csv read_segment (segment_rows segments)) = Ok in_range ->
  mapM enrich (map read_entry catalog) = Ok catalog_df ->
  id_to_metadata_of catalog_df = Ok m ->
  pd_concat (fst (stratified_sample SEGMENTS_PER_STRATUM
                    (join (id_to_strata_of catalog_df) in_range) g0)) = Ok selected ->
  exists out, main catalog segments g0 = Ok out.
Proof.
  intros Hf Hc Hm Hs. unfold main.
  rewrite read_csv_rows, Hf. cbn [bind].
  rewrite (proj2 (enrich_catalog_rows _ _) Hc). cbn [bind].
  rewrite Hm. cbn [bind].
  rewrite Hs. cbn [bind]. rewrite format_for_upload_rows. cbn [bind].
  eexists. reflexivity.
Qed.

(** X4: what a run that returns its tables has met on its way: every
    duration field of the segments table is read as a float, every catalog
    duration parses and every catalog file name is text, the catalog
    identifiers are pairwise distinct, and at least one segment has a duration
    in range and a parent id in the catalog.  And the first of these steps: a
    duration field that does not convert makes [main] raise [ValueError]. *)
Theorem main_success_requires (catalog : list catalog_entry) (segments : segments_csv)
  (g0 : rng) :
  (forall out,
      main catalog segments g0 = Ok out ->
      (forall raw, In raw (segment_rows segments) ->
                   exists d, to_float (read_field (audio_duration raw)) = Ok d)
      /\ (forall e, In e catalog ->
             exists secs name,
               parse_duration (read_field (Original_Full_Audio_Duration e)) = Ok secs
               /\ read_field (Filename e) = Text name)
      /\ NoDup (map ID catalog)
      /\ (exists raw q,
             In raw (segment_rows segments)
             /\ to_float (audio_duration raw) = Ok (Finite q)
             /\ (1 # 2 <= q)%Q /\ (q <= 30 # 1)%Q
             /\ In (extract_original_id (file_name raw)) (map ID catalog)))
  /\ ((exists raw e, In raw (segment_rows segments)
                     /\ to_float (read_field (audio_duration raw)) = Raise e) ->
      main catalog segments g0 = Raise ValueError).
Proof.
  assert (forall raw, In raw (segment_rows segments) ->
            exists i, In (i, read_segment raw)
                        (read_csv read_segment (segment_rows segments))) as Hrow.
  { intros raw Hin. destruct (In_nth_error _ _ Hin) as [i Hi]. exists i.
    apply in_read_csv. now exists raw. }
  split.
  - intros out Hm.
    destruct (main_inv _ _ _ _ Hm)
      as (in_range & catalog_df & m & selected & Hf & Hc & Hmeta & Hs & _).
    split; [|split; [|split]].
    + intros raw Hin. destruct (Hrow raw Hin) as [i Hi].
      pose proof (duration_filter_ok_numeric _ _ Hf (i, read_segment raw) Hi) as Hok.
      cbn [snd read_segment audio_duration] in Hok.
      destruct (to_float (read_field (audio_duration raw))) as [d|e];
        [now exists d | discriminate].
    + intros e He. apply (in_map read_entry) in He.
      destruct (Forall2_in_l _ _ _ _ (mapM_ok_inv _ _ _ Hc) He) as (c & _ & Hen).
      destruct (enrich_inv _ _ Hen) as (secs & name & Hp & Hname & _).
      now exists secs, name.
    + destruct (id_to_metadata_inv _ _ Hmeta) as [Hn _].
      unfold catalog_ids in Hn.
      now rewrite <- (map_map entry ID), (enrich_entries _ _ Hc), read_entry_ids in Hn.
    + destruct (join (id_to_strata_of catalog_df) in_range) as [|v valid] eqn:Ev.
      { rewrite (proj2 (pd_concat_selections SEGMENTS_PER_STRATUM [] g0) eq_refl) in Hs.
        discriminate Hs. }
      assert (In v (join (id_to_strata_of catalog_df) in_range)) as Hv
        by (rewrite Ev; now left).
      apply (joined_row_origin catalog _ _ _ v Hf Hc) in Hv.
      destruct Hv as (raw & q & s & Hn & Hd & H1 & H2 & Hg & _).
      exists raw, q. repeat split; auto.
      * exact (nth_error_In _ _ Hn).
      * apply (catalog_lookup catalog catalog_df _ Hc). now exists s.
  - intros (raw & e & Hin & Hd). unfold main.
    assert (duration_filter (read_csv read_segment (segment_rows segments))
            = Raise ValueError) as ->; [|reflexivity].
    destruct (duration_filter (read_csv read_segment (segment_rows segments)))
      as [kept|e'] eqn:Hf.
    + destruct (Hrow raw Hin) as [i Hi].
      pose proof (duration_filter_ok_numeric _ _ Hf (i, read_segment raw) Hi) as Hok.
      cbn [snd read_segment audio_duration] in Hok.
      rewrite Hd in Hok. discriminate.
    + f_equal. unfold duration_filter in Hf.
      destruct (mapM astype_float (read_csv read_segment (segment_rows segments)))
        as [x|e2] eqn:E; [discriminate|].
      simpl in Hf. injection Hf as <-. clear -E.
      induction (read_csv read_segment (segment_rows segments)) as [|r l IH];
        [discriminate|].
      simpl in E. destruct (astype_float r) as [y|e3] eqn:Er; simpl in E.
      * destruct (mapM astype_float l) as [ys|e4]; simpl in E; [discriminate|].
        injection E as <-. now apply IH.
      * injection E as <-. exact (astype_float_error _ _ Er).
Qed.

End RunTheorems.

Lemma main_success_requires_witness :
  NoDup (map ID example_catalog)
  /\ exists raw, In raw example_rows
                 /\ In (extract_original_id (file_name raw)) (map ID example_catalog).
Proof.
  destruct (proj1 (@main_success_requires lcg example_catalog example_segments 0)
              example_out example_main)
    as (_ & _ & Hnd & raw & q & Hin & _ & _ & _ & Hid).
  split; [exact Hnd|]. now exists raw.
Defined.

(** ** The stratum mapping table *)

Lemma sorted_seq (a n : nat) : StronglySorted lt (seq a n).
Proof.
  revert a; induction n as [|n IH]; intros a; simpl; constructor; [apply IH|].
  apply Forall_forall. intros x Hx. apply in_seq in Hx. lia.
Qed.

Lemma sorted_map_filter {R : Type} (label : R -> nat) (keep : R -> bool)
  (rows : list R) :
  StronglySorted lt (map label rows) ->
  StronglySorted lt (map label (filter keep rows)).
Proof.
  induction rows as [|x l IH]; simpl; intros H; [constructor|].
  apply StronglySorted_inv in H. destruct H as [Hl Hx].
  destruct (keep x); simpl; [|now apply IH].
  constructor; [now apply IH|].
  rewrite Forall_forall in *. intros y Hy. apply Hx.
  apply in_map_iff in Hy. destruct Hy as (z & <- & Hz).
  apply filter_In in Hz. apply in_map. tauto.
Qed.

Lemma sorted_join_index (d : dict string) (rows : frame (segment float)) :
  StronglySorted lt (map fst rows) -> StronglySorted lt (map v_index (join d rows)).
Proof.
  induction rows as [|r rows IH]; intros H; [constructor|].
  simpl in H. apply StronglySorted_inv in H. destruct H as [Hl Hr].
  rewrite join_cons. destruct (join_row d r) as [v|] eqn:E; [|now apply IH].
  simpl. constructor; [now apply IH|].
  rewrite Forall_forall in *. intros i Hi.
  apply in_map_iff in Hi. destruct Hi as (v' & <- & Hv').
  apply in_join in Hv'. destruct Hv' as (r' & Hr' & Ej).
  apply join_row_inv in E, Ej. destruct E as [-> _], Ej as [-> _].
  apply Hr. now apply in_map.
Qed.

Lemma sorted_duration_filter (rows : list (segment cell))
  (kept : frame (segment float)) :
  duration_filter (read_csv read_segment rows) = Ok kept ->
  StronglySorted lt (map fst kept).
Proof.
  intros Hk.
  rewrite (duration_filter_numeric _ (duration_filter_ok_numeric _ _ Hk)) in Hk.
  apply Ok_inj in Hk. subst kept. apply sorted_map_filter.
  rewrite map_map. simpl. change (fun x : nat * segment cell => fst x) with (@fst nat (segment cell)).
  rewrite read_csv_index. apply sorted_seq.
Qed.

Section MappingFacts.
Context {RS : RandomState}.

(** X5: the stratum mapping table holds exactly the rows of the segments
    table whose duration is a number in range and whose parent id is a catalog
    identifier, each with its file name, parent id and duration, in the order
    of the segments table. *)
Theorem strata_mapping_rows (catalog : list catalog_entry) (segments : segments_csv)
  (g0 : rng) (out : outputs) :
  main catalog segments g0 = Ok out ->
  (forall i,
      In i (map mp_index (strata_mapping_df out))
      <-> exists raw q,
          nth_error (segment_rows segments) i = Some raw
          /\ to_float (audio_duration raw) = Ok (Finite q)
          /\ (1 # 2 <= q)%Q /\ (q <= 30 # 1)%Q
          /\ In (extract_original_id (file_name raw)) (map ID catalog))
  /\ (forall m, In m (strata_mapping_df out) ->
        exists raw q,
          nth_error (segment_rows segments) (mp_index m) = Some raw
          /\ mp_file_name m = file_name raw
          /\ mp_original_id m = extract_original_id (file_name raw)
          /\ to_float (audio_duration raw) = Ok (Finite q)
          /\ mp_audio_duration m = Finite q)
  /\ StronglySorted lt (map mp_index (strata_mapping_df out)).
Proof.
  intros Hm.
  destruct (main_inv _ _ _ _ Hm)
    as (in_range & catalog_df & md & selected & Hf & Hc & _ & _ & _ & _ & Hmap & _).
  rewrite Hmap. split; [|split].
  - intros i. rewrite map_map. simpl. rewrite in_map_iff. split.
    + intros (v & <- & Hv).
      apply (joined_row_origin catalog _ _ _ v Hf Hc) in Hv.
      destruct Hv as (raw & q & s & Hn & Hd & H1 & H2 & Hg & _).
      exists raw, q. repeat split; auto.
      apply (catalog_lookup catalog catalog_df _ Hc). now exists s.
    + intros (raw & q & Hn & Hd & H1 & H2 & Hid).
      destruct (proj1 (catalog_lookup catalog catalog_df _ Hc) Hid) as [s Hs].
      exists {| v_index := i; v_segment := with_duration raw (Finite q);
                original_id := extract_original_id (file_name raw);
                strata := s |}.
      split; [reflexivity|].
      apply (joined_row_origin catalog _ _ _ _ Hf Hc).
      exists raw, q, s. repeat split; auto.
  - intros m Hin. apply in_map_iff in Hin. destruct Hin as (v & <- & Hv).
    apply (joined_row_origin catalog _ _ _ v Hf Hc) in Hv.
    destruct Hv as (raw & q & s & Hn & Hd & H1 & H2 & Hg & Ev).
    exists raw, q. unfold mapping_of. cbn [mp_index mp_file_name mp_original_id mp_audio_duration].
    rewrite Ev. simpl. repeat split; auto.
  - rewrite map_map. simpl.
    change (fun x : valid_segment => v_index x) with v_index.
    apply sorted_join_index. exact (sorted_duration_filter _ _ Hf).
Qed.

End MappingFacts.

Lemma strata_mapping_rows_witness :
  map mp_index (strata_mapping_df example_out) = [0%nat; 1%nat; 3%nat]
  /\ StronglySorted lt (map mp_index (strata_mapping_df example_out)).
Proof.
  split; [reflexivity|].
  exact (proj2 (proj2 (@strata_mapping_rows lcg example_catalog example_segments 0
                         example_out example_main))).
Defined.

Open Scope nat_scope.

(** ** Strata counts *)

Lemma Counter_rev (l : list string) :
  Counter l
  = fold_right
      (fun k d => dict_set k (S (match dict_get k d with Some n => n | None => O end)) d)
      [] (rev l).
Proof.
  unfold Counter. symmetry.
  exact (fold_left_rev_right
           (fun k d => dict_set k (S (match dict_get k d with Some n => n | None => O end)) d)
           l []).
Qed.

Lemma keys_Counter_order (l : list string) :
  keys (Counter l) = rev (nodup string_dec (rev l)).
Proof.
  rewrite Counter_rev. induction (rev l) as [|x t IH]; [reflexivity|].
  cbn [fold_right nodup]. destruct (in_dec string_dec x t) as [Hin|Hin].
  - rewrite keys_dict_set_in; [exact IH|].
    rewrite IH. apply (proj1 (in_rev _ _)). now apply nodup_In.
  - rewrite keys_dict_set_new.
    + rewrite IH. reflexivity.
    + rewrite IH. intros H. apply (proj2 (in_rev _ _)) in H.
      now apply nodup_In in H.
Qed.

Lemma dict_get_Counter (l : list string) (k : string) :
  dict_get k (Counter l)
  = match count_occ string_dec l k with
    | O => None
    | S n => Some (S n)
    end.
Proof.
  rewrite Counter_rev.
  rewrite <- (rev_involutive l) at 2. rewrite count_occ_rev.
  induction (rev l) as [|x t IH]; [reflexivity|].
  cbn [fold_right]. rewrite dict_get_set.
  destruct (String.eqb k x) eqn:E.
  - apply String.eqb_eq in E. subst x. rewrite count_occ_cons_eq by reflexivity.
    rewrite IH. now destruct (count_occ string_dec t k).
  - apply String.eqb_neq in E. rewrite count_occ_cons_neq by congruence. exact IH.
Qed.

Lemma stratum_rows_count (k : string) (valid : list valid_segment) :
  length (stratum_rows k valid) = count_occ string_dec (map strata valid) k.
Proof.
  unfold stratum_rows. induction valid as [|r valid IH]; simpl; [reflexivity|].
  destruct (String.eqb (strata r) k) eqn:E.
  - apply String.eqb_eq in E. destruct (string_dec (strata r) k); [|contradiction].
    simpl. now rewrite IH.
  - apply String.eqb_neq in E. destruct (string_dec (strata r) k); [contradiction|].
    exact IH.
Qed.

(** X6: the strata of [strata_counts] come in the order of their first
    occurrence among the valid segments, and the count of a stratum is the
    size of the group that the sampling loop filters for it, never 0. *)
Theorem strata_counts_groups (valid : list valid_segment) :
  keys (Counter (map strata valid))
  = rev (nodup string_dec (rev (map strata valid)))
  /\ forall k n,
      dict_get k (Counter (map strata valid)) = Some n
      <-> n = length (stratum_rows k valid) /\ 1 <= n.
Proof.
  split; [apply keys_Counter_order|].
  intros k n. rewrite dict_get_Counter, stratum_rows_count.
  destruct (count_occ string_dec (map strata valid) k) as [|c].
  - split; [discriminate | lia].
  - split.
    + intros H. injection H as <-. lia.
    + intros [-> _]. reflexivity.
Qed.

Lemma strata_counts_groups_witness :
  dict_get "Adult__short__Teaching" (Counter (map strata example_valid)) = Some 2.
Proof.
  apply (proj2 (strata_counts_groups example_valid)). split; [reflexivity | lia].
Defined.

(** ** What each stratum gets *)

Lemma filter_all {A : Type} (p : A -> bool) (l : list A) :
  (forall x, In x l -> p x = true) -> filter p l = l.
Proof.
  induction l as [|x l IH]; simpl; intros H; [reflexivity|].
  rewrite (H x (or_introl eq_refl)), IH; [reflexivity|].
  intros y Hy. apply H. now right.
Qed.

Lemma filter_none {A : Type} (p : A -> bool) (l : list A) :
  (forall x, In x l -> p x = false) -> filter p l = [].
Proof.
  induction l as [|x l IH]; simpl; intros H; [reflexivity|].
  rewrite (H x (or_introl eq_refl)). apply IH. intros y Hy. apply H. now right.
Qed.

Lemma filter_map_length {A B : Type} (p : B -> bool) (f : A -> B) (l : list A) :
  length (filter p (map f l)) = length (filter (fun x => p (f x)) l).
Proof.
  induction l as [|x l IH]; simpl; [reflexivity|].
  destruct (p (f x)); simpl; now rewrite IH.
Qed.

Lemma map_constant {A B : Type} (f : A -> B) (c : B) (l : list A) :
  (forall x, In x l -> f x = c) -> map f l = repeat c (length l).
Proof.
  induction l as [|x l IH]; simpl; intros H; [reflexivity|].
  rewrite (H x (or_introl eq_refl)), IH; [reflexivity|].
  intros y Hy. apply H. now right.
Qed.

Lemma selections_by_stratum (T : nat) (valid : list valid_segment)
  (ks : list string) (selections : list (list valid_segment)) (k : string) :
  NoDup (map v_index valid) -> NoDup ks ->
  Forall2 (fun k selected => contribution T (stratum_rows k valid) selected)
    ks selections ->
  length (filter (fun r => String.eqb (strata r) k) (concat selections))
  = (if in_dec string_dec k ks
     then Nat.min T (length (stratum_rows k valid)) else 0)
  /\ map strata (concat selections)
     = concat (map (fun k' => repeat k' (Nat.min T (length (stratum_rows k' valid)))) ks).
Proof.
  intros Hn Hks H. induction H as [|k' selected ks sels Hc _ IH].
  - simpl. split; reflexivity.
  - inversion Hks as [|? ? Hk Hks']; subst.
    destruct (IH Hks') as [IHlen IHmap].
    destruct (contribution_facts T valid _ selected k' Hn eq_refl Hc)
      as (Hl & _ & Hin).
    split.
    + cbn [concat]. rewrite filter_app, length_app, IHlen.
      destruct (string_dec k' k) as [->|Hne].
      * rewrite filter_all
          by (intros r Hr; apply String.eqb_eq; now apply Hin).
        destruct (in_dec string_dec k (k :: ks)) as [_|Hx]; [|elim Hx; now left].
        destruct (in_dec string_dec k ks) as [Hx|_]; [contradiction|]. lia.
      * rewrite filter_none.
        2:{ intros r Hr. apply String.eqb_neq. destruct (Hin r Hr) as [_ E].
            congruence. }
        destruct (in_dec string_dec k ks) as [Hx|Hx];
          destruct (in_dec string_dec k (k' :: ks)) as [Hy|Hy]; simpl; try reflexivity.
        -- elim Hy. now right.
        -- destruct Hy as [Hy|Hy]; [congruence | contradiction].
    + cbn [concat map]. rewrite map_app, IHmap. f_equal.
      rewrite (map_constant strata k') by (intros r Hr; now apply Hin).
      now rewrite Hl.
Qed.

Section StratumFacts.
Context {RS : RandomState}.

Lemma main_selected (catalog : list catalog_entry) (segments : segments_csv)
  (g0 : rng) (out : outputs) :
  main catalog segments g0 = Ok out ->
  exists valid md,
    NoDup (map v_index valid)
    /\ strata_mapping_df out = map mapping_of valid
    /\ benchmark_df out
       = map (add_metadata md)
           (concat (fst (stratified_sample SEGMENTS_PER_STRATUM valid g0))).
Proof.
  intros Hm.
  destruct (main_inv _ _ _ _ Hm)
    as (in_range & catalog_df & md & selected & Hf & _ & _ & Hs & Hb & _ & Hmap & _).
  exists (join (id_to_strata_of catalog_df) in_range), md.
  apply pd_concat_inv in Hs. destruct Hs as [-> _].
  split; [|split; assumption].
  exact (valid_index_NoDup (segment_rows segments) in_range _ Hf).
Qed.

(** In the selection every stratum has its group, cut at [T] rows. *)
Lemma selected_stratum_count (T : nat) (valid : list valid_segment) (g0 : rng)
  (k : string) :
  NoDup (map v_index valid) ->
  length (filter (fun r => String.eqb (strata r) k)
            (concat (fst (stratified_sample T valid g0))))
  = Nat.min T (length (stratum_rows k valid)).
Proof.
  intros Hn.
  pose proof (sampling_loop_spec T (Counter (map strata valid)) valid
                (seed RANDOM_SEED)) as Hs.
  destruct (selections_by_stratum T valid _ _ k Hn
              (NoDup_keys_Counter (map strata valid)) Hs) as [Hlen _].
  change (fst (sampling_loop T (Counter (map strata valid)) valid (seed RANDOM_SEED)))
    with (fst (stratified_sample T valid g0)) in Hlen.
  rewrite Hlen.
  destruct (in_dec string_dec k (keys (Counter (map strata valid)))) as [_|Hx];
    [reflexivity|].
  rewrite in_keys_Counter in Hx.
  rewrite stratum_rows_count.
  rewrite (proj1 (count_occ_not_In string_dec _ _) Hx). now rewrite Nat.min_0_r.
Qed.

(** X7: for every stratum key, the benchmark has min(130, n) rows of that
    stratum, where n is the number of rows of the stratum in the mapping
    table: never more than 130, and at least one for every stratum that has a
    valid segment. *)
Theorem benchmark_stratum_counts (catalog : list catalog_entry)
  (segments : segments_csv) (g0 : rng) (out : outputs) (k : string) :
  main catalog segments g0 = Ok out ->
  let available :=
    length (filter (fun m => String.eqb (mp_strata m) k) (strata_mapping_df out)) in
  let chosen :=
    length (filter (fun b => String.eqb (strata (b_valid b)) k) (benchmark_df out)) in
  chosen = Nat.min 130 available
  /\ chosen <= 130
  /\ (1 <= available -> 1 <= chosen).
Proof.
  intros Hm available chosen.
  assert (chosen = Nat.min 130 available) as E; [|split; [exact E | lia]].
  subst available chosen.
  destruct (main_selected _ _ _ _ Hm) as (valid & md & Hn & -> & ->).
  rewrite !filter_map_length. cbn [mapping_of mp_strata add_metadata b_valid].
  exact (selected_stratum_count SEGMENTS_PER_STRATUM valid g0 k Hn).
Qed.

(** X8: the rows of the benchmark are grouped by stratum, the strata in
    the order of their first occurrence in the mapping table, each with
    min(130, n) rows. *)
Theorem benchmark_grouped_by_stratum (catalog : list catalog_entry)
  (segments : segments_csv) (g0 : rng) (out : outputs) :
  main catalog segments g0 = Ok out ->
  let mapped := map mp_strata (strata_mapping_df out) in
  map (fun b => strata (b_valid b)) (benchmark_df out)
  = concat
      (map (fun k => repeat k (Nat.min 130 (count_occ string_dec mapped k)))
         (rev (nodup string_dec (rev mapped)))).
Proof.
  intros Hm mapped. subst mapped.
  destruct (main_selected _ _ _ _ Hm) as (valid & md & Hn & -> & ->).
  rewrite !map_map. cbn [mapping_of mp_strata add_metadata b_valid].
  change (fun x : valid_segment => strata x) with strata.
  pose proof (sampling_loop_spec SEGMENTS_PER_STRATUM (Counter (map strata valid))
                valid (seed RANDOM_SEED)) as Hs.
  destruct (selections_by_stratum SEGMENTS_PER_STRATUM valid _ _ "" Hn
              (NoDup_keys_Counter (map strata valid)) Hs) as [_ Hmap].
  change (fst (sampling_loop SEGMENTS_PER_STRATUM (Counter (map strata valid)) valid
                 (seed RANDOM_SEED)))
    with (fst (stratified_sample SEGMENTS_PER_STRATUM valid g0)) in Hmap.
  rewrite Hmap, keys_Counter_order. f_equal.
  apply map_ext. intros k'. now rewrite stratum_rows_count.
Qed.

End StratumFacts.

Lemma benchmark_stratum_counts_witness :
  length (filter (fun b => String.eqb (strata (b_valid b)) "nan__short__Prayer")
            (benchmark_df example_out)) = 1.
Proof.
  destruct (@benchmark_stratum_counts lcg example_catalog example_segments 0%Z
              example_out "nan__short__Prayer" example_main) as (_ & _ & H).
  apply Nat.le_antisymm.
  - vm_compute. apply le_n.
  - apply H. vm_compute. apply le_n.
Defined.

Lemma benchmark_grouped_by_stratum_witness :
  map (fun b => strata (b_valid b)) (benchmark_df example_out)
  = ["Adult__medium__Q&A"; "nan__short__Prayer"; "Unknown__long__Teaching"].
Proof.
  exact (@benchmark_grouped_by_stratum lcg example_catalog example_segments 0%Z
           example_out example_main).
Defined.

(** ** Strata as a partition *)

Lemma filter_split_perm {A : Type} (p : A -> bool) (l : list A) :
  Permutation l (filter p l ++ filter (fun x => negb (p x)) l).
Proof.
  induction l as [|x l IH]; simpl; [constructor|].
  destruct (p x); simpl.
  - now constructor.
  - now apply Permutation_cons_app.
Qed.

Lemma filter_filter_other (k k' : string) (l : list valid_segment) :
  k' <> k ->
  stratum_rows k' (filter (fun r => negb (String.eqb (strata r) k)) l)
  = stratum_rows k' l.
Proof.
  intros Hne. unfold stratum_rows. induction l as [|r l IH]; simpl; [reflexivity|].
  destruct (String.eqb (strata r) k) eqn:E; simpl.
  - apply String.eqb_eq in E.
    assert (String.eqb (strata r) k' = false) as ->
      by (apply String.eqb_neq; congruence).
    exact IH.
  - destruct (String.eqb (strata r) k'); now rewrite IH.
Qed.

(** The groups of the strata keys hold every row exactly once. *)
Lemma strata_partition (ks : list string) (l : list valid_segment) :
  NoDup ks -> (forall r, In r l -> In (strata r) ks) ->
  Permutation (concat (map (fun k => stratum_rows k l) ks)) l.
Proof.
  intros Hks. revert l. induction Hks as [|k ks Hk _ IH]; intros l Hl.
  - destruct l as [|r l]; [constructor|]. elim (Hl r (or_introl eq_refl)).
  - cbn [map concat].
    set (rest := filter (fun r => negb (String.eqb (strata r) k)) l).
    transitivity (stratum_rows k l ++ rest);
      [|symmetry; apply filter_split_perm].
    apply Permutation_app_head.
    assert (map (fun k' => stratum_rows k' l) ks
            = map (fun k' => stratum_rows k' rest) ks) as ->.
    { apply map_ext_in. intros k' Hk'. symmetry.
      apply filter_filter_other. intros ->. contradiction. }
    apply IH. intros r Hr. apply filter_In in Hr. destruct Hr as [Hr E].
    apply negb_true_iff, String.eqb_neq in E.
    destruct (Hl r Hr) as [Heq|H]; [elim E; now symmetry | exact H].
Qed.

Lemma Forall2_eq_map {A B : Type} (f : A -> B) (l : list A) (l' : list B) :
  Forall2 (fun x y => y = f x) l l' -> l' = map f l.
Proof. induction 1 as [|x y l l' -> _ IH]; simpl; [reflexivity | now rewrite IH]. Qed.

Section PartitionFacts.
Context {RS : RandomState}.

(** X9: when no stratum has more than [T] segments, nothing is sampled:
    the selections are the groups themselves, in input order, and together
    they hold every valid segment exactly once. *)
Theorem small_strata_kept_whole (T : nat) (valid : list valid_segment) (g0 : rng) :
  (forall k, length (stratum_rows k valid) <= T) ->
  fst (stratified_sample T valid g0)
  = map (fun k => stratum_rows k valid) (keys (Counter (map strata valid)))
  /\ Permutation (concat (fst (stratified_sample T valid g0))) valid.
Proof.
  intros Hsmall.
  assert (fst (stratified_sample T valid g0)
          = map (fun k => stratum_rows k valid) (keys (Counter (map strata valid))))
    as E.
  { apply Forall2_eq_map.
    eapply Forall2_impl;
      [|exact (sampling_loop_spec T (Counter (map strata valid)) valid
                 (seed RANDOM_SEED))].
    intros k selected [Hall _]. exact (Hall (Hsmall k)). }
  split; [exact E|]. rewrite E. apply strata_partition.
  - apply NoDup_keys_Counter.
  - intros r Hr. apply in_keys_Counter. now apply in_map.
Qed.

(** X10: every benchmark row is a row of the stratum mapping table, the
    benchmark is never longer than that table, and it is never empty. *)
Theorem benchmark_within_mapping (catalog : list catalog_entry)
  (segments : segments_csv) (g0 : rng) (out : outputs) :
  main catalog segments g0 = Ok out ->
  incl (map (fun b => mapping_of (b_valid b)) (benchmark_df out))
    (strata_mapping_df out)
  /\ length (benchmark_df out) <= length (strata_mapping_df out)
  /\ 1 <= length (benchmark_df out).
Proof.
  intros Hm.
  destruct (main_selected _ _ _ _ Hm) as (valid & md & Hn & Emap & Eb).
  pose proof (sampling_loop_spec SEGMENTS_PER_STRATUM (Counter (map strata valid))
                valid (seed RANDOM_SEED)) as Hs.
  destruct (selections_facts SEGMENTS_PER_STRATUM valid _ _ Hn
              (NoDup_keys_Counter (map strata valid)) Hs) as (_ & Hnd & Hin).
  change (fst (sampling_loop SEGMENTS_PER_STRATUM (Counter (map strata valid)) valid
                 (seed RANDOM_SEED)))
    with (fst (stratified_sample SEGMENTS_PER_STRATUM valid g0)) in Hnd, Hin.
  set (selected := concat (fst (stratified_sample SEGMENTS_PER_STRATUM valid g0))) in *.
  assert (incl selected valid) as Hincl by (intros r Hr; now apply Hin).
  rewrite Emap, Eb. rewrite map_map. cbn [add_metadata b_valid].
  split; [|split].
  - intros m Hmem. apply in_map_iff in Hmem. destruct Hmem as (r & <- & Hr).
    apply in_map. now apply Hincl.
  - rewrite !length_map. apply NoDup_incl_length; [|exact Hincl].
    exact (NoDup_map_inv _ _ Hnd).
  - rewrite length_map.
    destruct valid as [|r valid'].
    + exfalso.
      destruct (main_inv _ _ _ _ Hm)
        as (ir & cdf & m2 & s2 & _ & _ & _ & Hs2 & _ & _ & Hmap2 & _).
      rewrite Emap in Hmap2. symmetry in Hmap2. apply map_eq_nil in Hmap2.
      rewrite Hmap2 in Hs2.
      rewrite (proj2 (pd_concat_selections SEGMENTS_PER_STRATUM [] g0) eq_refl) in Hs2.
      discriminate.
    + pose proof (selected_stratum_count SEGMENTS_PER_STRATUM (r :: valid') g0
                    (strata r) Hn) as Hc.
      fold selected in Hc.
      assert (1 <= length (stratum_rows (strata r) (r :: valid'))) as H1
        by (unfold stratum_rows; simpl; rewrite String.eqb_refl; simpl; lia).
      pose proof (filter_length_le (fun x => String.eqb (strata x) (strata r)) selected).
      unfold SEGMENTS_PER_STRATUM in Hc. lia.
Qed.

End PartitionFacts.

Lemma small_strata_kept_whole_witness :
  Permutation (concat (fst (@stratified_sample lcg 2 example_valid 0%Z))) example_valid.
Proof.
  apply (@small_strata_kept_whole lcg 2 example_valid 0%Z).
  intros k. rewrite stratum_rows_count.
  cbn [example_valid example_valid_row map strata count_occ].
  destruct (string_dec "Adult__short__Teaching" k) as [<-|H1].
  - vm_compute. lia.
  - destruct (string_dec "Adult__long__Q&A" k); lia.
Defined.

Lemma benchmark_within_mapping_witness :
  length (benchmark_df example_out) <= length (strata_mapping_df example_out).
Proof.
  exact (proj1 (proj2 (@benchmark_within_mapping lcg example_catalog example_segments
                         0%Z example_out example_main))).
Defined.

Open Scope Z_scope.

Lemma map_combine_snd {A B C : Type} (F : A * B -> C) (G : B -> C)
  (l1 : list A) (l2 : list B) :
  length l1 = length l2 -> (forall p, F p = G (snd p)) ->
  map F (combine l1 l2) = map G l2.
Proof.
  intros Hl HF. revert l2 Hl. induction l1 as [|x l1 IH]; intros [|y l2] Hl;
    try discriminate; [reflexivity|].
  simpl. rewrite (HF (x, y)). simpl. f_equal. apply IH. now injection Hl.
Qed.

Section OutputTables.
Context {RS : RandomState}.

(** X11: every duration in the benchmark, in the nested list and in the
    mapping table is a finite number between 0.5 and 30.0: no NaN, no
    infinity and no out-of-range value reaches the outputs. *)
Theorem output_durations_in_range (catalog : list catalog_entry)
  (segments : segments_csv) (g0 : rng) (out : outputs) :
  main catalog segments g0 = Ok out ->
  (forall b, In b (benchmark_df out) ->
     exists q, audio_duration (v_segment (b_valid b)) = Finite q
               /\ (1 # 2 <= q)%Q /\ (q <= 30 # 1)%Q)
  /\ (forall j, In j (benchmark_json out) ->
        exists q, j_duration j = Finite q /\ (1 # 2 <= q)%Q /\ (q <= 30 # 1)%Q)
  /\ (forall m, In m (strata_mapping_df out) ->
        exists q, mp_audio_duration m = Finite q /\ (1 # 2 <= q)%Q /\ (q <= 30 # 1)%Q).
Proof.
  intros Hm.
  destruct (main_inv _ _ _ _ Hm)
    as (in_range & catalog_df & md & selected & Hf & Hc & _ & Hs & Hb & _ & Hmap & _ & Hj).
  assert (forall v, In v (join (id_to_strata_of catalog_df) in_range) ->
            exists q, audio_duration (v_segment v) = Finite q
                      /\ (1 # 2 <= q)%Q /\ (q <= 30 # 1)%Q) as Hv.
  { intros v Hin. apply (joined_row_origin catalog _ _ _ v Hf Hc) in Hin.
    destruct Hin as (raw & q & s & _ & _ & H1 & H2 & _ & ->).
    exists q. simpl. auto. }
  assert (forall b, In b (benchmark_df out) ->
            exists q, audio_duration (v_segment (b_valid b)) = Finite q
                      /\ (1 # 2 <= q)%Q /\ (q <= 30 # 1)%Q) as Hbq.
  { intros b Hin. rewrite Hb in Hin. apply in_map_iff in Hin.
    destruct Hin as (v & <- & Hin). simpl. apply Hv.
    apply pd_concat_inv in Hs. destruct Hs as [-> _].
    eapply sampled_rows_valid; [|exact Hin].
    exact (valid_index_NoDup (segment_rows segments) in_range _ Hf). }
  split; [exact Hbq|]. split.
  - intros j Hin. rewrite Hj in Hin. apply in_map_iff in Hin.
    destruct Hin as (b & <- & Hin). simpl. now apply Hbq.
  - intros m Hin. rewrite Hmap in Hin. apply in_map_iff in Hin.
    destruct Hin as (v & <- & Hin). simpl. now apply Hv.
Qed.

(** X13: a segment whose duration is read as a number out of range, or as
    a missing value, is ignored without error: adding it to the segments table
    changes nothing of what [main] returns. *)
Theorem out_of_range_segment_ignored (catalog : list catalog_entry)
  (segments : segments_csv) (g0 : rng) (raw : segment cell) (d : float) :
  to_float (read_field (audio_duration raw)) = Ok d ->
  in_duration_range d = false ->
  main catalog
    {| has_inference_transcript := has_inference_transcript segments;
       segment_rows := segment_rows segments ++ [raw] |} g0
  = main catalog segments g0.
Proof.
  intros Hd Hr. unfold main. simpl segment_rows. simpl has_inference_transcript.
  rewrite read_csv_app_one.
  assert (astype_float (length (segment_rows segments), read_segment raw)
          = Ok (length (segment_rows segments), with_duration raw d)) as Ha
    by (unfold astype_float; cbn [fst snd read_segment audio_duration];
        now rewrite Hd).
  rewrite (duration_filter_app_one _ _ _ Ha).
  destruct (duration_filter (read_csv read_segment (segment_rows segments)))
    as [in_range|e]; cbn [bind]; [|reflexivity].
  simpl filter. rewrite Hr. now rewrite app_nil_r.
Qed.

(** X14: the ingestion table and the nested list describe the same
    segments in the same order: row by row they agree on file name, url,
    duration and transcript. *)
Theorem outputs_aligned (catalog : list catalog_entry)
  (segments : segments_csv) (g0 : rng) (out : outputs) :
  main catalog segments g0 = Ok out ->
  length (benchmark_json out) = length (formatted_output out)
  /\ map (dict_get "file_name") (formatted_output out)
     = map (fun j => Some (VStr (j_id j))) (benchmark_json out)
  /\ map (dict_get "url") (formatted_output out)
     = map (fun j => Some (VStr (j_url j))) (benchmark_json out)
  /\ map (dict_get "audio_duration") (formatted_output out)
     = map (fun j => Some (VFloat (j_duration j))) (benchmark_json out)
  /\ map (dict_get "inference_transcript") (formatted_output out)
     = map (fun j => Some (j_transcript j)) (benchmark_json out).
Proof.
  intros Hm.
  destruct (main_inv _ _ _ _ Hm) as (_ & _ & _ & _ & _ & _ & _ & _ & _ & Hf & _ & _ & Hj).
  rewrite format_for_upload_rows in Hf. apply Ok_inj in Hf. rewrite <- Hf, Hj.
  clear Hf Hj. rewrite !map_map.
  split.
  { rewrite !length_map, length_combine, length_seq. now rewrite Nat.min_id. }
  repeat split; apply map_combine_snd; try (now rewrite length_seq);
    intros p; reflexivity.
Qed.

End OutputTables.

Lemma output_durations_in_range_witness :
  Forall (fun j => exists q, j_duration j = Finite q
                             /\ (1 # 2 <= q)%Q /\ (q <= 30 # 1)%Q)
    (benchmark_json example_out).
Proof.
  apply Forall_forall.
  exact (proj1 (proj2 (@output_durations_in_range lcg example_catalog example_segments
                         0 example_out example_main))).
Defined.

Lemma out_of_range_segment_ignored_witness :
  @main lcg example_catalog
    {| has_inference_transcript := false;
       segment_rows := example_rows
                       ++ [example_row "STT_GR_0001_0009_0_to_40000"
                             (Number (Finite (40 # 1)))] |} 0
  = @main lcg example_catalog example_segments 0.
Proof.
  apply (@out_of_range_segment_ignored lcg example_catalog example_segments 0
           (example_row "STT_GR_0001_0009_0_to_40000" (Number (Finite (40 # 1))))
           (Finite (40 # 1)));
    reflexivity.
Defined.

Lemma outputs_aligned_witness :
  length (benchmark_json example_out) = length (formatted_output example_out).
Proof.
  exact (proj1 (@outputs_aligned lcg example_catalog example_segments 0
                  example_out example_main)).
Defined.

(** ** File names outside the pattern *)

Lemma extract_original_id_fallback (s : string) :
  (forall ds rest, ~ segment_id_shape s ds rest) -> extract_original_id s = s.
Proof.
  intros H. unfold extract_original_id.
  destruct (re_match_original_id s) as [g|] eqn:E; [|reflexivity].
  destruct (re_match_original_id_inv _ _ E) as (ds & rest & Hs & _).
  now elim (H ds rest).
Qed.

Section FallbackFacts.
Context {RS : RandomState}.

(** X15: a file name that the pattern does not match is its own parent
    id, and it resolves like any other: such a segment is in the stratum
    mapping table exactly when its duration is a number in range and its whole
    file name is a catalog identifier. *)
Theorem fallback_id_resolves (catalog : list catalog_entry) (segments : segments_csv)
  (g0 : rng) (out : outputs) (i : nat) (raw : segment cell) :
  main catalog segments g0 = Ok out ->
  nth_error (segment_rows segments) i = Some raw ->
  (forall ds rest, ~ segment_id_shape (file_name raw) ds rest) ->
  (In i (map mp_index (strata_mapping_df out))
   <-> (exists q, to_float (audio_duration raw) = Ok (Finite q)
                  /\ (1 # 2 <= q)%Q /\ (q <= 30 # 1)%Q)
       /\ In (file_name raw) (map ID catalog)).
Proof.
  intros Hm Hi Hshape.
  destruct (main_inv _ _ _ _ Hm)
    as (in_range & catalog_df & md & selected & Hf & Hc & _ & _ & _ & _ & Hmap & _).
  rewrite Hmap, map_map. simpl. rewrite in_map_iff.
  pose proof (extract_original_id_fallback _ Hshape) as E. split.
  - intros (v & <- & Hv).
    apply (joined_row_origin catalog _ _ _ v Hf Hc) in Hv.
    destruct Hv as (raw' & q & s & Hn & Hd & H1 & H2 & Hg & _).
    rewrite Hi in Hn. injection Hn as <-. split; [now exists q|].
    rewrite <- E. apply (catalog_lookup catalog catalog_df _ Hc). now exists s.
  - intros [(q & Hd & H1 & H2) Hid]. rewrite <- E in Hid.
    destruct (proj1 (catalog_lookup catalog catalog_df _ Hc) Hid) as [s Hs].
    exists {| v_index := i; v_segment := with_duration raw (Finite q);
              original_id := extract_original_id (file_name raw);
              strata := s |}.
    split; [reflexivity|].
    apply (joined_row_origin catalog _ _ _ _ Hf Hc).
    exists raw, q, s. repeat split; auto.
Qed.

End FallbackFacts.

Lemma fallback_id_resolves_witness :
  exists out,
    @main lcg
      [{| ID := "intro.wav"; Filename := Text "Introduction";
          Original_Full_Audio_Duration := Text "00:01:00"; AGE := Some "Adult" |}]
      {| has_inference_transcript := false;
         segment_rows := [example_row "intro.wav" (Number (Finite (3 # 1)))] |} 0
    = Ok out
    /\ In 0%nat (map mp_index (strata_mapping_df out)).
Proof.
  destruct (@main lcg
              [{| ID := "intro.wav"; Filename := Text "Introduction";
                  Original_Full_Audio_Duration := Text "00:01:00";
                  AGE := Some "Adult" |}]
              {| has_inference_transcript := false;
                 segment_rows := [example_row "intro.wav" (Number (Finite (3 # 1)))] |}
              0) as [out|e] eqn:Hm; [|vm_compute in Hm; discriminate Hm].
  exists out. split; [reflexivity|].
  apply (proj2 (@fallback_id_resolves lcg _ _ 0 out 0%nat
                  (example_row "intro.wav" (Number (Finite (3 # 1)))) Hm eq_refl
                  ltac:(intros ds rest (_ & _ & H); discriminate H))).
  split.
  - exists (3 # 1)%Q. repeat split; discriminate.
  - now left.
Defined.

(** ** Columns the selection does not read *)

Lemma filter_map_commute {A B : Type} (f : A -> B) (p : B -> bool) (l : list A) :
  map f (filter (fun x => p (f x)) l) = filter p (map f l).
Proof.
  induction l as [|x l IH]; simpl; [reflexivity|].
  destruct (p (f x)); simpl; now rewrite IH.
Qed.

Lemma dropna_map {A B : Type} (f : A -> B) (l : list (option A)) :
  map f (dropna l) = dropna (map (option_map f) l).
Proof.
  induction l as [|[a|] l IH]; simpl; [reflexivity | now rewrite IH | exact IH].
Qed.

Lemma take_rows_map {A B : Type} (f : A -> B) (positions : list nat) (df : list A) :
  take_rows positions (map f df) = map f (take_rows positions df).
Proof.
  unfold take_rows. rewrite dropna_map, map_map.
  f_equal. apply map_ext. intros p. apply nth_error_map.
Qed.

Lemma combine_map_r {A B C : Type} (f : B -> C) (l1 : list A) (l2 : list B) :
  combine l1 (map f l2) = map (fun p => (fst p, f (snd p))) (combine l1 l2).
Proof.
  revert l2; induction l1 as [|x l1 IH]; intros [|y l2]; simpl; try reflexivity.
  now rewrite IH.
Qed.

(** What the filter keeps, read from the two columns it uses. *)
Lemma duration_filter_columns (rows rows' : list (segment cell))
  (kept kept' : frame (segment float)) :
  map selection_columns rows = map selection_columns rows' ->
  duration_filter (range_index rows) = Ok kept ->
  duration_filter (range_index rows') = Ok kept' ->
  map (fun r => (fst r, selection_columns (snd r))) kept
  = map (fun r => (fst r, selection_columns (snd r))) kept'.
Proof.
  intros Hrows Hk Hk'.
  rewrite (duration_filter_numeric _ (duration_filter_ok_numeric _ _ Hk)) in Hk.
  rewrite (duration_filter_numeric _ (duration_filter_ok_numeric _ _ Hk')) in Hk'.
  apply Ok_inj in Hk, Hk'. subst kept kept'.
  rewrite (filter_map_commute
             (fun r : nat * segment float => (fst r, selection_columns (snd r)))
             (fun c => in_duration_range (snd (snd c)))).
  rewrite (filter_map_commute
             (fun r : nat * segment float => (fst r, selection_columns (snd r)))
             (fun c => in_duration_range (snd (snd c)))).
  f_equal. rewrite !map_map. unfold range_index.
  assert (forall l : list (segment cell),
             map (fun x : nat * segment cell =>
                    (fst x, selection_columns
                              (with_duration (snd x) (cell_float (audio_duration (snd x))))))
               (combine (seq 0 (length l)) l)
             = map (fun p : nat * (string * cell) =>
                      (fst p, (fst (snd p), cell_float (snd (snd p)))))
                 (combine (seq 0 (length l)) (map selection_columns l))) as E.
  { intros l. rewrite combine_map_r, map_map. reflexivity. }
  simpl. rewrite (E rows), (E rows'), Hrows.
  now rewrite <- (length_map selection_columns rows), Hrows, length_map.
Qed.

Lemma read_segment_columns (rows rows' : list (segment cell)) :
  map selection_columns rows = map selection_columns rows' ->
  map selection_columns (map read_segment rows)
  = map selection_columns (map read_segment rows').
Proof.
  intros H. rewrite !map_map.
  change (fun x => selection_columns (read_segment x))
    with (fun x => (fun p : string * cell => (fst p, read_field (snd p)))
                     (selection_columns x)).
  rewrite <- !(map_map selection_columns
                 (fun p : string * cell => (fst p, read_field (snd p)))).
  now rewrite H.
Qed.

Lemma join_columns (d : dict string) (rows rows' : frame (segment float)) :
  map (fun r => (fst r, selection_columns (snd r))) rows
  = map (fun r => (fst r, selection_columns (snd r))) rows' ->
  map mapping_of (join d rows) = map mapping_of (join d rows').
Proof.
  intros H. unfold join. rewrite !dropna_map, !map_map.
  assert (forall l : frame (segment float),
             map (fun x => option_map mapping_of (join_row d x)) l
             = map (fun c : nat * (string * float) =>
                      match dict_get (extract_original_id (fst (snd c))) d with
                      | Some s =>
                          Some {| mp_index := fst c; mp_file_name := fst (snd c);
                                  mp_original_id := extract_original_id (fst (snd c));
                                  mp_strata := s; mp_audio_duration := snd (snd c) |}
                      | None => None
                      end)
                 (map (fun r => (fst r, selection_columns (snd r))) l)) as E.
  { intros l. rewrite map_map. apply map_ext. intros [i s]. unfold join_row. simpl.
    now destruct (dict_get (extract_original_id (file_name s)) d). }
  now rewrite (E rows), (E rows'), H.
Qed.

Section SelectionColumns.
Context {RS : RandomState}.

Lemma stratum_rows_mapping (k : string) (valid : list valid_segment) :
  map mapping_of (stratum_rows k valid)
  = filter (fun m => String.eqb (mp_strata m) k) (map mapping_of valid).
Proof.
  unfold stratum_rows.
  exact (filter_map_commute mapping_of (fun m => String.eqb (mp_strata m) k) valid).
Qed.

Lemma select_stratum_mapping (T : nat) (group group' : list valid_segment) (g : rng) :
  map mapping_of group = map mapping_of group' ->
  map mapping_of (fst (select_stratum T group g))
  = map mapping_of (fst (select_stratum T group' g))
  /\ snd (select_stratum T group g) = snd (select_stratum T group' g).
Proof.
  intros H.
  assert (length group = length group') as Hl
    by (rewrite <- (length_map mapping_of group), H; apply length_map).
  unfold select_stratum. rewrite Hl.
  destruct (length group' <=? Nat.min T (length group'))%nat; simpl; [auto|].
  unfold sample. rewrite Hl.
  destruct (choice (length group') (Nat.min T (length group')) g) as [ps g'].
  simpl. split; [|reflexivity].
  now rewrite <- !take_rows_map, H.
Qed.

Lemma sampling_loop_mapping (T : nat) (items : dict nat)
  (valid valid' : list valid_segment) (g : rng) :
  map mapping_of valid = map mapping_of valid' ->
  map (map mapping_of) (fst (sampling_loop T items valid g))
  = map (map mapping_of) (fst (sampling_loop T items valid' g)).
Proof.
  intros H. revert g. induction items as [|[k n] items IH]; intros g; simpl;
    [reflexivity|].
  destruct (select_stratum_mapping T (stratum_rows k valid) (stratum_rows k valid') g)
    as [Hsel Hg]; [now rewrite !stratum_rows_mapping, H|].
  destruct (select_stratum T (stratum_rows k valid) g) as [s1 g1].
  destruct (select_stratum T (stratum_rows k valid') g) as [s2 g2].
  simpl in Hsel, Hg. subst g2. specialize (IH g1).
  destruct (sampling_loop T items valid g1) as [m1 h1].
  destruct (sampling_loop T items valid' g1) as [m2 h2].
  simpl in *. now rewrite Hsel, IH.
Qed.

Lemma stratified_sample_mapping (T : nat) (valid valid' : list valid_segment) (g0 : rng) :
  map mapping_of valid = map mapping_of valid' ->
  map (map mapping_of) (fst (stratified_sample T valid g0))
  = map (map mapping_of) (fst (stratified_sample T valid' g0)).
Proof.
  intros H. unfold stratified_sample, stratified_sample_seeded.
  assert (map strata valid = map strata valid') as Hs.
  { change strata with (fun v => mp_strata (mapping_of v)).
    now rewrite <- !(map_map mapping_of mp_strata), H. }
  rewrite Hs. now apply sampling_loop_mapping.
Qed.

(** X16: the selection reads only the file name and the duration of a
    segment.  Two segments tables that agree on these two columns, whatever
    their urls and transcripts, give the same stratum mapping table, the same
    catalog table and a benchmark of the same rows, with the same labels, in
    the same order. *)
Theorem selection_reads_two_columns (catalog : list catalog_entry)
  (segments segments' : segments_csv) (g0 : rng) (out : outputs) :
  map selection_columns (segment_rows segments)
  = map selection_columns (segment_rows segments') ->
  main catalog segments g0 = Ok out ->
  exists out',
    main catalog segments' g0 = Ok out'
    /\ strata_mapping_df out' = strata_mapping_df out
    /\ full_audio_strata_df out' = full_audio_strata_df out
    /\ map (fun b => mapping_of (b_valid b)) (benchmark_df out')
       = map (fun b => mapping_of (b_valid b)) (benchmark_df out)
    /\ map (fun b => (age_group b, b_duration_category b, b_content_type b))
         (benchmark_df out')
       = map (fun b => (age_group b, b_duration_category b, b_content_type b))
           (benchmark_df out).
Proof.
  intros Hcols Hm.
  destruct (main_inv _ _ _ _ Hm)
    as (in_range & catalog_df & md & selected & Hf & Hc & Hmeta & Hs & Hb & _ & Hmap
        & Hfull & _).
  apply read_segment_columns in Hcols. unfold read_csv in Hf.
  assert (forall r, In r (range_index (map read_segment (segment_rows segments'))) ->
                    is_ok (to_float (audio_duration (snd r))) = true) as Hnum'.
  { intros [i r'] Hr. apply in_range_index in Hr. simpl.
    assert (nth_error (map selection_columns (map read_segment (segment_rows segments'))) i
            = Some (file_name r', audio_duration r')) as Hn.
    { rewrite nth_error_map, Hr. reflexivity. }
    rewrite <- Hcols, nth_error_map in Hn.
    destruct (nth_error (map read_segment (segment_rows segments)) i) as [r|] eqn:Er;
      [|discriminate].
    simpl in Hn. injection Hn as _ Hd.
    apply in_range_index in Er. rewrite <- Hd.
    exact (duration_filter_ok_numeric _ _ Hf (i, r) Er). }
  pose proof (duration_filter_numeric _ Hnum') as Hf'.
  set (in_range' := filter _ _) in Hf'.
  pose proof (duration_filter_columns _ _ _ _ Hcols Hf Hf') as Hkept.
  pose proof (join_columns (id_to_strata_of catalog_df) _ _ Hkept) as Hjoin.
  pose proof (stratified_sample_mapping SEGMENTS_PER_STRATUM _ _ g0 Hjoin) as Hsel.
  apply pd_concat_inv in Hs. destruct Hs as [-> Hne].
  assert (pd_concat (fst (stratified_sample SEGMENTS_PER_STRATUM
                            (join (id_to_strata_of catalog_df) in_range') g0))
          = Ok (concat (fst (stratified_sample SEGMENTS_PER_STRATUM
                               (join (id_to_strata_of catalog_df) in_range') g0))))
    as Hs'.
  { destruct (fst (stratified_sample SEGMENTS_PER_STRATUM
                     (join (id_to_strata_of catalog_df) in_range') g0)) eqn:E;
      [|reflexivity].
    destruct (fst (stratified_sample SEGMENTS_PER_STRATUM
                     (join (id_to_strata_of catalog_df) in_range) g0));
      [now elim Hne | discriminate Hsel]. }
  destruct (main_steps catalog segments' g0 _ _ _ _ Hf' Hc Hmeta Hs') as [out' Hm'].
  exists out'. split; [exact Hm'|].
  destruct (main_inv _ _ _ _ Hm')
    as (ir2 & cdf2 & md2 & sel2 & Hf2 & Hc2 & Hmeta2 & Hs2 & Hb2 & _ & Hmap2 & Hfull2 & _).
  unfold read_csv in Hf2. rewrite Hf' in Hf2. apply Ok_inj in Hf2. subst ir2.
  rewrite Hc in Hc2. apply Ok_inj in Hc2. subst cdf2.
  rewrite Hmeta in Hmeta2. apply Ok_inj in Hmeta2. subst md2.
  rewrite Hs' in Hs2. apply Ok_inj in Hs2. subst sel2.
  assert (map mapping_of
            (concat (fst (stratified_sample SEGMENTS_PER_STRATUM
                            (join (id_to_strata_of catalog_df) in_range') g0)))
          = map mapping_of
              (concat (fst (stratified_sample SEGMENTS_PER_STRATUM
                              (join (id_to_strata_of catalog_df) in_range) g0))))
    as Hconcat by (rewrite !concat_map; now rewrite Hsel).
  split; [now rewrite Hmap, Hmap2, Hjoin|]. split; [now rewrite Hfull, Hfull2|].
  rewrite Hb, Hb2, !map_map. cbn [add_metadata b_valid age_group b_duration_category
                                   b_content_type].
  split; [exact Hconcat|].
  set (labels := fun m : mapping_row =>
                   (get_label md (mp_original_id m) m_AGE (Some "Unknown"),
                    get_label md (mp_original_id m) m_duration_category "Unknown",
                    get_label md (mp_original_id m) m_content_type "Unknown")).
  transitivity
    (map labels
       (map mapping_of
          (concat (fst (stratified_sample SEGMENTS_PER_STRATUM
                          (join (id_to_strata_of catalog_df) in_range') g0))))).
  - rewrite map_map. reflexivity.
  - rewrite Hconcat, map_map. reflexivity.
Qed.

End SelectionColumns.

Lemma selection_reads_two_columns_witness :
  exists out',
    @main lcg example_catalog example_segments_with_column 0 = Ok out'
    /\ strata_mapping_df out' = strata_mapping_df example_out.
Proof.
  destruct (@selection_reads_two_columns lcg example_catalog example_segments
              example_segments_with_column 0 example_out eq_refl example_main)
    as (out' & Hm & Hmap & _).
  exists out'. split; [exact Hm | exact Hmap].
Defined.
